(** * ResourceReflector (src/reflector.js): a shallow embedding

    The reflector keeps [resources], a JavaScript [Map] from a string key to
    the last object seen under that key, in step with a remote collection:
    [listAndUpdate] replaces the map from a full listing, the watch callback
    of [watchAndUpdate] applies one notification at a time, and the loop of
    [watchAndUpdate] alternates the two, doubling [delay] after each failed
    cycle and giving up once the doubled value passes 30000.

    The remote side (the list function of the API client, the [Watch]
    object, the owner that calls [stop]) is not part of the file: it is
    modelled as a script the loop consumes, one [cycle] per iteration.
    Everything the code does to the outside (remote calls, log lines, the
    [onFailure] callback, timers) and every mutation of [resources] is
    recorded, in order, in a trace of [event]s.

    Two things are taken from the collaborators as the code expects them.
    The list function is [this.api[this.listMethodName]]; the client object
    [this.api] is attached by the owner, and the model starts at the call.
    The promise of [this.watch.watch] settles when the stream ends, after
    the callback has run on every notification: this is what the loop,
    which awaits it before listing again, relies on. *)

From Stdlib Require Import ZArith String Ascii DecimalString.
From stdpp Require Import base gmap strings list fin_maps.

Local Open Scope string_scope.
Local Open Scope list_scope.
Local Open Scope Z_scope.

(** ** JavaScript values that reach a template literal or a truth test *)

Inductive jsval : Type :=
| JUndefined
| JNull
| JStr (s : string).

(** [`${v}`] *)
Definition template (v : jsval) : string :=
  match v with
  | JUndefined => "undefined"
  | JNull => "null"
  | JStr s => s
  end.

(** [if (v)] *)
Definition truthy (v : jsval) : bool :=
  match v with
  | JUndefined | JNull => false
  | JStr s => negb (String.eqb s "")
  end.

(** [`${n}`] for an integral number *)
Definition template_num (n : Z) : string :=
  NilZero.string_of_int (Z.to_int n).

Definition lower_ascii (c : ascii) : ascii :=
  let n := N_of_ascii c in
  if ((65 <=? n) && (n <=? 90))%N then ascii_of_N (n + 32) else c.

(** [s.toLowerCase()], on the ASCII letters *)
Fixpoint toLowerCase (s : string) : string :=
  match s with
  | EmptyString => EmptyString
  | String c s' => String (lower_ascii c) (toLowerCase s')
  end.

(** [l.join(sep)] *)
Fixpoint join (sep : string) (l : list string) : string :=
  match l with
  | [] => ""
  | x :: l' =>
      match l' with
      | [] => x
      | _ :: _ => x +:+ sep +:+ join sep l'
      end
  end.

(** ** Objects of the remote collection *)

Module ObjectMeta.
Record t : Type := mk {
  namespace : jsval;
  name : jsval;
  resourceVersion : jsval
}.
End ObjectMeta.

(** An object as the client hands it over: its [metadata], and the rest of
    the document kept opaque. *)
Record k8sObject : Type := {
  metadata : ObjectMeta.t;
  document : string
}.

(** The key both [listAndUpdate] (line 71) and the watch callback (line 105)
    build: [`${obj.metadata.namespace}/${obj.metadata.name}`]. *)
Definition key_of (obj : k8sObject) : string :=
  template (ObjectMeta.namespace (metadata obj)) +:+ "/" +:+
  template (ObjectMeta.name (metadata obj)).

Inductive error : Type :=
| Error (message : string).

(** ** The reflector object *)

Record ResourceReflector : Type := mkReflector {
  kind : string;
  namespace : jsval;
  labels : list (string * string);
  fields : list (string * string);
  omitNamespace : bool;
  requestTimeout : Z;
  timeoutSeconds : Z;
  (** [onFailure]: [true] when a callback is configured, [false] for [null] *)
  onFailure : bool;
  resources : gmap string k8sObject;
  _stopping : bool;
  firstLoadComplete : bool;
  (** [watchTask]: [true] once it holds the promise of [watchAndUpdate] *)
  watchTask : bool
}.

(** The constructor, with its defaults for what the options leave out. *)
Definition new_reflector (kind0 : string) (namespace0 : jsval)
    (omitNamespace0 onFailure0 : bool) : ResourceReflector :=
  {| kind := kind0; namespace := namespace0; labels := []; fields := [];
     omitNamespace := omitNamespace0; requestTimeout := 60000;
     timeoutSeconds := 10; onFailure := onFailure0; resources := ∅;
     _stopping := false; firstLoadComplete := false; watchTask := false |}.

Definition with_resources (m : gmap string k8sObject) (r : ResourceReflector)
    : ResourceReflector :=
  {| kind := kind r; namespace := namespace r; labels := labels r;
     fields := fields r; omitNamespace := omitNamespace r;
     requestTimeout := requestTimeout r; timeoutSeconds := timeoutSeconds r;
     onFailure := onFailure r; resources := m; _stopping := _stopping r;
     firstLoadComplete := firstLoadComplete r; watchTask := watchTask r |}.

Definition with_stopping (b : bool) (r : ResourceReflector) : ResourceReflector :=
  {| kind := kind r; namespace := namespace r; labels := labels r;
     fields := fields r; omitNamespace := omitNamespace r;
     requestTimeout := requestTimeout r; timeoutSeconds := timeoutSeconds r;
     onFailure := onFailure r; resources := resources r; _stopping := b;
     firstLoadComplete := firstLoadComplete r; watchTask := watchTask r |}.

Definition with_firstLoadComplete (b : bool) (r : ResourceReflector)
    : ResourceReflector :=
  {| kind := kind r; namespace := namespace r; labels := labels r;
     fields := fields r; omitNamespace := omitNamespace r;
     requestTimeout := requestTimeout r; timeoutSeconds := timeoutSeconds r;
     onFailure := onFailure r; resources := resources r;
     _stopping := _stopping r; firstLoadComplete := b;
     watchTask := watchTask r |}.

Definition with_watchTask (b : bool) (r : ResourceReflector) : ResourceReflector :=
  {| kind := kind r; namespace := namespace r; labels := labels r;
     fields := fields r; omitNamespace := omitNamespace r;
     requestTimeout := requestTimeout r; timeoutSeconds := timeoutSeconds r;
     onFailure := onFailure r; resources := resources r;
     _stopping := _stopping r; firstLoadComplete := firstLoadComplete r;
     watchTask := b |}.

(** ** What the code does to the outside *)

Record listOpts : Type := {
  lo_labelSelector : string;
  lo_fieldSelector : string;
  lo_timeout : Z;
  lo_resourceVersion : option jsval;
  lo_resourceVersionMatch : option string;
  lo_namespace : option jsval
}.

Record watchOpts : Type := {
  wo_labelSelector : string;
  wo_fieldSelector : string;
  wo_timeoutSeconds : Z;
  wo_namespace : option jsval;
  wo_resourceVersion : jsval
}.

Inductive event : Type :=
| EListCall (opts : listOpts)
| EWatchCall (path : string) (opts : watchOpts)
| EResourcesClear
| EResourcesSet (key : string) (obj : k8sObject)
| EResourcesDelete (key : string)
| ELoggerError (message : string) (err : option error)
| ELoggerWarn (message : string) (err : option error)
| EOnFailure (err : error)
| ESleep (ms : Z)
| EWatchAbort.

(** ** A state, trace and exception monad for the method bodies *)

Inductive outcome (A : Type) : Type :=
| Return (a : A)
| Throw (e : error).
Arguments Return {A} a.
Arguments Throw {A} e.

Definition M (S A : Type) : Type := S -> outcome A * S * list event.

Definition ret {S A} (a : A) : M S A := fun s => (Return a, s, []).

Definition throw {S A} (e : error) : M S A := fun s => (Throw e, s, []).

Definition bind {S A B} (m : M S A) (k : A -> M S B) : M S B := fun s =>
  match m s with
  | (Return a, s1, t1) =>
      match k a s1 with
      | (o, s2, t2) => (o, s2, t1 ++ t2)
      end
  | (Throw e, s1, t1) => (Throw e, s1, t1)
  end.

(** [try { m } catch (err) { h err }]: what [m] did before it threw stays done. *)
Definition try_catch {S A} (m : M S A) (h : error -> M S A) : M S A := fun s =>
  match m s with
  | (Return a, s1, t1) => (Return a, s1, t1)
  | (Throw e, s1, t1) =>
      match h e s1 with
      | (o, s2, t2) => (o, s2, t1 ++ t2)
      end
  end.

Definition get {S} : M S S := fun s => (Return s, s, []).

Definition modify {S} (f : S -> S) : M S unit := fun s => (Return tt, f s, []).

Definition emit {S} (e : event) : M S unit := fun s => (Return tt, s, [e]).

Definition when {S} (b : bool) (m : M S unit) : M S unit :=
  if b then m else ret tt.

#[export] Instance M_ret {S} : MRet (M S) := fun A => @ret S A.
#[export] Instance M_bind {S} : MBind (M S) := fun A B k m => bind m k.

(** [for (const x of l) body(x)] *)
Fixpoint for_of {S A} (l : list A) (body : A -> M S unit) : M S unit :=
  match l with
  | [] => ret tt
  | x :: l' => body x;; for_of l' body
  end.

(** ** The Map [this.resources] *)

Definition resources_clear : M ResourceReflector unit :=
  modify (with_resources ∅);; emit EResourcesClear.

Definition resources_set (key : string) (obj : k8sObject)
    : M ResourceReflector unit :=
  modify (fun this => with_resources (<[key := obj]> (resources this)) this);;
  emit (EResourcesSet key obj).

Definition resources_delete (key : string) : M ResourceReflector unit :=
  modify (fun this => with_resources (delete key (resources this)) this);;
  emit (EResourcesDelete key).

(** ** Selectors and request options *)

Definition selector (entries : list (string * string)) : string :=
  join "," (map (fun kv => fst kv +:+ "=" +:+ snd kv) entries).

Definition _labelSelector (this : ResourceReflector) : string :=
  selector (labels this).

Definition _fieldSelector (this : ResourceReflector) : string :=
  selector (fields this).

(** [opts.namespace], set only under [!this.omitNamespace && this.namespace] *)
Definition opts_namespace (this : ResourceReflector) : option jsval :=
  if negb (omitNamespace this) && truthy (namespace this)
  then Some (namespace this) else None.

Definition list_opts (this : ResourceReflector) (resourceVersion : jsval)
    : listOpts :=
  {| lo_labelSelector := _labelSelector this;
     lo_fieldSelector := _fieldSelector this;
     lo_timeout := requestTimeout this;
     lo_resourceVersion :=
       if truthy resourceVersion then Some resourceVersion else None;
     lo_resourceVersionMatch :=
       if truthy resourceVersion then Some "NotOlderThan" else None;
     lo_namespace := opts_namespace this |}.

Definition watch_opts (this : ResourceReflector) (resourceVersion : jsval)
    : watchOpts :=
  {| wo_labelSelector := _labelSelector this;
     wo_fieldSelector := _fieldSelector this;
     wo_timeoutSeconds := timeoutSeconds this;
     wo_namespace := opts_namespace this;
     wo_resourceVersion := resourceVersion |}.

Definition watch_path (this : ResourceReflector) : string :=
  "/api/v1/" +:+
  (if omitNamespace this then ""
   else "namespaces/" +:+ template (namespace this) +:+ "/") +:+
  toLowerCase (kind this).

(** ** The remote side, as the code meets it *)

(** What [await listFn(opts)] comes back with: a body with its [items] and
    the collection's [metadata.resourceVersion], or a rejection. *)
Inductive listResponse : Type :=
| ListResolved (items : list k8sObject) (resourceVersion : jsval)
| ListRejected (err : error).

(** One watch subscription: the notifications handed to the callback, in the
    order of arrival, and how the stream ends ([None]: closed without an
    error, as on the idle timeout). *)
Record watchSession : Type := {
  delivered : list (string * k8sObject);
  closed_with : option error
}.

(** What the owner does while the loop is suspended at an [await]: nothing,
    or a call of [stop()], whose [this.watch.abort()] resolves or throws. *)
Inductive ownerAction : Type :=
| NoAction
| CallStop (abort_error : option error).

(** One iteration of the loop, seen from outside: the three suspension points
    (the list call, the watch, the timer) with what happens at each. The
    session is used only when the list call resolved, the timer only when
    the cycle failed and the loop did not give up. *)
Record cycle : Type := {
  during_list : ownerAction;
  list_response : listResponse;
  session : watchSession;
  during_watch : ownerAction;
  during_sleep : ownerAction
}.

(** ** stop (lines 138-147) *)

Definition stop (abort_error : option error) : M ResourceReflector unit :=
  modify (with_stopping true);;
  this ← get;
  when (watchTask this)
    (try_catch
       (emit EWatchAbort;;
        match abort_error with
        | None => mret tt
        | Some err => throw err
        end)
       (fun err =>
        emit (ELoggerWarn ("Error stopping watch for " +:+ kind this +:+ ":")
                (Some err)))).

(** The owner's action at a suspension point of the loop. *)
Definition owner (a : ownerAction) : M ResourceReflector unit :=
  match a with
  | NoAction => mret tt
  | CallStop abort_error =>
      (* the owner keeps what [stop] throws, and it throws nothing *)
      try_catch (stop abort_error) (fun _ => mret tt)
  end.

(** ** listAndUpdate (lines 51-81) *)

(** [await listFn(opts)] (line 67): the call, what the owner does while it is
    pending, and the answer. *)
Definition listFn (a : ownerAction) (resp : listResponse) (opts : listOpts)
    : M ResourceReflector (list k8sObject * jsval) :=
  emit (EListCall opts);;
  owner a;;
  match resp with
  | ListResolved items rv => mret (items, rv)
  | ListRejected err => throw err
  end.

Definition listAndUpdate (resourceVersion : jsval) (a : ownerAction)
    (resp : listResponse) : M ResourceReflector jsval :=
  this ← get;
  let opts := list_opts this resourceVersion in
  try_catch
    (res ← listFn a resp opts;
     let items := fst res in
     resources_clear;;
     for_of items (fun item =>
       let key := key_of item in
       resources_set key item);;
     modify (with_firstLoadComplete true);;
     mret (snd res))
    (fun err =>
     this ← get;
     emit (ELoggerError ("Error listing " +:+ kind this +:+ ":") (Some err));;
     when (negb (firstLoadComplete this) && onFailure this)
       (emit (EOnFailure err));;
     throw err).

(** ** watchAndUpdate (lines 83-130) *)

(** The variables of [watchAndUpdate] that outlive an iteration, next to the
    object itself. *)
Record locals : Type := {
  this : ResourceReflector;
  resourceVersion : jsval;
  delay : Z
}.

Definition liftThis {A} (m : M ResourceReflector A) : M locals A := fun l =>
  match m (this l) with
  | (o, r, t) =>
      (o, {| this := r; resourceVersion := resourceVersion l; delay := delay l |}, t)
  end.

Definition set_resourceVersion (v : jsval) : M locals unit :=
  modify (fun l => {| this := this l; resourceVersion := v; delay := delay l |}).

Definition set_delay (d : Z) : M locals unit :=
  modify (fun l => {| this := this l; resourceVersion := resourceVersion l; delay := d |}).

(** The callback handed to [this.watch.watch] (lines 104-112). *)
Definition on_event (type : string) (obj : k8sObject) : M locals unit :=
  let key := key_of obj in
  (if String.eqb type "DELETED"
   then liftThis (resources_delete key)
   else liftThis (resources_set key obj));;
  set_resourceVersion (ObjectMeta.resourceVersion (metadata obj)).

(** [await this.watch.watch(path, opts, callback, done)]: the callback runs
    once per notification, and [done] rethrows the error that closed the
    stream, if any. *)
Definition watch (path : string) (opts : watchOpts)
    (callback : string -> k8sObject -> M locals unit)
    (s : watchSession) (a : ownerAction) : M locals unit :=
  emit (EWatchCall path opts);;
  for_of (delivered s) (fun ev => callback (fst ev) (snd ev));;
  liftThis (owner a);;
  match closed_with s with
  | None => mret tt
  | Some err => throw err
  end.

(** How one pass through the body of [while (!this._stopping)] ends. The two
    kinds of [Break] are the two [break] statements: line 119 (stopping) and
    line 125 (the doubled delay passed 30000). *)
Inductive signal : Type :=
| Continue
| BreakStopping
| BreakFailed.

(** The [try] block of the loop body (lines 97-119). *)
Definition try_body (c : cycle) : M locals signal :=
  l ← get;
  rv ← liftThis (listAndUpdate (resourceVersion l) (during_list c)
                   (list_response c));
  set_resourceVersion rv;;
  watch (watch_path (this l)) (watch_opts (this l) rv) on_event
    (session c) (during_watch c);;
  set_delay 100;;
  l ← get;
  if _stopping (this l) then mret BreakStopping else mret Continue.

(** The [catch] block (lines 120-128). The warning is written before
    [delay *= 2], the timer is set after it. *)
Definition catch_body (c : cycle) (err : error) : M locals signal :=
  l ← get;
  emit (ELoggerWarn
          ("Watch error for " +:+ kind (this l) +:+ ", retrying in " +:+
           template_num (delay l) +:+ "ms") (Some err));;
  set_delay (delay l * 2);;
  if delay l * 2 >? 30000 then
    emit (ELoggerError (kind (this l) +:+ " watch failed permanently") None);;
    when (onFailure (this l)) (emit (EOnFailure err));;
    mret BreakFailed
  else
    emit (ESleep (delay l * 2));;
    liftThis (owner (during_sleep c));;
    mret Continue.

Definition iteration (c : cycle) : M locals signal :=
  try_catch (try_body c) (catch_body c).

(** Where the loop stands once the script is used up: still suspended at an
    [await] ([Pending]), or returned, through the loop condition
    ([LoopCondition]) or through one of the two [break]s. *)
Inductive exit : Type :=
| Pending
| LoopCondition
| Broke (s : signal)
| Rejected (err : error).

Fixpoint loop (script : list cycle) (l : locals) : exit * locals * list event :=
  if _stopping (this l) then (LoopCondition, l, [])
  else
    match script with
    | [] => (Pending, l, [])
    | c :: script' =>
        match iteration c l with
        | (Return Continue, l1, t1) =>
            match loop script' l1 with
            | (x, l2, t2) => (x, l2, t1 ++ t2)
            end
        | (Return s, l1, t1) => (Broke s, l1, t1)
        | (Throw err, l1, t1) => (Rejected err, l1, t1)
        end
    end.

Definition watchAndUpdate (script : list cycle) (r : ResourceReflector)
    : exit * locals * list event :=
  loop script {| this := r; resourceVersion := JStr "0"; delay := 100 |}.

(** ** start (lines 132-136) *)

Definition start (a : ownerAction) (resp : listResponse)
    : M ResourceReflector unit :=
  this ← get;
  if watchTask this
  then throw (Error ("Watcher for " +:+ kind this +:+ " already running"))
  else
    listAndUpdate JNull a resp;;
    modify (with_watchTask true).

(** [start()] and then the background task it leaves behind. *)
Definition start_and_run (a : ownerAction) (resp : listResponse)
    (script : list cycle) (r : ResourceReflector)
    : outcome exit * locals * list event :=
  match start a resp r with
  | (Return _, r1, t1) =>
      match watchAndUpdate script r1 with
      | (x, l2, t2) => (Return x, l2, t1 ++ t2)
      end
  | (Throw err, r1, t1) =>
      (Throw err, {| this := r1; resourceVersion := JStr "0"; delay := 100 |}, t1)
  end.

(** ** Reading a trace *)

Definition is_store_event (e : event) : bool :=
  match e with
  | EResourcesClear | EResourcesSet _ _ | EResourcesDelete _ => true
  | _ => false
  end.

(** The mutations of [this.resources], in the order they happened. *)
Definition store_events (t : list event) : list event :=
  List.filter is_store_event t.

(** The errors [this.onFailure] was called with. *)
Fixpoint onFailure_calls (t : list event) : list error :=
  match t with
  | [] => []
  | EOnFailure err :: t' => err :: onFailure_calls t'
  | _ :: t' => onFailure_calls t'
  end.

(** The delays the timers were set to. *)
Fixpoint sleeps (t : list event) : list Z :=
  match t with
  | [] => []
  | ESleep ms :: t' => ms :: sleeps t'
  | _ :: t' => sleeps t'
  end.

(** The messages of [logger.warn]. *)
Fixpoint warnings (t : list event) : list string :=
  match t with
  | [] => []
  | ELoggerWarn message _ :: t' => message :: warnings t'
  | _ :: t' => warnings t'
  end.

(** The remote list calls made. *)
Fixpoint list_calls (t : list event) : list listOpts :=
  match t with
  | [] => []
  | EListCall opts :: t' => opts :: list_calls t'
  | _ :: t' => list_calls t'
  end.

(** What a store event does to a map: the meaning of [clear], [set] and
    [delete] on a JavaScript [Map], the insertion order left aside. *)
Definition replay_event (m : gmap string k8sObject) (e : event)
    : gmap string k8sObject :=
  match e with
  | EResourcesClear => ∅
  | EResourcesSet key obj => <[key := obj]> m
  | EResourcesDelete key => delete key m
  | _ => m
  end.

Definition replay (t : list event) (m : gmap string k8sObject)
    : gmap string k8sObject :=
  fold_left replay_event t m.

(** The store event of one item of a listing, and of one notification. *)
Definition set_of_item (item : k8sObject) : event :=
  EResourcesSet (key_of item) item.

Definition mutation_of (ev : string * k8sObject) : event :=
  if String.eqb (fst ev) "DELETED"
  then EResourcesDelete (key_of (snd ev))
  else EResourcesSet (key_of (snd ev)) (snd ev).

(** The map a listing leaves: the items entered one after the other into an
    empty map. *)
Definition listed (items : list k8sObject) : gmap string k8sObject :=
  fold_left (fun m item => <[key_of item := item]> m) items ∅.

(** The state a call of [stop()] by the owner leaves. *)
Definition owner_state (a : ownerAction) (r : ResourceReflector)
    : ResourceReflector :=
  match a with
  | NoAction => r
  | CallStop _ => with_stopping true r
  end.

(** What a call of [stop()] by the owner adds to the trace. *)
Definition owner_trace (a : ownerAction) (r : ResourceReflector) : list event :=
  (owner a r).2.

(** The call of [this.onFailure] in the [catch] of [listAndUpdate] (line 78). *)
Definition escalation (r : ResourceReflector) (err : error) : list event :=
  if negb (firstLoadComplete r) && onFailure r then [EOnFailure err] else [].

(** The closure variable [resourceVersion] after the callback ran on each
    notification: the [metadata.resourceVersion] of the last one. *)
Definition cursor_after (evs : list (string * k8sObject)) (rv : jsval) : jsval :=
  fold_left (fun _ ev => ObjectMeta.resourceVersion (metadata ev.2)) evs rv.

(** The object after a watch session: the notifications applied, then the
    owner's action. *)
Definition after_watch (s : watchSession) (a : ownerAction)
    (r : ResourceReflector) : ResourceReflector :=
  owner_state a
    (with_resources (replay (map mutation_of (delivered s)) (resources r)) r).

(** The object after a listing that resolved. *)
Definition after_list (items : list k8sObject) (a : ownerAction)
    (r : ResourceReflector) : ResourceReflector :=
  with_firstLoadComplete true (with_resources (listed items) (owner_state a r)).

(** The trace of a listing that resolved. *)
Definition list_trace (rv : jsval) (a : ownerAction) (items : list k8sObject)
    (r : ResourceReflector) : list event :=
  EListCall (list_opts r rv) :: owner_trace a r ++
  EResourcesClear :: map set_of_item items.

(** The trace of a watch session. *)
Definition watch_trace (rv : jsval) (s : watchSession) (a : ownerAction)
    (r0 r : ResourceReflector) : list event :=
  EWatchCall (watch_path r0) (watch_opts r0 rv) ::
  map mutation_of (delivered s) ++
  owner_trace a
    (with_resources (replay (map mutation_of (delivered s)) (resources r)) r).

(** The message of the warning in the [catch] of the loop (line 121). *)
Definition warning (r : ResourceReflector) (d : Z) : string :=
  "Watch error for " +:+ kind r +:+ ", retrying in " +:+ template_num d +:+ "ms".

(** Entering one item of a listing (lines 71-72). *)
Definition enter (m : gmap string k8sObject) (item : k8sObject)
    : gmap string k8sObject :=
  <[key_of item := item]> m.

(** A cycle during which the owner does nothing. *)
Definition quiet_cycle (resp : listResponse) (s : watchSession) : cycle :=
  {| during_list := NoAction; list_response := resp; session := s;
     during_watch := NoAction; during_sleep := NoAction |}.

(** A cycle whose list call is rejected with [err]. *)
Definition failing_cycle (err : error) : cycle :=
  quiet_cycle (ListRejected err) {| delivered := []; closed_with := None |}.

(** The error that sends a cycle into the [catch] block, if any: the
    rejection of the list call, else the error that closed the stream. *)
Definition cycle_error (c : cycle) : option error :=
  match list_response c with
  | ListRejected err => Some err
  | ListResolved _ _ => closed_with (session c)
  end.

(** The two flags [start()] sets are never reset by the loop. *)
Definition synced (r : ResourceReflector) : Prop :=
  firstLoadComplete r = true ∧ watchTask r = true.

(** ** Sample objects *)

Definition pod (ns n rv : string) : k8sObject :=
  {| metadata := ObjectMeta.mk (JStr ns) (JStr n) (JStr rv); document := "" |}.

(** A cluster-scoped object: its metadata carries no namespace. *)
Definition node1 : k8sObject :=
  {| metadata := ObjectMeta.mk JUndefined (JStr "node1") (JStr "7");
     document := "" |}.

(** ** The key scheme in the words of the specification

    "namespace+name for scoped resources, name alone for cluster-wide
    resources", the cluster-wide reflector being the one built with
    [omitNamespace]. It is stated here to be compared with [key_of]. *)
Definition spec_key (omitNamespace : bool) (obj : k8sObject) : string :=
  if omitNamespace
  then template (ObjectMeta.name (metadata obj))
  else template (ObjectMeta.namespace (metadata obj)) +:+ "/" +:+
       template (ObjectMeta.name (metadata obj)).

(** ** The constructor and the two subclasses (lines 8-41, 150-160) *)

(** The options object handed to the constructor: [None] for a property
    left out (or [undefined], for the properties that are not a [jsval]),
    which the destructuring replaces by its default. *)
Record options : Type := {
  o_kind : string;
  o_namespace : option jsval;
  o_labels : option (list (string * string));
  o_fields : option (list (string * string));
  o_omitNamespace : option bool;
  o_requestTimeout : option Z;
  o_timeoutSeconds : option Z;
  o_onFailure : option bool
}.

(** The destructuring default [namespace = null] (line 11): taken when the
    property is left out, and when it is there with the value [undefined]. *)
Definition namespace_or_null (given : option jsval) : jsval :=
  match given with
  | None | Some JUndefined => JNull
  | Some v => v
  end.

Definition constructor (o : options) : ResourceReflector :=
  {| kind := o_kind o;
     namespace := namespace_or_null (o_namespace o);
     labels := default [] (o_labels o);
     fields := default [] (o_fields o);
     omitNamespace := default false (o_omitNamespace o);
     requestTimeout := default 60000 (o_requestTimeout o);
     timeoutSeconds := default 10 (o_timeoutSeconds o);
     onFailure := default false (o_onFailure o);
     resources := ∅;
     _stopping := false;
     firstLoadComplete := false;
     watchTask := false |}.

(** [{ ...options, omitNamespace: b }] *)
Definition spread_omitNamespace (b : bool) (o : options) : options :=
  {| o_kind := o_kind o; o_namespace := o_namespace o; o_labels := o_labels o;
     o_fields := o_fields o; o_omitNamespace := Some b;
     o_requestTimeout := o_requestTimeout o;
     o_timeoutSeconds := o_timeoutSeconds o; o_onFailure := o_onFailure o |}.

Definition NamespacedResourceReflector (o : options) : ResourceReflector :=
  constructor (spread_omitNamespace false o).

Definition MultiNamespaceResourceReflector (o : options) : ResourceReflector :=
  constructor (spread_omitNamespace true o).

(** ** Reading more of a trace *)

(** The watch subscriptions opened: path and options. *)
Fixpoint watch_calls (t : list event) : list (string * watchOpts) :=
  match t with
  | [] => []
  | EWatchCall path opts :: t' => (path, opts) :: watch_calls t'
  | _ :: t' => watch_calls t'
  end.

(** Whether the loop has returned. *)
Definition returned (x : exit) : bool :=
  match x with
  | Pending => false
  | _ => true
  end.

(** What the loop is configured with, and never assigns. *)
Definition same_config (r r' : ResourceReflector) : Prop :=
  kind r' = kind r ∧ namespace r' = namespace r ∧ labels r' = labels r ∧
  fields r' = fields r ∧ omitNamespace r' = omitNamespace r ∧
  requestTimeout r' = requestTimeout r ∧ timeoutSeconds r' = timeoutSeconds r ∧
  onFailure r' = onFailure r.

(** The events one pass through the loop body can add to the trace, from
    the state [l] it starts in. *)
Inductive iteration_event (l : locals) : event -> Prop :=
| ie_list :
    iteration_event l (EListCall (list_opts (this l) (resourceVersion l)))
| ie_watch rv :
    iteration_event l
      (EWatchCall (watch_path (this l)) (watch_opts (this l) rv))
| ie_store e : is_store_event e = true -> iteration_event l e
| ie_error message err : iteration_event l (ELoggerError message err)
| ie_warn message err : iteration_event l (ELoggerWarn message err)
| ie_abort : iteration_event l EWatchAbort
| ie_onFailure err :
    onFailure (this l) = true -> iteration_event l (EOnFailure err)
| ie_sleep :
    delay l * 2 <= 30000 -> iteration_event l (ESleep (delay l * 2)).

(** The version of the last notification delivered, or [rv] if there was
    none. *)
Definition last_version (evs : list (string * k8sObject)) (rv : jsval) : jsval :=
  match last evs with
  | Some ev => ObjectMeta.resourceVersion (metadata (snd ev))
  | None => rv
  end.

(** A cycle that fails with nobody calling [stop()]. *)
Definition fails_quietly (c : cycle) : Prop :=
  is_Some (cycle_error c) ∧ during_list c = NoAction ∧
  during_watch c = NoAction ∧ during_sleep c = NoAction.

(** The owner calls [stop()] at a suspension point the cycle reaches: the
    list call; the watch, when the listing resolved; the timer, when the
    cycle failed. *)
Definition stop_called (c : cycle) : Prop :=
  during_list c ≠ NoAction ∨
  (during_watch c ≠ NoAction ∧
   ∃ items lrv, list_response c = ListResolved items lrv) ∨
  (is_Some (cycle_error c) ∧ during_sleep c ≠ NoAction).

(** Whether the loop ended through the [break] of line 125. *)
Definition gave_up (x : exit) : bool :=
  match x with
  | Broke BreakFailed => true
  | _ => false
  end.

(** * The shared API clients (src/client.js) *)

Module Client.

(** A cluster entry of a KubeConfig, as far as [loadConfig] touches it. *)
Record cluster : Type := {
  server : jsval;
  caFile : jsval;
  skipTLSVerify : bool
}.

(** A [KubeConfig] object: fresh from [new k8s.KubeConfig()], or loaded by one
    of the two loaders, with the cluster [getCurrentCluster()] returns. *)
Inductive origin : Type :=
| Unloaded
| FromCluster
| FromDefault.

Record KubeConfig : Type := {
  loaded : origin;
  currentCluster : option cluster
}.

(** A client made by [kubeConfig.makeApiClient]: the constructor it was made
    with, and the configuration it was made from. *)
Record client : Type := {
  clientType : string;
  made_from : KubeConfig
}.

(** The two module variables. *)
Record state : Type := {
  kubeConfig : option KubeConfig;
  clientCache : gmap string client
}.

Definition initial : state := {| kubeConfig := None; clientCache := ∅ |}.

(** What the two loaders of the library do when called: throw, or load a
    configuration whose current cluster is the one given, if any. *)
Record loaders : Type := {
  loadFromCluster : error + option cluster;
  loadFromDefault : error + option cluster
}.

(** Lines 24-29: the overrides applied to the current cluster. *)
Definition override (host sslCaCert : jsval) (verifySsl : bool) (c : cluster)
    : cluster :=
  {| server := if truthy host then host else server c;
     caFile := if truthy sslCaCert then sslCaCert else caFile c;
     skipTLSVerify := negb verifySsl |}.

(** [loadConfig({ host, sslCaCert, verifySsl })] (lines 16-30). The variable
    is assigned the fresh object before either loader runs. *)
Definition loadConfig (host sslCaCert : jsval) (verifySsl : bool)
    (env : loaders) (s : state) : outcome unit * state :=
  let fresh := {| loaded := Unloaded; currentCluster := None |} in
  let finish (o : origin) (c : option cluster) :=
    (Return tt,
     {| kubeConfig :=
          Some {| loaded := o;
                  currentCluster := override host sslCaCert verifySsl <$> c |};
        clientCache := clientCache s |}) in
  match loadFromCluster env with
  | inr c => finish FromCluster c
  | inl _ =>
      match loadFromDefault env with
      | inr c => finish FromDefault c
      | inl err =>
          (Throw err, {| kubeConfig := Some fresh; clientCache := clientCache s |})
      end
  end.

(** What the library is asked for: [known type] tells whether
    [k8s[type]] is there, [refuses cfg type] is the error
    [cfg.makeApiClient(k8s[type])] throws, if it throws. *)
Record library : Type := {
  known : string -> bool;
  refuses : KubeConfig -> string -> option error
}.

(** [sharedClient(clientType)] (lines 36-51). Besides the result and the new
    state, the clients that were made and entered into the cache. *)
Definition sharedClient (k8s : library) (type : string) (s : state)
    : outcome client * state * list client :=
  match kubeConfig s with
  | None =>
      (Throw (Error "Kubernetes config not loaded. Call loadConfig() first."),
       s, [])
  | Some cfg =>
      match clientCache s !! type with
      | Some c => (Return c, s, [])
      | None =>
          if known k8s type then
            match refuses k8s cfg type with
            | Some err => (Throw err, s, [])
            | None =>
                let c := {| clientType := type; made_from := cfg |} in
                (Return c,
                 {| kubeConfig := kubeConfig s;
                    clientCache := <[type := c]> (clientCache s) |},
                 [c])
            end
          else
            (Throw (Error ("Invalid Kubernetes client type: " +:+ type)), s, [])
      end
  end.

(** The calls a program makes to the module, in order. *)
Inductive call : Type :=
| CallLoadConfig (host sslCaCert : jsval) (verifySsl : bool) (env : loaders)
| CallSharedClient (type : string).

Definition step (k8s : library) (c : call) (s : state)
    : state * list client :=
  match c with
  | CallLoadConfig host sslCaCert verifySsl env =>
      ((loadConfig host sslCaCert verifySsl env s).2, [])
  | CallSharedClient type =>
      ((sharedClient k8s type s).1.2, (sharedClient k8s type s).2)
  end.

(** The state after a sequence of calls, and every client made on the way. *)
Fixpoint run (k8s : library) (calls : list call) (s : state)
    : state * list client :=
  match calls with
  | [] => (s, [])
  | c :: calls' =>
      let r := step k8s c s in
      let r' := run k8s calls' r.1 in
      (r'.1, r.2 ++ r'.2)
  end.

(** A sample setting: a library that knows [CoreV1Api] and refuses nothing, a
    machine outside any cluster whose default configuration points to
    [dev]. *)
Definition sample_library : library :=
  {| known := fun type => String.eqb type "CoreV1Api";
     refuses := fun _ _ => None |}.

Definition dev : cluster :=
  {| server := JStr "https://dev:6443"; caFile := JUndefined;
     skipTLSVerify := false |}.

Definition sample_loaders : loaders :=
  {| loadFromCluster := inl (Error "ENOENT");
     loadFromDefault := inr (Some dev) |}.

End Client.

(** * Slugs (src/slug.s.js)

    A JavaScript string is modelled by the list of its code units, for the
    units below 256; [s.length] is the length of the list. The SHA-256 of
    the library is a parameter, [digest]: it maps what the hasher was fed to
    the hexadecimal digest. *)

Module Slug.

Definition lit (s : string) : list ascii := list_ascii_of_string s.

Definition code (c : ascii) : N := N_of_ascii c.

Definition between (lo hi : N) (c : ascii) : bool :=
  ((lo <=? code c) && (code c <=? hi))%N.

Definition is_lower (c : ascii) : bool := between 97 122 c.
Definition is_upper (c : ascii) : bool := between 65 90 c.
Definition is_digit (c : ascii) : bool := between 48 57 c.
Definition is_dash (c : ascii) : bool := Ascii.eqb c "-".

(** [c.toLowerCase()] for one unit below 256: the ASCII capitals, and the
    capitals of Latin-1 (all of 192-222 but the multiplication sign). *)
Definition lower_unit (c : ascii) : ascii :=
  if is_upper c || (between 192 222 c && negb (code c =? 215)%N)
  then ascii_of_N (code c + 32) else c.

Definition toLowerCase (s : list ascii) : list ascii := map lower_unit s.

Fixpoint starts_with (p s : list ascii) : bool :=
  match p, s with
  | [], _ => true
  | _ :: _, [] => false
  | a :: p', b :: s' => Ascii.eqb a b && starts_with p' s'
  end.

(** [s.includes(needle)] *)
Fixpoint includes (s needle : list ascii) : bool :=
  starts_with needle s ||
  match s with
  | [] => false
  | _ :: s' => includes s' needle
  end.

(** [alphabet.includes(s[i])], where [s[i]] is a string of one unit, or
    [undefined] (which [includes] turns into the string "undefined"). *)
Definition includes_unit (alphabet : list ascii) (u : option ascii) : bool :=
  match u with
  | Some c => includes alphabet [c]
  | None => includes alphabet (lit "undefined")
  end.

(** [s.slice(0, e)] for an integer [e]: a negative [e] counts from the end. *)
Definition slice0 (s : list ascii) (e : Z) : list ascii :=
  if e <? 0 then take (Z.to_nat (Z.of_nat (length s) + e)) s
  else take (Z.to_nat e) s.

(** [l.join(sep)] *)
Fixpoint join_units (sep : list ascii) (l : list (list ascii)) : list ascii :=
  match l with
  | [] => []
  | x :: l' =>
      match l' with
      | [] => x
      | _ :: _ => x ++ sep ++ join_units sep l'
      end
  end.

Definition _hashLength : Z := 8.

(** [/^[a-z0-9\-]+$/] *)
Definition object_unit (c : ascii) : bool :=
  is_lower c || is_digit c || is_dash c.

Definition _objectPattern (s : list ascii) : bool :=
  negb (bool_decide (s = [])) && forallb object_unit s.

(** [/^[a-z0-9.\-_]+$/i]: with the [i] flag the capitals A-Z match as well,
    and no unit from 128 on does. *)
Definition label_unit (c : ascii) : bool :=
  is_lower c || is_upper c || is_digit c ||
  Ascii.eqb c "." || is_dash c || Ascii.eqb c "_".

Definition _labelPattern (s : list ascii) : bool :=
  negb (bool_decide (s = [])) && forallb label_unit s.

(** [/[^a-z0-9]+/g] matches the runs of units for which this is false. *)
Definition alphanum_lower (c : ascii) : bool := is_lower c || is_digit c.

Definition _alphaLower : list ascii := lit "abcdefghijklmnopqrstuvwxyz".
Definition _alphanumLower : list ascii := _alphaLower ++ lit "0123456789".
Definition _alphanum : list ascii :=
  lit "ABCDEFGHIJKLMNOPQRSTUVWXYZabcdefghijklmnopqrstuvwxyz0123456789".

(** The options of [isValidGeneral]; [None] is [null]. *)
Record checks : Type := {
  startsWith : option (list ascii);
  endsWith : option (list ascii);
  pattern : option (list ascii -> bool);
  minLength : option Z;
  maxLength : option Z
}.

(** [if (alphabet && ...)]: an empty string is as good as [null]. *)
Definition given (alphabet : option (list ascii)) : option (list ascii) :=
  match alphabet with
  | Some ((_ :: _) as a) => Some a
  | _ => None
  end.

Definition isValidGeneral (s : list ascii) (o : checks) : bool :=
  if match minLength o with
     | Some m => Z.of_nat (length s) <? m
     | None => false
     end then false
  else if match maxLength o with
          | Some m => m <? Z.of_nat (length s)
          | None => false
          end then false
  else if match given (startsWith o) with
          | Some a => negb (includes_unit a (head s))
          | None => false
          end then false
  else if match given (endsWith o) with
          | Some a => negb (includes_unit a (last s))
          | None => false
          end then false
  else if match pattern o with
          | Some test => negb (test s)
          | None => false
          end then false
  else true.

Definition isValidObjectName (s : list ascii) : bool :=
  isValidGeneral s
    {| startsWith := Some _alphaLower; endsWith := Some _alphanumLower;
       pattern := Some _objectPattern; minLength := Some 1;
       maxLength := Some 63 |}.

Definition isValidLabel (s : list ascii) : bool :=
  if bool_decide (s = []) then true
  else
    isValidGeneral s
      {| startsWith := Some _alphanum; endsWith := Some _alphanum;
         pattern := Some _labelPattern; minLength := None;
         maxLength := Some 63 |}.

Definition isValidDefault (s : list ascii) : bool := isValidObjectName s.

(** [s.replace(/[^a-z0-9]+/g, '-')]: [in_run] tells that the dash of the
    current run has been written. *)
Fixpoint replace_runs (in_run : bool) (s : list ascii) : list ascii :=
  match s with
  | [] => []
  | c :: s' =>
      if alphanum_lower c then c :: replace_runs false s'
      else if in_run then replace_runs true s'
      else "-"%char :: replace_runs true s'
  end.

(** [s.replace(/^-+/, '')] *)
Fixpoint strip_leading (s : list ascii) : list ascii :=
  match s with
  | [] => []
  | c :: s' => if is_dash c then strip_leading s' else s
  end.

(** [s.replace(/-+$/, '')] *)
Fixpoint strip_trailing (s : list ascii) : list ascii :=
  match s with
  | [] => []
  | c :: s' =>
      match strip_trailing s' with
      | [] => if is_dash c then [] else [c]
      | t => c :: t
      end
  end.

(** [_extractSafeName(name, maxLength)] (lines 56-69) *)
Definition _extractSafeName (name : list ascii) (maxLength : Z) : list ascii :=
  let safeName := replace_runs false (toLowerCase name) in
  let safeName := strip_trailing (slice0 (strip_leading safeName) maxLength) in
  let safeName :=
    match safeName with
    | c :: _ =>
        if negb (includes_unit _alphaLower (Some c))
        then lit "x-" ++ slice0 safeName (maxLength - 2)
        else safeName
    | [] => safeName
    end in
  match safeName with
  | [] => lit "x"
  | _ :: _ => safeName
  end.

(** What a hasher is fed: a string, encoded in UTF-8, or raw bytes. *)
Inductive hashInput : Type :=
| Utf8 (s : list ascii)
| Raw (bytes : list N).

(** [stripAndHash(name, maxLength = 32)] (lines 71-80) *)
Definition stripAndHash (digest : list hashInput -> list ascii)
    (name : list ascii) (maxLength : Z) : outcome (list ascii) :=
  let nameLength := maxLength - (_hashLength + 3) in
  if nameLength <? 1 then
    Throw (Error ("Cannot make safe names shorter than " +:+
                  template_num (_hashLength + 4)))
  else
    let hash := slice0 (digest [Utf8 name]) _hashLength in
    let safeName := _extractSafeName name nameLength in
    Return (safeName ++ lit "---" ++ hash).

(** [maxLength || 32] *)
Definition or_32 (maxLength : option Z) : Z :=
  match maxLength with
  | Some m => if m =? 0 then 32 else m
  | None => 32
  end.

(** [safeSlug(name, isValid = isValidDefault, maxLength = null)]
    (lines 82-91) *)
Definition safeSlug (digest : list hashInput -> list ascii)
    (name : list ascii) (isValid : list ascii -> bool) (maxLength : option Z)
    : outcome (list ascii) :=
  if includes name (lit "--") then stripAndHash digest name (or_32 maxLength)
  else if isValid name &&
          match maxLength with
          | None => true
          | Some m => Z.of_nat (length name) <=? m
          end
  then Return name
  else stripAndHash digest name (or_32 maxLength).

(** [multiSlug(names, maxLength = 48)] (lines 93-112), for a non-empty array
    [first :: others]; on an empty one [hasher.update(names[0])] is handed
    [undefined]. *)
Definition multiSlug (digest : list hashInput -> list ascii)
    (first : list ascii) (others : list (list ascii)) (maxLength : Z)
    : outcome (list ascii) :=
  let names := first :: others in
  let hash :=
    slice0 (digest (Utf8 first ::
                    flat_map (fun n => [Raw [255%N]; Utf8 n]) others))
      _hashLength in
  let availableChars := maxLength - (_hashLength + 3) in
  let perName := availableChars / Z.of_nat (length names) in
  let nameMaxLength := perName - 2 in
  if nameMaxLength <? 2 then
    Throw (Error ("Not enough characters for " +:+
                  template_num (Z.of_nat (length names)) +:+ " names: " +:+
                  template_num maxLength))
  else
    let nameSlugs := map (fun name => _extractSafeName name nameMaxLength) names in
    Return (join_units (lit "--") nameSlugs ++ lit "---" ++ hash).

(** What is known of the digest: 64 hexadecimal digits, in lower case. *)
Definition is_hex (c : ascii) : bool := is_digit c || between 97 102 c.

Definition hex_digest (digest : list hashInput -> list ascii) : Prop :=
  ∀ fed, length (digest fed) = 64%nat ∧ forallb is_hex (digest fed) = true.

(** A stand-in with these properties, to run the functions on. *)
Definition zero_digest (fed : list hashInput) : list ascii :=
  repeat "0"%char 64.

End Slug.

(** * Utilities (src/Util.js)

    Strings are lists of units, as in [Slug]. *)

Module Util.

Definition is_dot (c : ascii) : bool := Ascii.eqb c ".".

(** [s.split('.')] *)
Fixpoint split_dot (s : list ascii) : list (list ascii) :=
  match s with
  | [] => [[]]
  | c :: s' =>
      if is_dot c then [] :: split_dot s'
      else
        match split_dot s' with
        | part :: parts => (c :: part) :: parts
        | [] => [[c]]
        end
  end.

(** [parts.slice(1).join('.')] *)
Definition after_first (parts : list (list ascii)) : list ascii :=
  Slug.join_units (Slug.lit ".") (drop 1 parts).

(** [hostMatching(host, wildcard)] (lines 77-84) *)
Definition hostMatching (host wildcard : list ascii) : bool :=
  if negb (Slug.starts_with (Slug.lit "*.") wildcard)
  then bool_decide (host = wildcard)
  else
    let hostParts := split_dot host in
    let wildcardParts := split_dot wildcard in
    bool_decide (after_first hostParts = after_first wildcardParts).

End Util.

(** * The ingress proxy (src/unnamed/part_000) *)

Module KubeIngressProxy.

(** [/[^a-z0-9]/gi] matches the units for which this is false: with the [i]
    flag the capitals are letters too, and no unit from 128 on is. *)
Definition alphanum_i (c : ascii) : bool :=
  Slug.is_lower c || Slug.is_upper c || Slug.is_digit c.

(** [s.replace(/[^a-z0-9]/gi, '-')]: every such unit becomes a dash of its
    own. *)
Definition replace_each (s : list ascii) : list ascii :=
  map (fun c => if alphanum_i c then c else "-"%char) s.

(** [_safeNameForRoutespec(routespec)] (lines 40-43); [substr(0, 8)] is the
    first 8 units. *)
Definition _safeNameForRoutespec (digest : list Slug.hashInput -> list ascii)
    (routespec : list ascii) : list ascii :=
  let hash := take 8 (digest [Slug.Utf8 routespec]) in
  Slug.lit "jupyter-" ++ Slug.toLowerCase (replace_each routespec) ++
  Slug.lit "-" ++ hash.

End KubeIngressProxy.

(** * The object builders (src/unnamed/part_002) *)

Module Objects.

(** An entry of a container's [env]; [None] is [undefined]. *)
Record envVar : Type := {
  name : option (list ascii);
  value : option (list ascii)
}.

Definition is_close (c : ascii) : bool := Ascii.eqb c ")".

(** [[^)]+], greedy, from the start of [s]: the units it takes and what
    follows them. *)
Fixpoint run (s : list ascii) : list ascii * list ascii :=
  match s with
  | [] => ([], [])
  | c :: s' =>
      if is_close c then ([], s)
      else let '(taken, rest) := run s' in (c :: taken, rest)
  end.

(** [/\$\(([^)]+)\)/] at the start of [s]: the group and what follows the
    match. The group cannot give units back: the unit after it has to be a
    closing parenthesis, which it does not hold. *)
Definition match_at (s : list ascii) : option (list ascii * list ascii) :=
  match s with
  | a :: b :: s' =>
      if Ascii.eqb a "$" && Ascii.eqb b "(" then
        match run s' with
        | (c :: taken, d :: rest) =>
            if is_close d then Some (c :: taken, rest) else None
        | _ => None
        end
      else None
  | _ => None
  end.

(** [[...s.matchAll(pattern)].map(m => m[1])]: the groups of the matches,
    from left to right, each search starting where the last match ended.
    Every step takes a unit at least, so [length s] steps reach the end. *)
Fixpoint matchAll_from (steps : nat) (s : list ascii) : list (list ascii) :=
  match steps with
  | O => []
  | S n =>
      match match_at s with
      | Some (group, rest) => group :: matchAll_from n rest
      | None =>
          match s with
          | [] => []
          | _ :: s' => matchAll_from n s'
          end
      end
  end.

Definition matchAll (s : list ascii) : list (list ascii) :=
  matchAll_from (length s) s.

(** [new Set(l)]: the elements in the order of their first insertion. *)
Definition Set_of (l : list (list ascii)) : list (list ascii) :=
  foldl (fun seen x => if bool_decide (x ∈ seen) then seen else seen ++ [x])
    [] l.

(** [_getEnvVarDeps(envVar)] (lines 141-146) *)
Definition _getEnvVarDeps (v : envVar) : list (list ascii) :=
  match value v with
  | None | Some [] => []
  | Some s =>
      let matches := matchAll s in
      Set_of (filter (fun dep => Some dep ≠ name v) matches)
  end.

End Objects.

(** Strings without a given unit, for the statements about [hostMatching]
    and [_getEnvVarDeps]. *)
Definition dot_free (s : list ascii) : Prop :=
  forallb (λ c, negb (Util.is_dot c)) s = true.

Definition close_free (s : list ascii) : Prop :=
  forallb (λ c, negb (Objects.is_close c)) s = true.

Definition dollar_free (s : list ascii) : Prop :=
  forallb (λ c, negb (Ascii.eqb c "$")) s = true.

(** * Properties *)

(** ** Running the monad *)

Section Run.
Context {S A B : Type}.

Lemma run_bind (m : M S A) (k : A -> M S B) (s : S) :
  (m ≫= k) s =
  match m s with
  | (Return a, s1, t1) =>
      match k a s1 with (o, s2, t2) => (o, s2, t1 ++ t2) end
  | (Throw e, s1, t1) => (Throw e, s1, t1)
  end.
Proof. reflexivity. Qed.

Lemma run_bind_return (m : M S A) (k : A -> M S B) (s s1 : S) a t1 :
  m s = (Return a, s1, t1) ->
  (m ≫= k) s = ((k a s1).1.1, (k a s1).1.2, t1 ++ (k a s1).2).
Proof.
  intros Hm. rewrite run_bind, Hm. by destruct (k a s1) as [[o s2] t2].
Qed.

Lemma run_bind_throw (m : M S A) (k : A -> M S B) (s s1 : S) e t1 :
  m s = (Throw e, s1, t1) -> (m ≫= k) s = (Throw e, s1, t1).
Proof. intros Hm. by rewrite run_bind, Hm. Qed.
End Run.

(** ** The record updates *)

Lemma with_resources_twice m m' r :
  with_resources m (with_resources m' r) = with_resources m r.
Proof. reflexivity. Qed.

Lemma resources_with_resources m r : resources (with_resources m r) = m.
Proof. reflexivity. Qed.

(** ** Reading a trace made of parts *)

Lemma store_events_app t1 t2 :
  store_events (t1 ++ t2) = store_events t1 ++ store_events t2.
Proof. apply List.filter_app. Qed.

Lemma onFailure_calls_app t1 t2 :
  onFailure_calls (t1 ++ t2) = onFailure_calls t1 ++ onFailure_calls t2.
Proof.
  induction t1 as [|e t1 IH]; [done|].
  destruct e; simpl; by rewrite ?IH.
Qed.

Lemma sleeps_app t1 t2 : sleeps (t1 ++ t2) = sleeps t1 ++ sleeps t2.
Proof.
  induction t1 as [|e t1 IH]; [done|].
  destruct e; simpl; by rewrite ?IH.
Qed.

Lemma warnings_app t1 t2 : warnings (t1 ++ t2) = warnings t1 ++ warnings t2.
Proof.
  induction t1 as [|e t1 IH]; [done|].
  destruct e; simpl; by rewrite ?IH.
Qed.

Lemma list_calls_app t1 t2 :
  list_calls (t1 ++ t2) = list_calls t1 ++ list_calls t2.
Proof.
  induction t1 as [|e t1 IH]; [done|].
  destruct e; simpl; by rewrite ?IH.
Qed.

Lemma replay_app t1 t2 m : replay (t1 ++ t2) m = replay t2 (replay t1 m).
Proof. apply fold_left_app. Qed.

Lemma replay_store_events t m : replay (store_events t) m = replay t m.
Proof.
  revert m. induction t as [|e t IH]; intros m; [done|].
  destruct e; simpl; apply IH.
Qed.

Lemma store_events_map {X} (f : X -> event) (l : list X) :
  (∀ x, is_store_event (f x) = true) ->
  store_events (map f l) = map f l.
Proof.
  intros Hf. induction l as [|x l IH]; [done|].
  unfold store_events in *. simpl. by rewrite Hf, IH.
Qed.

Lemma is_store_event_mutation_of ev : is_store_event (mutation_of ev) = true.
Proof. unfold mutation_of. by destruct (String.eqb ev.1 "DELETED"). Qed.

(** ** Running the methods *)

Lemma owner_run a r : owner a r = (Return tt, owner_state a r, owner_trace a r).
Proof.
  unfold owner_trace.
  destruct a as [|[err|]]; [done| |];
    by destruct r as [? ? ? ? ? ? ? ? ? ? ? []].
Qed.

Lemma owner_trace_quiet a r :
  store_events (owner_trace a r) = [] ∧ onFailure_calls (owner_trace a r) = [] ∧
  sleeps (owner_trace a r) = [] ∧ list_calls (owner_trace a r) = [] /\ warnings (owner_trace a (with_watchTask false r)) = [].
Proof.
  destruct a as [|[err|]]; [done| |];
    by destruct r as [? ? ? ? ? ? ? ? ? ? ? []].
Qed.

Lemma owner_state_resources a r : resources (owner_state a r) = resources r.
Proof. by destruct a. Qed.

Lemma owner_state_firstLoadComplete a r :
  firstLoadComplete (owner_state a r) = firstLoadComplete r.
Proof. by destruct a. Qed.

Lemma owner_state_onFailure a r : onFailure (owner_state a r) = onFailure r.
Proof. by destruct a. Qed.

Lemma owner_state_kind a r : kind (owner_state a r) = kind r.
Proof. by destruct a. Qed.

Lemma for_of_set_run items r :
  for_of items (λ item, resources_set (key_of item) item) r =
  (Return tt,
   with_resources
     (fold_left (λ m item, <[key_of item := item]> m) items (resources r)) r,
   map set_of_item items).
Proof.
  revert r. induction items as [|item items IH]; intros r.
  - by destruct r.
  - simpl. rewrite run_bind. 
    change (resources_set (key_of item) item r) with
      (Return tt, with_resources (<[key_of item := item]> (resources r)) r,
       [set_of_item item]).
    cbv beta iota. rewrite IH. reflexivity.
Qed.

(** One step of a method body: a [bind] run, a call of the owner or the
    loop over the items replaced by what it returns, the primitives
    unfolded. *)
Ltac run_step :=
  first [ rewrite run_bind | rewrite owner_run | rewrite for_of_set_run
        | progress cbv beta iota delta
            [get emit modify ret throw mret M_ret when] ].
Ltac run := repeat run_step.

Ltac run_done :=
  cbn [fst snd app]; rewrite ?app_nil_r, <- ?app_assoc; cbn [app];
  try reflexivity.

Lemma listAndUpdate_resolved rv a items lrv r :
  listAndUpdate rv a (ListResolved items lrv) r =
  (Return lrv,
   with_firstLoadComplete true (with_resources (listed items) (owner_state a r)),
   EListCall (list_opts r rv) :: owner_trace a r ++
   EResourcesClear :: map set_of_item items).
Proof.
  unfold listAndUpdate, try_catch, listFn, resources_clear. run. run_done.
Qed.

Lemma listAndUpdate_rejected rv a err r :
  listAndUpdate rv a (ListRejected err) r =
  (Throw err, owner_state a r,
   EListCall (list_opts r rv) :: owner_trace a r ++
   ELoggerError ("Error listing " +:+ kind r +:+ ":") (Some err) ::
   escalation r err).
Proof.
  unfold listAndUpdate, try_catch, listFn, escalation. run.
  rewrite owner_state_firstLoadComplete, owner_state_onFailure, owner_state_kind.
  destruct (negb (firstLoadComplete r) && onFailure r); run; run_done.
Qed.

Lemma on_event_run type obj l :
  on_event type obj l =
  (Return tt,
   {| this := with_resources
                (replay_event (resources (this l)) (mutation_of (type, obj)))
                (this l);
      resourceVersion := ObjectMeta.resourceVersion (metadata obj);
      delay := delay l |},
   [mutation_of (type, obj)]).
Proof.
  unfold on_event, mutation_of. simpl.
  by destruct (String.eqb type "DELETED").
Qed.

Lemma deliver_run evs l :
  for_of evs (λ ev, on_event ev.1 ev.2) l =
  (Return tt,
   {| this := with_resources
                (replay (map mutation_of evs) (resources (this l))) (this l);
      resourceVersion := cursor_after evs (resourceVersion l);
      delay := delay l |},
   map mutation_of evs).
Proof.
  revert l. induction evs as [|[type obj] evs IH]; intros l.
  - by destruct l as [[] ? ?].
  - cbn [for_of]. rewrite run_bind. cbn [fst snd]. rewrite on_event_run.
    cbv beta iota. rewrite IH. reflexivity.
Qed.

Lemma watch_run path opts s a l :
  watch path opts on_event s a l =
  (match closed_with s with None => Return tt | Some err => Throw err end,
   {| this := after_watch s a (this l);
      resourceVersion := cursor_after (delivered s) (resourceVersion l);
      delay := delay l |},
   EWatchCall path opts :: map mutation_of (delivered s) ++
   owner_trace a
     (with_resources (replay (map mutation_of (delivered s)) (resources (this l)))
        (this l))).
Proof.
  unfold watch, liftThis. run. rewrite deliver_run. run. cbn [this resourceVersion delay].
  run.
  destruct (closed_with s); run; run_done.
Qed.

Lemma try_body_resolved c l items lrv :
  list_response c = ListResolved items lrv ->
  let r1 := after_list items (during_list c) (this l) in
  let r2 := after_watch (session c) (during_watch c) r1 in
  try_body c l =
  (match closed_with (session c) with
   | None => Return (if _stopping r2 then BreakStopping else Continue)
   | Some err => Throw err
   end,
   {| this := r2;
      resourceVersion := cursor_after (delivered (session c)) lrv;
      delay := match closed_with (session c) with
               | None => 100
               | Some _ => delay l
               end |},
   list_trace (resourceVersion l) (during_list c) items (this l) ++
   watch_trace lrv (session c) (during_watch c) (this l) r1).
Proof.
  intros Hc. cbv zeta.
  unfold try_body, liftThis, set_resourceVersion, set_delay, after_list.
  run. rewrite Hc, listAndUpdate_resolved. run. rewrite watch_run.
  cbn [this resourceVersion delay].
  destruct (closed_with (session c)); run; cbn [this resourceVersion delay].
  - unfold list_trace, watch_trace. run_done.
  - destruct (_stopping (after_watch _ _ _)); run;
      unfold list_trace, watch_trace; run_done.
Qed.

Lemma try_body_rejected c l err :
  list_response c = ListRejected err ->
  try_body c l =
  (Throw err,
   {| this := owner_state (during_list c) (this l);
      resourceVersion := resourceVersion l;
      delay := delay l |},
   EListCall (list_opts (this l) (resourceVersion l)) ::
   owner_trace (during_list c) (this l) ++
   ELoggerError ("Error listing " +:+ kind (this l) +:+ ":") (Some err) ::
   escalation (this l) err).
Proof.
  intros Hc. unfold try_body, liftThis. run.
  rewrite Hc, listAndUpdate_rejected. run. run_done.
Qed.

Lemma catch_body_gives_up c err l :
  30000 < delay l * 2 ->
  catch_body c err l =
  (Return BreakFailed,
   {| this := this l; resourceVersion := resourceVersion l;
      delay := delay l * 2 |},
   ELoggerWarn (warning (this l) (delay l)) (Some err) ::
   ELoggerError (kind (this l) +:+ " watch failed permanently") None ::
   (if onFailure (this l) then [EOnFailure err] else [])).
Proof.
  intros Hd. unfold catch_body, set_delay, warning. run.
  cbn [this resourceVersion delay].
  assert ((delay l * 2 >? 30000) = true) as -> by lia.
  destruct (onFailure (this l)); run; run_done.
Qed.

Lemma catch_body_retries c err l :
  delay l * 2 <= 30000 ->
  catch_body c err l =
  (Return Continue,
   {| this := owner_state (during_sleep c) (this l);
      resourceVersion := resourceVersion l;
      delay := delay l * 2 |},
   ELoggerWarn (warning (this l) (delay l)) (Some err) ::
   ESleep (delay l * 2) :: owner_trace (during_sleep c) (this l)).
Proof.
  intros Hd. unfold catch_body, set_delay, liftThis, warning. run.
  cbn [this resourceVersion delay].
  assert ((delay l * 2 >? 30000) = false) as -> by lia.
  run. run_done.
Qed.

(** ** The map a listing leaves *)

Lemma listed_fold items : listed items = fold_left enter items ∅.
Proof. reflexivity. Qed.

Lemma enter_all_other items (m : gmap string k8sObject) k :
  k ∉ key_of <$> items -> fold_left enter items m !! k = m !! k.
Proof.
  revert m. induction items as [|x items IH]; intros m Hk; [done|].
  apply not_elem_of_cons in Hk as [Hx Hk]. simpl.
  rewrite IH by done. unfold enter. by rewrite lookup_insert_ne.
Qed.

Lemma enter_all_Some items (m : gmap string k8sObject) k v :
  fold_left enter items m !! k = Some v ->
  (v ∈ items ∧ key_of v = k) ∨ m !! k = Some v.
Proof.
  revert m. induction items as [|x items IH]; intros m Hk; [by right|].
  simpl in Hk. apply IH in Hk as [[Hv Hkv]|Hk].
  - left. split; [by right|done].
  - unfold enter in Hk. apply lookup_insert_Some in Hk as [[<- <-]|[_ Hk]].
    + left. split; [by left|done].
    + by right.
Qed.

Lemma enter_all_present items (m : gmap string k8sObject) item :
  item ∈ items -> is_Some (fold_left enter items m !! key_of item).
Proof.
  revert m item. induction items as [|x items IH]; intros m item Hin.
  - by apply elem_of_nil in Hin.
  - simpl. destruct (decide (key_of item ∈ key_of <$> items)) as [Hk|Hk].
    + apply list_elem_of_fmap in Hk as (y & Hy & Hyin).
      rewrite Hy. by apply IH.
    + rewrite enter_all_other by done.
      apply elem_of_cons in Hin as [->|Hin].
      * unfold enter. rewrite lookup_insert_eq. by eexists.
      * exfalso. apply Hk. apply list_elem_of_fmap. by exists item.
Qed.

Lemma enter_all_NoDup items (m : gmap string k8sObject) item :
  NoDup (key_of <$> items) -> item ∈ items ->
  fold_left enter items m !! key_of item = Some item.
Proof.
  revert m. induction items as [|x items IH]; intros m Hnd Hin.
  - by apply elem_of_nil in Hin.
  - simpl in *. apply NoDup_cons in Hnd as [Hx Hnd].
    apply elem_of_cons in Hin as [->|Hin].
    + rewrite enter_all_other by done. unfold enter. by rewrite lookup_insert_eq.
    + by apply IH.
Qed.

Lemma listed_lookup_Some items k v :
  listed items !! k = Some v -> v ∈ items ∧ key_of v = k.
Proof.
  rewrite listed_fold. intros H. by apply enter_all_Some in H as [H|H].
Qed.

Lemma resources_after_list items a r :
  resources (after_list items a r) = listed items.
Proof. reflexivity. Qed.

Lemma resources_after_list_eq items r :
  resources (with_firstLoadComplete true (with_resources (listed items) r)) =
  listed items.
Proof. reflexivity. Qed.

Lemma replay_set_of_item items m :
  replay (map set_of_item items) m = fold_left enter items m.
Proof.
  revert m. induction items as [|item items IH]; intros m; [done|]. apply IH.
Qed.

(** ** One iteration of the loop *)

Lemma iteration_failed c l err l1 t1 :
  try_body c l = (Throw err, l1, t1) ->
  iteration c l =
  ((catch_body c err l1).1.1, (catch_body c err l1).1.2,
   t1 ++ (catch_body c err l1).2).
Proof.
  intros Htry. unfold iteration, try_catch. rewrite Htry.
  by destruct (catch_body c err l1) as [[o l2] t2].
Qed.

Lemma iteration_passed c l s l1 t1 :
  try_body c l = (Return s, l1, t1) -> iteration c l = (Return s, l1, t1).
Proof. intros Htry. unfold iteration, try_catch. by rewrite Htry. Qed.

Lemma iteration_watch_closed c l items lrv :
  list_response c = ListResolved items lrv ->
  closed_with (session c) = None ->
  let r1 := after_list items (during_list c) (this l) in
  let r2 := after_watch (session c) (during_watch c) r1 in
  iteration c l =
  (Return (if _stopping r2 then BreakStopping else Continue),
   {| this := r2;
      resourceVersion := cursor_after (delivered (session c)) lrv;
      delay := 100 |},
   list_trace (resourceVersion l) (during_list c) items (this l) ++
   watch_trace lrv (session c) (during_watch c) (this l) r1).
Proof.
  intros Hc Hs. cbv zeta. unfold iteration, try_catch.
  rewrite (try_body_resolved c l items lrv Hc). by rewrite Hs.
Qed.

Lemma try_body_watch_failed c l items lrv err :
  list_response c = ListResolved items lrv ->
  closed_with (session c) = Some err ->
  let r1 := after_list items (during_list c) (this l) in
  try_body c l =
  (Throw err,
   {| this := after_watch (session c) (during_watch c) r1;
      resourceVersion := cursor_after (delivered (session c)) lrv;
      delay := delay l |},
   list_trace (resourceVersion l) (during_list c) items (this l) ++
   watch_trace lrv (session c) (during_watch c) (this l) r1).
Proof.
  intros Hc Hs. cbv zeta.
  rewrite (try_body_resolved c l items lrv Hc). by rewrite Hs.
Qed.

Lemma catch_body_cases c err l :
  (30000 < delay l * 2 ∧
   catch_body c err l =
   (Return BreakFailed,
    {| this := this l; resourceVersion := resourceVersion l;
       delay := delay l * 2 |},
    ELoggerWarn (warning (this l) (delay l)) (Some err) ::
    ELoggerError (kind (this l) +:+ " watch failed permanently") None ::
    (if onFailure (this l) then [EOnFailure err] else []))) ∨
  (delay l * 2 <= 30000 ∧
   catch_body c err l =
   (Return Continue,
    {| this := owner_state (during_sleep c) (this l);
       resourceVersion := resourceVersion l;
       delay := delay l * 2 |},
    ELoggerWarn (warning (this l) (delay l)) (Some err) ::
    ESleep (delay l * 2) :: owner_trace (during_sleep c) (this l))).
Proof.
  destruct (Z_lt_le_dec 30000 (delay l * 2)) as [Hd|Hd].
  - left. split; [done|]. by apply catch_body_gives_up.
  - right. split; [done|]. by apply catch_body_retries.
Qed.

Lemma catch_body_keeps c err l :
  resources (this (catch_body c err l).1.2) = resources (this l) ∧
  firstLoadComplete (this (catch_body c err l).1.2) = firstLoadComplete (this l) ∧
  resourceVersion (catch_body c err l).1.2 = resourceVersion l ∧
  store_events (catch_body c err l).2 = [].
Proof.
  destruct (catch_body_cases c err l) as [[_ ->]|[_ ->]]; simpl.
  - by destruct (onFailure (this l)).
  - rewrite owner_state_resources, owner_state_firstLoadComplete.
    by destruct (owner_trace_quiet (during_sleep c) (this l)) as (-> & _).
Qed.

Lemma catch_body_quiet c err l : store_events (catch_body c err l).2 = [].
Proof. by destruct (catch_body_keeps c err l) as (_ & _ & _ & ->). Qed.

Lemma catch_body_resources c err l :
  resources (this (catch_body c err l).1.2) = resources (this l).
Proof. by destruct (catch_body_keeps c err l) as (-> & _). Qed.

Lemma store_events_rejected rv a err r :
  store_events (listAndUpdate rv a (ListRejected err) r).2 = [].
Proof.
  rewrite listAndUpdate_rejected. cbn [snd].
  change (EListCall (list_opts r rv) :: ?t) with ([EListCall (list_opts r rv)] ++ t).
  rewrite !store_events_app.
  destruct (owner_trace_quiet a r) as (-> & _).
  unfold escalation. by destruct (negb (firstLoadComplete r) && onFailure r).
Qed.

Lemma iteration_rejected_keeps c l err :
  list_response c = ListRejected err ->
  resources (this (iteration c l).1.2) = resources (this l) ∧
  firstLoadComplete (this (iteration c l).1.2) = firstLoadComplete (this l) ∧
  resourceVersion (iteration c l).1.2 = resourceVersion l ∧
  store_events (iteration c l).2 = [].
Proof.
  intros Hc. erewrite iteration_failed by (by apply try_body_rejected).
  cbn [fst snd]. rewrite store_events_app.
  match goal with
  | |- context [catch_body c err ?l1] =>
      destruct (catch_body_keeps c err l1) as (-> & -> & -> & ->)
  end.
  cbn [this resourceVersion].
  rewrite owner_state_resources, owner_state_firstLoadComplete, app_nil_r.
  repeat apply conj; try reflexivity.
  pose proof (store_events_rejected (resourceVersion l) (during_list c) err
                (this l)) as Hq.
  by rewrite listAndUpdate_rejected in Hq.
Qed.

Lemma store_events_list_trace rv a items r :
  store_events (list_trace rv a items r) =
  EResourcesClear :: map set_of_item items.
Proof.
  unfold list_trace.
  change (EListCall (list_opts r rv) :: ?t) with ([EListCall (list_opts r rv)] ++ t).
  rewrite !store_events_app.
  destruct (owner_trace_quiet a r) as (-> & _).
  change (EResourcesClear :: ?t) with ([EResourcesClear] ++ t).
  rewrite store_events_app. by rewrite (store_events_map set_of_item).
Qed.

Lemma store_events_watch_trace rv s a r0 r :
  store_events (watch_trace rv s a r0 r) = map mutation_of (delivered s).
Proof.
  unfold watch_trace.
  change (EWatchCall ?p ?o :: ?t) with ([EWatchCall p o] ++ t).
  rewrite !store_events_app.
  rewrite (store_events_map mutation_of) by apply is_store_event_mutation_of.
  match goal with
  | |- context [owner_trace a ?r'] =>
      destruct (owner_trace_quiet a r') as (-> & _)
  end.
  by rewrite app_nil_r.
Qed.

Lemma onFailure_calls_list_trace rv a items r :
  onFailure_calls (list_trace rv a items r) = [].
Proof.
  unfold list_trace. cbn [onFailure_calls]. rewrite onFailure_calls_app.
  destruct (owner_trace_quiet a r) as (_ & -> & _). cbn [app onFailure_calls].
  induction items as [|item items IH]; [done|]. apply IH.
Qed.

Lemma onFailure_calls_watch_trace rv s a r0 r :
  onFailure_calls (watch_trace rv s a r0 r) = [].
Proof.
  unfold watch_trace. cbn [onFailure_calls]. rewrite onFailure_calls_app.
  match goal with
  | |- context [owner_trace a ?r'] =>
      destruct (owner_trace_quiet a r') as (_ & -> & _)
  end.
  rewrite app_nil_r.
  induction (delivered s) as [|[type obj] evs IH]; [done|].
  cbn [map]. unfold mutation_of at 1. cbn [fst snd].
  by destruct (String.eqb type "DELETED").
Qed.

(** A cycle whose listing is rejected, or whose watch stream closes with an
    error, leaves the [try] block by a throw; the throw changes neither
    [delay] nor the configuration, and once the first listing has succeeded
    it does not reach the callback. *)
Lemma try_body_fails c l err :
  cycle_error c = Some err ->
  ∃ l1 t1,
    try_body c l = (Throw err, l1, t1) ∧
    delay l1 = delay l ∧
    onFailure (this l1) = onFailure (this l) ∧
    kind (this l1) = kind (this l) ∧
    (firstLoadComplete (this l) = true -> onFailure_calls t1 = []).
Proof.
  unfold cycle_error. intros Hc.
  destruct (list_response c) as [items lrv|err'] eqn:Hresp.
  - eexists _, _. split; [by apply try_body_watch_failed|].
    cbn [this delay]. unfold after_watch, after_list.
    rewrite !owner_state_onFailure, !owner_state_kind.
    cbn [onFailure kind with_resources with_firstLoadComplete].
    rewrite owner_state_onFailure, owner_state_kind.
    repeat apply conj; try reflexivity. intros _.
    by rewrite onFailure_calls_app, onFailure_calls_list_trace,
      onFailure_calls_watch_trace.
  - injection Hc as ->. eexists _, _. split; [by apply try_body_rejected|].
    cbn [this delay]. rewrite owner_state_onFailure, owner_state_kind.
    repeat apply conj; try reflexivity. intros Hfirst.
    cbn [onFailure_calls]. rewrite onFailure_calls_app.
    destruct (owner_trace_quiet (during_list c) (this l)) as (_ & -> & _).
    unfold escalation. by rewrite Hfirst.
Qed.

Lemma loop_running c script l :
  _stopping (this l) = false ->
  loop (c :: script) l =
  match iteration c l with
  | (Return Continue, l1, t1) =>
      match loop script l1 with
      | (x, l2, t2) => (x, l2, t1 ++ t2)
      end
  | (Return s, l1, t1) => (Broke s, l1, t1)
  | (Throw err, l1, t1) => (Rejected err, l1, t1)
  end.
Proof. intros Hrun. cbn [loop]. by rewrite Hrun. Qed.

Lemma loop_suspended l : _stopping (this l) = false -> loop [] l = (Pending, l, []).
Proof. intros Hrun. cbn [loop]. by rewrite Hrun. Qed.

(** ** What the loop never undoes *)

Lemma owner_state_synced a r : synced r -> synced (owner_state a r).
Proof. by destruct a. Qed.

Lemma iteration_synced c l :
  synced (this l) -> synced (this (iteration c l).1.2).
Proof.
  intros Hl. destruct (list_response c) as [items lrv|err] eqn:Hc.
  - assert (synced (after_watch (session c) (during_watch c)
                      (after_list items (during_list c) (this l)))) as Hw.
    { apply owner_state_synced. split; [done|].
      cbn [watchTask with_resources with_firstLoadComplete after_list].
      by apply owner_state_synced. }
    destruct (closed_with (session c)) as [err|] eqn:Hs.
    + erewrite iteration_failed by (by apply try_body_watch_failed).
      cbn [fst snd].
      destruct (catch_body_cases c err
        {| this := after_watch (session c) (during_watch c)
                     (after_list items (during_list c) (this l));
           resourceVersion := cursor_after (delivered (session c)) lrv;
           delay := delay l |}) as [[_ ->]|[_ ->]]; cbn [fst snd this];
        [done|by apply owner_state_synced].
    + by erewrite iteration_watch_closed by done.
  - erewrite iteration_failed by (by apply try_body_rejected). cbn [fst snd].
    destruct (catch_body_cases c err
      {| this := owner_state (during_list c) (this l);
         resourceVersion := resourceVersion l; delay := delay l |})
      as [[_ ->]|[_ ->]]; cbn [fst snd this];
      repeat apply owner_state_synced; done.
Qed.

Lemma loop_synced script l :
  synced (this l) -> synced (this (loop script l).1.2).
Proof.
  revert l. induction script as [|c script IH]; intros l Hl;
    cbn [loop]; destruct (_stopping (this l)); try done.
  pose proof (iteration_synced c l Hl) as Hit.
  destruct (iteration c l) as [[[[] | err] l1] t1]; cbn [fst snd] in *; try done.
  specialize (IH l1 Hit). by destruct (loop script l1) as [[x l2] t2].
Qed.

(** A loop launched by [start()] runs on a reflector that has completed its
    first listing and holds its task. *)
Lemma start_and_run_synced a resp script r x l t :
  start_and_run a resp script r = (Return x, l, t) -> synced (this l).
Proof.
  unfold start_and_run, start. run.
  destruct (watchTask r) eqn:Htask; run; [done|].
  destruct resp as [items lrv|err].
  - rewrite listAndUpdate_resolved. run.
    pose proof (loop_synced script
      {| this := with_watchTask true
                   (with_firstLoadComplete true
                      (with_resources (listed items) (owner_state a r)));
         resourceVersion := JStr "0"; delay := 100 |}) as Hs.
    unfold watchAndUpdate.
    destruct (loop script _) as [[x' l'] t']. intros [= <- <- <-].
    by apply Hs.
  - rewrite listAndUpdate_rejected. by run.
Qed.

(** * The Mirror Store and its keys *)

(** C1, as the specification states it, fails on the code: a reflector built
    with [omitNamespace] does not key an object by its name alone. Listing
    [node1] (no namespace in its metadata) and a pod of namespace [a] named
    [x], and being notified of a pod [a]/[y], leaves no entry under
    ["node1"], ["x"] or ["y"]: the entries are under ["undefined/node1"],
    ["a/x"] and ["a/y"]. *)
Lemma key_omitNamespace_counterexample :
  let r := new_reflector "Node" JNull true false in
  let l := {| this := r; resourceVersion := JStr "0"; delay := 100 |} in
  let listed_r :=
    (listAndUpdate JNull NoAction
       (ListResolved [node1; pod "a" "x" "8"] (JStr "9")) r).1.2 in
  let watched_r := this (on_event "ADDED" (pod "a" "y" "10") l).1.2 in
  omitNamespace r = true ∧
  spec_key true node1 = "node1" ∧
  resources listed_r !! "node1" = None ∧
  resources listed_r !! "undefined/node1" = Some node1 ∧
  spec_key true (pod "a" "x" "8") = "x" ∧
  resources listed_r !! "x" = None ∧
  resources listed_r !! "a/x" = Some (pod "a" "x" "8") ∧
  spec_key true (pod "a" "y" "10") = "y" ∧
  resources watched_r !! "y" = None ∧
  resources watched_r !! "a/y" = Some (pod "a" "y" "10").
Proof. vm_compute. repeat split. Qed.

(** C1, amended. For every object applied to the store, by a listing or by
    a notification, the key is the namespace of its metadata, a slash, and
    its name, whatever the reflector's [omitNamespace]: every entry a
    listing leaves sits under [key_of] of the object it holds, every listed
    item has an entry under its key, and a notification deletes or sets the
    entry under [ns/n]. *)
Theorem key_is_namespace_slash_name
    (r : ResourceReflector) (l : locals) (rv0 lrv : jsval) (a : ownerAction)
    (items : list k8sObject) (type ns n doc : string) (rv : jsval) :
  let obj := {| metadata := ObjectMeta.mk (JStr ns) (JStr n) rv;
                document := doc |} in
  let listed_r := (listAndUpdate rv0 a (ListResolved items lrv) r).1.2 in
  let watched_r := this (on_event type obj l).1.2 in
  key_of obj = ns +:+ "/" +:+ n ∧
  map_Forall (λ k v, k = key_of v ∧ v ∈ items) (resources listed_r) ∧
  Forall (λ item, is_Some (resources listed_r !! key_of item)) items ∧
  resources watched_r =
    (if String.eqb type "DELETED"
     then delete (ns +:+ "/" +:+ n) (resources (this l))
     else <[ns +:+ "/" +:+ n := obj]> (resources (this l))).
Proof.
  cbv zeta. rewrite listAndUpdate_resolved, on_event_run. cbn [fst snd this].
  rewrite !resources_with_resources. repeat apply conj.
  - reflexivity.
  - intros k v Hkv. apply listed_lookup_Some in Hkv as [Hin <-]. by split.
  - apply Forall_forall. intros item Hin. rewrite listed_fold.
    by apply enter_all_present.
  - unfold mutation_of. cbn [fst snd]. by destruct (String.eqb type "DELETED").
Qed.

(** C5. A removal notification leaves no entry under the key and changes no
    other key; when the key is absent it changes nothing at all; applied a
    second time it changes nothing more. Any other notification leaves the
    notified object itself under the key, whatever was there, and changes no
    other key. *)
Theorem removal_idempotent_upsert_replaces
    (l : locals) (obj : k8sObject) (type : string) :
  let key := key_of obj in
  let removed := (on_event "DELETED" obj l).1.2 in
  let removed_twice := (on_event "DELETED" obj removed).1.2 in
  let upserted := (on_event type obj l).1.2 in
  resources (this removed) !! key = None ∧
  (∀ k, k ≠ key -> resources (this removed) !! k = resources (this l) !! k) ∧
  (resources (this l) !! key = None ->
   resources (this removed) = resources (this l)) ∧
  removed_twice = removed ∧
  (type ≠ "DELETED" ->
   resources (this upserted) !! key = Some obj ∧
   ∀ k, k ≠ key -> resources (this upserted) !! k = resources (this l) !! k).
Proof.
  cbv zeta. rewrite !on_event_run. cbn [fst snd this resourceVersion delay].
  rewrite !resources_with_resources.
  change (mutation_of ("DELETED", obj)) with (EResourcesDelete (key_of obj)).
  cbn [replay_event]. repeat apply conj.
  - apply lookup_delete_eq.
  - intros k Hk. by apply lookup_delete_ne.
  - apply delete_id.
  - rewrite with_resources_twice. f_equal. f_equal. apply delete_delete_eq.
  - intros Htype. apply String.eqb_neq in Htype.
    unfold mutation_of. cbn [fst snd]. rewrite Htype. cbn [replay_event].
    split; [apply lookup_insert_eq|].
    intros k Hk. by apply lookup_insert_ne.
Qed.

Lemma removal_idempotent_upsert_replaces_witness :
  let old := pod "a" "x" "1" in
  let new := {| metadata := ObjectMeta.mk (JStr "a") (JStr "x") (JStr "5");
                document := "changed" |} in
  let l := {| this := with_resources {["a/x" := old]}
                        (new_reflector "Pod" (JStr "a") false true);
              resourceVersion := JStr "1"; delay := 100 |} in
  let removed := (on_event "DELETED" new l).1.2 in
  resources (this removed) !! "a/x" = None ∧
  (on_event "DELETED" new removed).1.2 = removed ∧
  (resources (this removed) !! "a/x" = None ->
   resources (this (on_event "DELETED" new removed).1.2) =
   resources (this removed)) ∧
  ("MODIFIED" ≠ "DELETED" ->
   resources (this (on_event "MODIFIED" new l).1.2) !! "a/x" = Some new).
Proof.
  cbv zeta.
  pose proof (removal_idempotent_upsert_replaces
    {| this := with_resources {["a/x" := pod "a" "x" "1"]}
                 (new_reflector "Pod" (JStr "a") false true);
       resourceVersion := JStr "1"; delay := 100 |}
    {| metadata := ObjectMeta.mk (JStr "a") (JStr "x") (JStr "5");
       document := "changed" |} "MODIFIED") as (Hgone & _ & _ & Htwice & Hup).
  pose proof (removal_idempotent_upsert_replaces
    (on_event "DELETED"
       {| metadata := ObjectMeta.mk (JStr "a") (JStr "x") (JStr "5");
          document := "changed" |}
       {| this := with_resources {["a/x" := pod "a" "x" "1"]}
                    (new_reflector "Pod" (JStr "a") false true);
          resourceVersion := JStr "1"; delay := 100 |}).1.2
    {| metadata := ObjectMeta.mk (JStr "a") (JStr "x") (JStr "5");
       document := "changed" |} "MODIFIED") as (_ & _ & Habsent & _ & _).
  repeat apply conj.
  - exact Hgone.
  - exact Htwice.
  - exact Habsent.
  - intros Hne. exact (proj1 (Hup Hne)).
Defined.

(** * Bootstrap: listAndUpdate *)

(** C3. After a listing that resolved, the store holds exactly what the
    listing returned, whatever it held before: every entry is one of the
    listed items, under that item's key; every listed item has an entry
    under its key; and when the items have distinct keys, as the objects of
    one collection have, that entry is the item itself. The call returns the
    collection's version and sets [firstLoadComplete]. *)
Theorem bootstrap_replaces_store rv a items lrv r :
  let res := listAndUpdate rv a (ListResolved items lrv) r in
  res.1.1 = Return lrv ∧
  firstLoadComplete res.1.2 = true ∧
  (∀ k v, resources res.1.2 !! k = Some v -> v ∈ items ∧ key_of v = k) ∧
  (∀ item, item ∈ items -> is_Some (resources res.1.2 !! key_of item)) ∧
  (NoDup (key_of <$> items) ->
   ∀ item, item ∈ items -> resources res.1.2 !! key_of item = Some item).
Proof.
  cbv zeta. rewrite listAndUpdate_resolved. cbn [fst snd].
  rewrite resources_after_list_eq. repeat apply conj; try reflexivity.
  - intros k v. apply listed_lookup_Some.
  - intros item Hin. rewrite listed_fold. by apply enter_all_present.
  - intros Hnd item Hin. rewrite listed_fold. by apply enter_all_NoDup.
Qed.

Lemma bootstrap_replaces_store_witness :
  let items := [pod "a" "x" "1"; pod "a" "y" "2"] in
  let r := with_resources {["old/z" := pod "old" "z" "0"]}
             (new_reflector "Pod" (JStr "a") false true) in
  let res := listAndUpdate (JStr "0") NoAction (ListResolved items (JStr "2")) r in
  NoDup (key_of <$> items) ∧
  res.1.1 = Return (JStr "2") ∧
  resources res.1.2 !! "old/z" = None ∧
  resources res.1.2 !! "a/x" = Some (pod "a" "x" "1") ∧
  resources res.1.2 !! "a/y" = Some (pod "a" "y" "2").
Proof.
  cbv zeta.
  assert (NoDup (key_of <$> [pod "a" "x" "1"; pod "a" "y" "2"])) as Hnd.
  { apply (bool_decide_unpack _). vm_compute. exact I. }
  destruct (bootstrap_replaces_store (JStr "0") NoAction
              [pod "a" "x" "1"; pod "a" "y" "2"] (JStr "2")
              (with_resources {["old/z" := pod "old" "z" "0"]}
                 (new_reflector "Pod" (JStr "a") false true)))
    as (Hret & _ & Honly & _ & Hall).
  repeat apply conj.
  - exact Hnd.
  - exact Hret.
  - destruct (resources _ !! "old/z") as [v|] eqn:Hold; [|reflexivity].
    apply Honly in Hold as [Hin Hkey]. exfalso.
    apply elem_of_cons in Hin as [->|Hin]; [discriminate Hkey|].
    apply elem_of_cons in Hin as [->|Hin]; [discriminate Hkey|].
    by apply elem_of_nil in Hin.
  - apply (Hall Hnd (pod "a" "x" "1")). by left.
  - apply (Hall Hnd (pod "a" "y" "2")). right. by left.
Defined.

(** Every pass begins with its list call, made with the version the loop
    holds. *)
Lemma iteration_lists_first c l :
  ∃ t, (iteration c l).2 =
       EListCall (list_opts (this l) (resourceVersion l)) :: t.
Proof.
  destruct (list_response c) as [items lrv|err] eqn:Hresp.
  - pose proof (try_body_resolved c l items lrv Hresp) as Htry.
    cbv zeta in Htry. destruct (closed_with (session c)) as [err|].
    + erewrite iteration_failed by exact Htry. cbn [snd].
      unfold list_trace. cbn [app]. by eexists.
    + erewrite iteration_passed by exact Htry. cbn [snd].
      unfold list_trace. cbn [app]. by eexists.
  - erewrite iteration_failed by (by apply try_body_rejected). cbn [snd app].
    by eexists.
Qed.

(** C7, as the specification states it, fails on the code where the
    reflector is started. [start()] of a fresh reflector with a callback,
    whose listing is rejected, throws the error to its caller and reports it
    to the callback, but nothing retries: [watchTask] stays unset and no
    loop is launched. The remote side would have answered a second listing
    (the script holds a cycle that resolves) and is never asked: the trace
    holds the one list call that failed, and no timer. *)
Lemma bootstrap_failure_on_start_counterexample :
  let r := new_reflector "Pod" (JStr "a") false true in
  let err := Error "ECONNREFUSED" in
  let script :=
    [quiet_cycle (ListResolved [pod "a" "x" "1"] (JStr "1"))
       {| delivered := []; closed_with := None |}] in
  let res := start_and_run NoAction (ListRejected err) script r in
  firstLoadComplete r = false ∧ onFailure r = true ∧
  res.1.1 = Throw err ∧
  onFailure_calls res.2 = [err] ∧
  list_calls res.2 = [list_opts r JNull] ∧
  sleeps res.2 = [] ∧
  watchTask (this res.1.2) = false ∧
  firstLoadComplete (this res.1.2) = false.
Proof. cbv zeta. repeat split. Qed.

(** C7, amended. With a callback configured, a listing whose list call is
    rejected rethrows the error to its caller, and calls [onFailure] with it
    exactly when [firstLoadComplete] is still false; once it is true the
    callback is not called by [listAndUpdate]. Who retries is the loop, and
    only the loop. In [watchAndUpdate] the error is caught (escalated or
    not, as above), the warning is written, [delay] is doubled and the timer
    set, and, the doubled delay not passing 30000 and nobody calling
    [stop()] meanwhile, the loop goes on with the rest of the script from
    the version it had: the next thing it does is the same list call again.
    In [start()] the error is thrown on to the caller of [start()]:
    [watchTask] stays unset, no loop is launched whatever the remote side
    would answer next, and the one list call that failed is the only one
    made. *)
Theorem bootstrap_failure_escalated_and_retried_by_the_loop
    (err : error) (r : ResourceReflector) :
  onFailure r = true ->
  let escalated := if firstLoadComplete r then [] else [err] in
  (∀ rv a,
     (listAndUpdate rv a (ListRejected err) r).1.1 = Throw err ∧
     onFailure_calls (listAndUpdate rv a (ListRejected err) r).2 = escalated) ∧
  (∀ c script rv d,
     list_response c = ListRejected err ->
     _stopping r = false ->
     during_list c = NoAction -> during_sleep c = NoAction ->
     d * 2 <= 30000 ->
     let l := {| this := r; resourceVersion := rv; delay := d |} in
     let l1 := {| this := r; resourceVersion := rv; delay := d * 2 |} in
     let t1 :=
       EListCall (list_opts r rv) ::
       ELoggerError ("Error listing " +:+ kind r +:+ ":") (Some err) ::
       escalation r err ++
       [ELoggerWarn (warning r d) (Some err); ESleep (d * 2)] in
     onFailure_calls t1 = escalated ∧
     loop (c :: script) l =
       ((loop script l1).1.1, (loop script l1).1.2,
        t1 ++ (loop script l1).2) ∧
     (script ≠ [] ->
      ∃ t2, (loop script l1).2 = EListCall (list_opts r rv) :: t2)) ∧
  (∀ a script,
     watchTask r = false ->
     let res := start_and_run a (ListRejected err) script r in
     res.1.1 = Throw err ∧
     onFailure_calls res.2 = escalated ∧
     list_calls res.2 = [list_opts r JNull] ∧
     sleeps res.2 = [] ∧
     watchTask (this res.1.2) = false ∧
     firstLoadComplete (this res.1.2) = firstLoadComplete r ∧
     resources (this res.1.2) = resources r).
Proof.
  intros Hon. cbv zeta.
  assert (onFailure_calls (escalation r err) =
          if firstLoadComplete r then [] else [err]) as Hesc.
  { unfold escalation. rewrite Hon. by destruct (firstLoadComplete r). }
  repeat apply conj.
  - intros rv a. rewrite listAndUpdate_rejected. cbn [fst snd].
    split; [done|]. cbn [onFailure_calls]. rewrite onFailure_calls_app.
    by destruct (owner_trace_quiet a r) as (_ & -> & _).
  - intros c script rv d Hresp Hrun Hlist Hsleep Hd.
    repeat apply conj.
    + cbn [onFailure_calls]. rewrite onFailure_calls_app. cbn [onFailure_calls].
      by rewrite app_nil_r.
    + rewrite loop_running by done.
      erewrite iteration_failed by (by apply try_body_rejected).
      rewrite Hlist. cbn [owner_state this resourceVersion delay].
      rewrite catch_body_retries by done.
      rewrite Hsleep. cbn [owner_state this resourceVersion delay fst snd].
      change (owner_trace NoAction r) with (@nil event).
      destruct (loop script _) as [[x l2] t2]. cbn [fst snd app].
      by rewrite <-app_assoc.
    + intros Hne. destruct script as [|c' script']; [done|].
      rewrite loop_running by done.
      destruct (iteration_lists_first c'
                  {| this := r; resourceVersion := rv; delay := d * 2 |})
        as [t Ht].
      cbn [this resourceVersion] in Ht.
      destruct (iteration c' _) as [[[[| |]|err'] l2] t2]; cbn [snd] in Ht;
        subst t2.
      * destruct (loop script' l2) as [[x l3] t3]. cbn [snd app]. by eexists.
      * cbn [snd]. by eexists.
      * cbn [snd]. by eexists.
      * cbn [snd]. by eexists.
  - intros a script Htask. unfold start_and_run.
    assert (start a (ListRejected err) r =
            (Throw err, owner_state a r,
             (listAndUpdate JNull a (ListRejected err) r).2)) as ->.
    { unfold start. run. rewrite Htask. run.
      rewrite listAndUpdate_rejected. run. run_done. }
    rewrite listAndUpdate_rejected. cbn [fst snd this].
    cbn [onFailure_calls list_calls sleeps].
    rewrite onFailure_calls_app, list_calls_app, sleeps_app.
    destruct (owner_trace_quiet a r) as (_ & -> & -> & -> & _).
    cbn [onFailure_calls list_calls sleeps app].
    rewrite owner_state_resources, owner_state_firstLoadComplete.
    repeat apply conj; try done.
    + unfold escalation. by destruct (negb (firstLoadComplete r) && onFailure r).
    + unfold escalation. by destruct (negb (firstLoadComplete r) && onFailure r).
    + by destruct a.
Qed.

Lemma bootstrap_failure_escalated_and_retried_by_the_loop_witness :
  let never_synced := new_reflector "Pod" (JStr "a") false true in
  let synced := with_firstLoadComplete true never_synced in
  let err := Error "ECONNREFUSED" in
  let fresh := {| this := never_synced; resourceVersion := JStr "0";
                  delay := 100 |} in
  let answered :=
    quiet_cycle (ListResolved [pod "a" "x" "1"] (JStr "1"))
      {| delivered := []; closed_with := None |} in
  onFailure never_synced = true ∧
  (listAndUpdate JNull NoAction (ListRejected err) never_synced).1.1 = Throw err ∧
  onFailure_calls
    (listAndUpdate JNull NoAction (ListRejected err) never_synced).2 = [err] ∧
  (listAndUpdate (JStr "0") NoAction (ListRejected err) synced).1.1 = Throw err ∧
  onFailure_calls
    (listAndUpdate (JStr "0") NoAction (ListRejected err) synced).2 = [] ∧
  onFailure_calls (loop [failing_cycle err; answered] fresh).2 = [err] ∧
  sleeps (loop [failing_cycle err; answered] fresh).2 = [200] ∧
  list_calls (loop [failing_cycle err; answered] fresh).2 =
    [list_opts never_synced (JStr "0"); list_opts never_synced (JStr "0")] ∧
  resources (this (loop [failing_cycle err; answered] fresh).1.2) =
    {["a/x" := pod "a" "x" "1"]} ∧
  (start_and_run NoAction (ListRejected err) [answered] never_synced).1.1 =
    Throw err ∧
  list_calls (start_and_run NoAction (ListRejected err) [answered] never_synced).2
    = [list_opts never_synced JNull].
Proof.
  cbv zeta.
  destruct (bootstrap_failure_escalated_and_retried_by_the_loop
              (Error "ECONNREFUSED")
              (new_reflector "Pod" (JStr "a") false true) eq_refl)
    as (Hlist & Hloop & Hstart).
  destruct (bootstrap_failure_escalated_and_retried_by_the_loop
              (Error "ECONNREFUSED")
              (with_firstLoadComplete true
                 (new_reflector "Pod" (JStr "a") false true)) eq_refl)
    as (Hlist' & _ & _).
  destruct (Hlist JNull NoAction) as [Hthrow Hcalls].
  destruct (Hlist' (JStr "0") NoAction) as [Hthrow' Hcalls'].
  destruct (Hloop (failing_cycle (Error "ECONNREFUSED"))
              [quiet_cycle (ListResolved [pod "a" "x" "1"] (JStr "1"))
                 {| delivered := []; closed_with := None |}]
              (JStr "0") 100 eq_refl eq_refl eq_refl eq_refl)
    as (_ & Hrun & _); [lia|].
  destruct (Hstart NoAction
              [quiet_cycle (ListResolved [pod "a" "x" "1"] (JStr "1"))
                 {| delivered := []; closed_with := None |}] eq_refl)
    as (Hsthrow & _ & Hscalls & _).
  repeat apply conj;
    [reflexivity | exact Hthrow | exact Hcalls | exact Hthrow' | exact Hcalls'
    | rewrite Hrun; reflexivity | rewrite Hrun; reflexivity
    | rewrite Hrun; reflexivity | rewrite Hrun; reflexivity
    | exact Hsthrow | exact Hscalls].
Defined.

(** C10. A listing that is rejected leaves [resources] and
    [firstLoadComplete] as they were and records no mutation of the store;
    the iteration of the loop it belongs to leaves, besides, the loop's
    [resourceVersion] as it was. In a listing that resolves, [clear] and the
    [set]s come after the list call. *)
Theorem bootstrap_failure_changes_nothing
    (rv : jsval) (err : error) (r : ResourceReflector) (l : locals)
    (a1 a2 a3 : ownerAction) (s : watchSession) :
  let res := listAndUpdate rv a1 (ListRejected err) r in
  let c := {| during_list := a1; list_response := ListRejected err;
              session := s; during_watch := a2; during_sleep := a3 |} in
  let it := iteration c l in
  res.1.1 = Throw err ∧
  resources res.1.2 = resources r ∧
  firstLoadComplete res.1.2 = firstLoadComplete r ∧
  store_events res.2 = [] ∧
  resources (this it.1.2) = resources (this l) ∧
  firstLoadComplete (this it.1.2) = firstLoadComplete (this l) ∧
  resourceVersion it.1.2 = resourceVersion l ∧
  store_events it.2 = [] ∧
  ∀ items lrv,
    (listAndUpdate rv a1 (ListResolved items lrv) r).2 =
    EListCall (list_opts r rv) :: owner_trace a1 r ++
    EResourcesClear :: map set_of_item items.
Proof.
  cbv zeta. split; [by rewrite listAndUpdate_rejected|].
  split; [rewrite listAndUpdate_rejected; apply owner_state_resources|].
  split; [rewrite listAndUpdate_rejected; apply owner_state_firstLoadComplete|].
  split; [apply store_events_rejected|].
  destruct (iteration_rejected_keeps
              {| during_list := a1; list_response := ListRejected err;
                 session := s; during_watch := a2; during_sleep := a3 |}
              l err eq_refl) as (Hres & Hfirst & Hrv & Hquiet).
  repeat apply conj; try done.
  intros items lrv. by rewrite listAndUpdate_resolved.
Qed.

(** * The reconciliation loop: watchAndUpdate, start *)

(** C4. A listing of the single object [a/x] at version 1, followed by the
    notifications ADDED [a/y] at version 2 and DELETED [a/x] at version 3,
    leaves exactly the entry [a/y], at version 2, and the loop's
    [resourceVersion] at ["3"]. *)
Theorem scenario_upsert_then_remove
    (r : ResourceReflector) (doc_x doc_y doc_x' : string) :
  let x1 := {| metadata := ObjectMeta.mk (JStr "a") (JStr "x") (JStr "1");
               document := doc_x |} in
  let y2 := {| metadata := ObjectMeta.mk (JStr "a") (JStr "y") (JStr "2");
               document := doc_y |} in
  let x3 := {| metadata := ObjectMeta.mk (JStr "a") (JStr "x") (JStr "3");
               document := doc_x' |} in
  let c := quiet_cycle (ListResolved [x1] (JStr "1"))
             {| delivered := [("ADDED", y2); ("DELETED", x3)];
                closed_with := None |} in
  let res := watchAndUpdate [c] (with_stopping false r) in
  resources (this res.1.2) = {["a/y" := y2]} ∧
  resourceVersion res.1.2 = JStr "3".
Proof.
  cbv zeta. unfold watchAndUpdate. rewrite loop_running by done.
  erewrite iteration_watch_closed by reflexivity.
  cbn [quiet_cycle session during_watch during_list this after_watch
       owner_state with_resources with_stopping after_list _stopping
       with_firstLoadComplete].
  rewrite loop_suspended by done. cbn [fst snd this resourceVersion resources].
  split; [|reflexivity].
  rewrite resources_with_resources.
  change (delete "a/x"
            (<["a/y" := {| metadata := ObjectMeta.mk (JStr "a") (JStr "y") (JStr "2");
                           document := doc_y |}]>
               (<["a/x" := {| metadata := ObjectMeta.mk (JStr "a") (JStr "x") (JStr "1");
                              document := doc_x |}]> (∅ : gmap string k8sObject))) =
          {["a/y" := {| metadata := ObjectMeta.mk (JStr "a") (JStr "y") (JStr "2");
                        document := doc_y |}]}).
  rewrite delete_insert_ne by done.
  by rewrite delete_insert_eq, delete_empty, insert_empty.
Qed.

(** C9. In an iteration whose listing resolves, the mutations of the store
    are, in this order: the [clear], one [set] per listed item, then one
    mutation per notification in the order of delivery, none left out and
    none merged; the store the iteration leaves is the one these mutations
    produce. *)
Theorem bootstrap_precedes_events_in_order
    (l : locals) (a1 a2 a3 : ownerAction) (items : list k8sObject)
    (lrv : jsval) (s : watchSession) :
  let c := {| during_list := a1; list_response := ListResolved items lrv;
              session := s; during_watch := a2; during_sleep := a3 |} in
  let it := iteration c l in
  store_events it.2 =
    EResourcesClear :: map set_of_item items ++ map mutation_of (delivered s) ∧
  resources (this it.1.2) = replay (store_events it.2) (resources (this l)) ∧
  resources (this it.1.2) = replay (map mutation_of (delivered s)) (listed items).
Proof.
  cbv zeta.
  set (c := {| during_list := a1; list_response := ListResolved items lrv;
               session := s; during_watch := a2; during_sleep := a3 |}).
  assert (store_events (iteration c l).2 =
          EResourcesClear :: map set_of_item items ++
          map mutation_of (delivered s) ∧
          resources (this (iteration c l).1.2) =
          replay (map mutation_of (delivered s)) (listed items)) as [Htrace Hres].
  { destruct (closed_with s) as [err|] eqn:Hs.
    - erewrite iteration_failed by (by apply try_body_watch_failed).
      cbn [fst snd]. rewrite catch_body_resources, !store_events_app.
      rewrite catch_body_quiet, app_nil_r, store_events_list_trace,
        store_events_watch_trace.
      split; [done|]. unfold after_watch. cbn [this session c].
      by rewrite owner_state_resources.
    - erewrite iteration_watch_closed by done.
      cbn [fst snd]. rewrite !store_events_app, store_events_list_trace,
        store_events_watch_trace.
      split; [done|]. unfold after_watch. cbn [this session c].
      by rewrite owner_state_resources. }
  split; [done|]. split; [|done].
  rewrite Hres, Htrace. cbn [replay fold_left replay_event].
  change (fold_left replay_event ?t ?m) with (replay t m).
  rewrite replay_app. f_equal. by rewrite replay_set_of_item.
Qed.

(** C6. In a running loop that has completed a first listing and has a
    callback configured, a failed cycle whose doubled delay passes 30000
    ends the loop through the [break] of line 125: [onFailure] is called
    once, as the last thing the loop does, and whatever the remote side
    would offer next is never asked for. *)
Theorem permanent_failure_is_terminal
    (c : cycle) (rest : list cycle) (l : locals) (err : error) :
  _stopping (this l) = false ->
  firstLoadComplete (this l) = true ->
  onFailure (this l) = true ->
  cycle_error c = Some err ->
  30000 < delay l * 2 ->
  let res := loop (c :: rest) l in
  res.1.1 = Broke BreakFailed ∧
  onFailure_calls res.2 = [err] ∧
  (∃ t, res.2 =
        t ++ [ELoggerWarn (warning (this l) (delay l)) (Some err);
              ELoggerError (kind (this l) +:+ " watch failed permanently") None;
              EOnFailure err]) ∧
  res = loop [c] l.
Proof.
  intros Hrun Hfirst Hon Hc Hd. cbv zeta.
  destruct (try_body_fails c l err Hc) as (l1 & t1 & Htry & Hd1 & Hon1 & Hk1 & Ht1).
  assert (∀ script, loop (c :: script) l =
            (Broke BreakFailed,
             {| this := this l1; resourceVersion := resourceVersion l1;
                delay := delay l1 * 2 |},
             t1 ++ [ELoggerWarn (warning (this l) (delay l)) (Some err);
                    ELoggerError (kind (this l) +:+ " watch failed permanently")
                      None;
                    EOnFailure err])) as Hloop.
  { intros script. rewrite loop_running by done.
    rewrite (iteration_failed c l err l1 t1 Htry).
    rewrite catch_body_gives_up by lia. cbn [fst snd].
    unfold warning. by rewrite Hon1, Hon, Hk1, Hd1. }
  rewrite !Hloop. cbn [fst snd]. repeat apply conj; try done.
  - rewrite onFailure_calls_app, Ht1 by done. reflexivity.
  - by eexists.
Qed.

Lemma permanent_failure_is_terminal_witness :
  let r := with_firstLoadComplete true
             (new_reflector "Pod" (JStr "a") false true) in
  let l := {| this := r; resourceVersion := JStr "41"; delay := 25600 |} in
  let err := Error "ETIMEDOUT" in
  let res := loop [failing_cycle err; failing_cycle err] l in
  res.1.1 = Broke BreakFailed ∧
  onFailure_calls res.2 = [err] ∧
  list_calls res.2 = [list_opts r (JStr "41")] ∧
  res = loop [failing_cycle err] l.
Proof.
  cbv zeta.
  destruct (permanent_failure_is_terminal (failing_cycle (Error "ETIMEDOUT"))
              [failing_cycle (Error "ETIMEDOUT")]
              {| this := with_firstLoadComplete true
                           (new_reflector "Pod" (JStr "a") false true);
                 resourceVersion := JStr "41"; delay := 25600 |}
              (Error "ETIMEDOUT") eq_refl eq_refl eq_refl eq_refl eq_refl)
    as (Hexit & Hcalls & _ & Hrest).
  repeat apply conj; [exact Hexit | exact Hcalls | reflexivity | exact Hrest].
Defined.

(** C2, evaluated on the code. When every list call is rejected, a fresh
    loop sets its timers to 200, 400, ..., 25600, while the warnings it
    writes announce 100, 200, ..., 25600: the first timer is never 100. The
    loop gives up at the ninth failure in a row, when the doubled delay
    (51200) passes 30000, and no timer was set above 30000. *)
Theorem backoff_first_sleep_is_200 (errs : list error) (r : ResourceReflector) :
  let r0 := with_stopping false r in
  let res := watchAndUpdate (failing_cycle <$> errs) r0 in
  sleeps res.2 =
    take (length errs) [200; 400; 800; 1600; 3200; 6400; 12800; 25600] ∧
  warnings res.2 =
    warning r0 <$>
      take (length errs) [100; 200; 400; 800; 1600; 3200; 6400; 12800; 25600] ∧
  res.1.1 = (if (9 <=? length errs)%nat then Broke BreakFailed else Pending) ∧
  Forall (λ ms, ms <= 30000) (sleeps res.2).
Proof.
  cbv zeta.
  assert (sleeps (watchAndUpdate (failing_cycle <$> errs) (with_stopping false r)).2 =
            take (length errs) [200; 400; 800; 1600; 3200; 6400; 12800; 25600] ∧
          warnings (watchAndUpdate (failing_cycle <$> errs) (with_stopping false r)).2 =
            warning (with_stopping false r) <$>
              take (length errs)
                [100; 200; 400; 800; 1600; 3200; 6400; 12800; 25600] ∧
          (watchAndUpdate (failing_cycle <$> errs) (with_stopping false r)).1.1 =
            (if (9 <=? length errs)%nat then Broke BreakFailed else Pending))
    as (Hsleeps & Hwarn & Hexit).
  { destruct r as [kind0 ns lbls flds omit rt ts onf res0 stp [] wt];
      destruct onf;
      do 10 (destruct errs as [|? errs]; [repeat apply conj; reflexivity|]);
      repeat apply conj; reflexivity. }
  repeat apply conj; try done.
  rewrite Hsleeps. apply Forall_take. repeat constructor; lia.
Qed.

(** C8. On a reflector whose [watchTask] is set, [start()] throws the usage
    error before anything else happens: no remote call is made, the object
    is unchanged, and the loop continues from the same state. *)
Theorem second_start_is_usage_error
    (l : locals) (a : ownerAction) (resp : listResponse) (script : list cycle) :
  watchTask (this l) = true ->
  let res := start a resp (this l) in
  res = (Throw (Error ("Watcher for " +:+ kind (this l) +:+ " already running")),
         this l, []) ∧
  loop script {| this := res.1.2; resourceVersion := resourceVersion l;
                 delay := delay l |} = loop script l.
Proof.
  intros Htask. cbv zeta.
  assert (start a resp (this l) =
          (Throw (Error ("Watcher for " +:+ kind (this l) +:+ " already running")),
           this l, [])) as ->.
  { unfold start. run. rewrite Htask. run. run_done. }
  split; [done|]. by destruct l.
Qed.

Lemma second_start_is_usage_error_witness :
  let r := new_reflector "Pod" (JStr "a") false true in
  let first := start NoAction (ListResolved [pod "a" "x" "1"] (JStr "1")) r in
  let l := {| this := first.1.2; resourceVersion := JStr "0"; delay := 100 |} in
  let second := start NoAction (ListResolved [] (JStr "2")) (this l) in
  first.1.1 = Return tt ∧
  watchTask (this l) = true ∧
  second = (Throw (Error "Watcher for Pod already running"), first.1.2, []) ∧
  resources second.1.2 = {["a/x" := pod "a" "x" "1"]}.
Proof.
  cbv zeta. split; [reflexivity|]. split; [reflexivity|]. split.
  - exact (proj1 (second_start_is_usage_error
      {| this := (start NoAction (ListResolved [pod "a" "x" "1"] (JStr "1"))
                    (new_reflector "Pod" (JStr "a") false true)).1.2;
         resourceVersion := JStr "0"; delay := 100 |}
      NoAction (ListResolved [] (JStr "2")) [] eq_refl)).
  - vm_compute. reflexivity.
Defined.

(** * More of the reflector *)

(** ** One pass through the loop body, case by case *)

(** The three ways a pass can go: the listing resolves and the stream closes
    without an error; the listing resolves and the stream closes with an
    error; the listing is rejected. In the last two the [catch] block either
    gives up or sets the timer. *)
Ltac iteration_cases c l :=
  let items := fresh "items" in
  let lrv := fresh "lrv" in
  let err := fresh "err" in
  let Hresp := fresh "Hresp" in
  let Hclosed := fresh "Hclosed" in
  let Hd := fresh "Hd" in
  destruct (list_response c) as [items lrv|err] eqn:Hresp;
  [ destruct (closed_with (session c)) as [err|] eqn:Hclosed;
    [ erewrite (iteration_failed c l) by (by apply try_body_watch_failed);
      match goal with
      | |- context [catch_body c ?e ?l1] =>
          destruct (catch_body_cases c e l1) as [[Hd ->]|[Hd ->]]
      end
    | erewrite (iteration_watch_closed c l) by done ]
  | erewrite (iteration_failed c l) by (by apply try_body_rejected);
    match goal with
    | |- context [catch_body c ?e ?l1] =>
        destruct (catch_body_cases c e l1) as [[Hd ->]|[Hd ->]]
    end ];
  cbn [fst snd this resourceVersion delay] in *.

Lemma owner_trace_events a r :
  Forall (λ e, e = EWatchAbort ∨ ∃ message err, e = ELoggerWarn message err)
    (owner_trace a r).
Proof.
  unfold owner_trace.
  destruct a as [|[err|]]; [by constructor| |];
    destruct r as [? ? ? ? ? ? ? ? ? ? ? []]; cbn;
    repeat (constructor; [first [by left | right; by eexists _, _]|]);
    constructor.
Qed.

Lemma owner_trace_iteration_events l a r :
  Forall (iteration_event l) (owner_trace a r).
Proof.
  eapply Forall_impl; [apply owner_trace_events|].
  intros e [->|(message & err & ->)]; [apply ie_abort|apply ie_warn].
Qed.

Lemma owner_state_config a r : same_config r (owner_state a r).
Proof. by destruct a. Qed.

Lemma same_config_trans r1 r2 r3 :
  same_config r1 r2 -> same_config r2 r3 -> same_config r1 r3.
Proof.
  unfold same_config. intros (?&?&?&?&?&?&?&?) (?&?&?&?&?&?&?&?).
  repeat split; congruence.
Qed.

Lemma same_config_refl r : same_config r r.
Proof. by repeat split. Qed.

Lemma after_list_config items a r : same_config r (after_list items a r).
Proof. unfold after_list. by destruct a. Qed.

Lemma after_watch_config s a r : same_config r (after_watch s a r).
Proof. unfold after_watch. by destruct a. Qed.

Lemma list_trace_events l a items :
  Forall (iteration_event l)
    (list_trace (resourceVersion l) a items (this l)).
Proof.
  unfold list_trace. constructor; [apply ie_list|].
  apply Forall_app. split; [apply owner_trace_iteration_events|].
  constructor; [by apply ie_store|].
  apply Forall_forall. intros e Hin.
  apply list_elem_of_In, in_map_iff in Hin as (item & <- & _).
  by apply ie_store.
Qed.

Lemma watch_trace_events l rv s a r :
  Forall (iteration_event l) (watch_trace rv s a (this l) r).
Proof.
  unfold watch_trace. constructor; [apply ie_watch|].
  apply Forall_app. split; [|apply owner_trace_iteration_events].
  apply Forall_forall. intros e Hin.
  apply list_elem_of_In, in_map_iff in Hin as (ev & <- & _).
  apply ie_store, is_store_event_mutation_of.
Qed.

(** Everything a pass adds to the trace is an [iteration_event] of the state
    it started in. *)
Lemma iteration_events c l : Forall (iteration_event l) (iteration c l).2.
Proof.
  assert (∀ r, same_config (this l) r -> ∀ err,
            Forall (iteration_event l)
              (if onFailure r then [EOnFailure err] else [])) as Hesc.
  { intros r Hr err. destruct (onFailure r) eqn:Hon; [|constructor].
    constructor; [|constructor]. apply ie_onFailure.
    destruct Hr as (_&_&_&_&_&_&_&Hr). congruence. }
  assert (∀ a err, Forall (iteration_event l)
            (EListCall (list_opts (this l) (resourceVersion l)) ::
             owner_trace a (this l) ++
             ELoggerError ("Error listing " +:+ kind (this l) +:+ ":")
               (Some err) :: escalation (this l) err)) as Hrej.
  { intros a err. constructor; [apply ie_list|].
    apply Forall_app. split; [apply owner_trace_iteration_events|].
    constructor; [apply ie_error|]. unfold escalation.
    destruct (firstLoadComplete (this l)); cbn [negb andb]; [constructor|].
    apply Hesc, same_config_refl. }
  iteration_cases c l.
  - apply Forall_app. split.
    + apply Forall_app. split; [apply list_trace_events|apply watch_trace_events].
    + constructor; [apply ie_warn|]. constructor; [apply ie_error|].
      apply Hesc.
      eapply same_config_trans; [apply after_list_config|apply after_watch_config].
  - apply Forall_app. split.
    + apply Forall_app. split; [apply list_trace_events|apply watch_trace_events].
    + constructor; [apply ie_warn|]. constructor; [by apply ie_sleep|].
      apply owner_trace_iteration_events.
  - apply Forall_app. split; [apply list_trace_events|apply watch_trace_events].
  - apply Forall_app. split; [apply Hrej|].
    constructor; [apply ie_warn|]. constructor; [apply ie_error|].
    apply Hesc, owner_state_config.
  - apply Forall_app. split; [apply Hrej|].
    constructor; [apply ie_warn|]. constructor; [by apply ie_sleep|].
    apply owner_trace_iteration_events.
Qed.

(** A pass never throws: whatever goes wrong in the [try] block is dealt
    with in the [catch] block. *)
Lemma iteration_returns c l : ∃ s, (iteration c l).1.1 = Return s.
Proof. iteration_cases c l; by eexists. Qed.

(** A pass changes nothing of the configuration. *)
Lemma iteration_config c l : same_config (this l) (this (iteration c l).1.2).
Proof.
  iteration_cases c l;
    repeat first
      [ apply same_config_refl
      | eapply same_config_trans; [|apply owner_state_config]
      | eapply same_config_trans; [|apply after_watch_config]
      | eapply same_config_trans; [|apply after_list_config] ].
Qed.

Lemma append_assoc (s1 s2 s3 : string) :
  (s1 +:+ s2) +:+ s3 = s1 +:+ s2 +:+ s3.
Proof.
  induction s1 as [|a s1 IH]; [reflexivity|].
  change (String a ((s1 +:+ s2) +:+ s3) = String a (s1 +:+ s2 +:+ s3)).
  by rewrite IH.
Qed.

(** ** Invariants of the loop *)

(** A property of the events that every pass keeps, from states that every
    continuing pass keeps, holds of the whole trace of the loop. *)
Lemma loop_invariant (I : locals -> Prop) (T : event -> Prop) :
  (∀ c l, I l ->
     Forall T (iteration c l).2 ∧
     ((iteration c l).1.1 = Return Continue -> I (iteration c l).1.2)) ->
  ∀ script l, I l -> Forall T (loop script l).2.
Proof.
  intros Hstep script. induction script as [|c script IH]; intros l Hl;
    cbn [loop]; destruct (_stopping (this l)); try by constructor.
  destruct (Hstep c l Hl) as [Ht Hi].
  destruct (iteration c l) as [[[[]|err] l1] t1]; cbn [fst snd] in *; try done.
  specialize (IH l1 (Hi eq_refl)).
  destruct (loop script l1) as [[x l2] t2]. cbn [snd] in *.
  apply Forall_app. by split.
Qed.

Lemma loop_config script l : same_config (this l) (this (loop script l).1.2).
Proof.
  revert l. induction script as [|c script IH]; intros l;
    cbn [loop]; destruct (_stopping (this l)); try apply same_config_refl.
  pose proof (iteration_config c l) as Hc.
  destruct (iteration c l) as [[[[]|err] l1] t1]; cbn [fst snd] in *; try done.
  specialize (IH l1). destruct (loop script l1) as [[x l2] t2].
  cbn [fst snd] in *. by eapply same_config_trans.
Qed.

Lemma sleeps_Forall (P : Z -> Prop) t :
  Forall (λ e, match e with ESleep ms => P ms | _ => True end) t ->
  Forall P (sleeps t).
Proof.
  induction 1 as [|e t He _ IH]; [constructor|].
  destruct e; cbn [sleeps]; try done. by constructor.
Qed.

Lemma list_calls_Forall (P : listOpts -> Prop) t :
  Forall (λ e, match e with EListCall o => P o | _ => True end) t ->
  Forall P (list_calls t).
Proof.
  induction 1 as [|e t He _ IH]; [constructor|].
  destruct e; cbn [list_calls]; try done. by constructor.
Qed.

Lemma watch_calls_Forall (P : string * watchOpts -> Prop) t :
  Forall (λ e, match e with EWatchCall p o => P (p, o) | _ => True end) t ->
  Forall P (watch_calls t).
Proof.
  induction 1 as [|e t He _ IH]; [constructor|].
  destruct e; cbn [watch_calls]; try done. by constructor.
Qed.

Lemma onFailure_calls_nil t :
  Forall (λ e, match e with EOnFailure _ => False | _ => True end) t ->
  onFailure_calls t = [].
Proof.
  induction 1 as [|e t He _ IH]; [done|]. by destruct e.
Qed.

Lemma watch_calls_app t1 t2 :
  watch_calls (t1 ++ t2) = watch_calls t1 ++ watch_calls t2.
Proof.
  induction t1 as [|e t1 IH]; [done|].
  destruct e; simpl; by rewrite ?IH.
Qed.

Lemma list_opts_config r r' rv :
  same_config r r' -> list_opts r' rv = list_opts r rv.
Proof.
  intros (?&Hns&Hl&Hf&Ho&Hrt&?&?).
  unfold list_opts, _labelSelector, _fieldSelector, opts_namespace.
  by rewrite Hns, Hl, Hf, Ho, Hrt.
Qed.

Lemma watch_opts_config r r' rv :
  same_config r r' -> watch_opts r' rv = watch_opts r rv.
Proof.
  intros (?&Hns&Hl&Hf&Ho&?&Hts&?).
  unfold watch_opts, _labelSelector, _fieldSelector, opts_namespace.
  by rewrite Hns, Hl, Hf, Ho, Hts.
Qed.

Lemma watch_path_config r r' : same_config r r' -> watch_path r' = watch_path r.
Proof.
  intros (Hk&Hns&?&?&Ho&?&?&?). unfold watch_path. by rewrite Hk, Hns, Ho.
Qed.

(** What a pass leaves in [delay], and the signal it ends with. *)
Lemma iteration_delay c l :
  delay (iteration c l).1.2 =
  match cycle_error c with None => 100 | Some _ => delay l * 2 end.
Proof. unfold cycle_error. iteration_cases c l; by rewrite ?Hclosed. Qed.

Lemma iteration_continues c l :
  (iteration c l).1.1 = Return Continue ->
  match cycle_error c with
  | None => True
  | Some _ => delay l * 2 <= 30000
  end.
Proof. unfold cycle_error. iteration_cases c l; rewrite ?Hclosed; done. Qed.

Lemma cursor_after_last evs rv : cursor_after evs rv = last_version evs rv.
Proof.
  unfold cursor_after, last_version. revert rv.
  induction evs as [|ev evs IH]; intros rv; [done|].
  cbn [fold_left]. rewrite IH. destruct evs as [|ev' evs]; [done|].
  rewrite last_cons_cons.
  destruct (last (ev' :: evs)) eqn:Hlast; [done|]. by apply last_None in Hlast.
Qed.

(** ** What the parts of a pass add to each reading of the trace *)

Lemma owner_trace_no_watch_call a r : watch_calls (owner_trace a r) = [].
Proof.
  unfold owner_trace. destruct a as [|[err|]]; [done| |];
    by destruct r as [? ? ? ? ? ? ? ? ? ? ? []].
Qed.

Lemma map_set_of_item_quiet items :
  sleeps (map set_of_item items) = [] ∧
  list_calls (map set_of_item items) = [] ∧
  watch_calls (map set_of_item items) = [].
Proof. induction items as [|item items IH]; [done|]. apply IH. Qed.

Lemma map_mutation_of_quiet evs :
  sleeps (map mutation_of evs) = [] ∧
  list_calls (map mutation_of evs) = [] ∧
  watch_calls (map mutation_of evs) = [].
Proof.
  induction evs as [|[type obj] evs IH]; [done|].
  cbn [map]. unfold mutation_of at 1 3 5. cbn [fst snd].
  by destruct (String.eqb type "DELETED").
Qed.

Lemma list_trace_readings rv a items r :
  sleeps (list_trace rv a items r) = [] ∧
  list_calls (list_trace rv a items r) = [list_opts r rv] ∧
  watch_calls (list_trace rv a items r) = [].
Proof.
  unfold list_trace. cbn [sleeps list_calls watch_calls].
  rewrite sleeps_app, list_calls_app, watch_calls_app.
  destruct (owner_trace_quiet a r) as (_ & _ & -> & -> & _).
  rewrite owner_trace_no_watch_call. cbn [app sleeps list_calls watch_calls].
  by destruct (map_set_of_item_quiet items) as (-> & -> & ->).
Qed.

Lemma watch_trace_readings rv s a r0 r :
  sleeps (watch_trace rv s a r0 r) = [] ∧
  list_calls (watch_trace rv s a r0 r) = [] ∧
  watch_calls (watch_trace rv s a r0 r) = [(watch_path r0, watch_opts r0 rv)].
Proof.
  unfold watch_trace. cbn [sleeps list_calls watch_calls].
  rewrite sleeps_app, list_calls_app, watch_calls_app.
  destruct (map_mutation_of_quiet (delivered s)) as (-> & -> & ->).
  match goal with
  | |- context [owner_trace a ?r'] =>
      destruct (owner_trace_quiet a r') as (_ & _ & -> & -> & _);
      rewrite (owner_trace_no_watch_call a r')
  end.
  done.
Qed.

Lemma rejected_trace_readings rv a err r :
  sleeps (listAndUpdate rv a (ListRejected err) r).2 = [] ∧
  list_calls (listAndUpdate rv a (ListRejected err) r).2 = [list_opts r rv] ∧
  watch_calls (listAndUpdate rv a (ListRejected err) r).2 = [].
Proof.
  rewrite listAndUpdate_rejected. cbn [snd sleeps list_calls watch_calls].
  rewrite sleeps_app, list_calls_app, watch_calls_app.
  destruct (owner_trace_quiet a r) as (_ & _ & -> & -> & _).
  rewrite owner_trace_no_watch_call. unfold escalation.
  by destruct (negb (firstLoadComplete r) && onFailure r).
Qed.

(** The timers, list calls and watch calls of one pass. *)
Lemma iteration_readings c l :
  sleeps (iteration c l).2 =
    match cycle_error c with
    | None => []
    | Some _ => if delay l * 2 >? 30000 then [] else [delay l * 2]
    end ∧
  list_calls (iteration c l).2 = [list_opts (this l) (resourceVersion l)] ∧
  watch_calls (iteration c l).2 =
    match list_response c with
    | ListResolved _ lrv => [(watch_path (this l), watch_opts (this l) lrv)]
    | ListRejected _ => []
    end.
Proof.
  assert (∀ r err, sleeps (if onFailure r then [EOnFailure err] else []) = [] ∧
            list_calls (if onFailure r then [EOnFailure err] else []) = [] ∧
            watch_calls (if onFailure r then [EOnFailure err] else []) = [])
    as Hesc by (intros r err; by destruct (onFailure r)).
  unfold cycle_error.
  iteration_cases c l; rewrite ?Hclosed;
    repeat first
      [ rewrite sleeps_app | rewrite list_calls_app | rewrite watch_calls_app
      | progress cbn [sleeps list_calls watch_calls app]
      | match goal with
        | |- context [list_trace ?rv ?a ?items ?r] =>
            destruct (list_trace_readings rv a items r) as (-> & -> & ->)
        | |- context [watch_trace ?rv ?s ?a ?r0 ?r] =>
            destruct (watch_trace_readings rv s a r0 r) as (-> & -> & ->)
        | |- context [owner_trace ?a ?r] =>
            destruct (owner_trace_quiet a r) as (_ & _ & -> & -> & _);
            rewrite (owner_trace_no_watch_call a r)
        | |- context [if onFailure ?r then [EOnFailure ?err] else []] =>
            destruct (Hesc r err) as (-> & -> & ->)
        | |- context [escalation ?r ?err] =>
            unfold escalation;
            destruct (negb (firstLoadComplete r) && onFailure r)
        end ];
    try (assert ((delay l * 2 >? 30000) = true) as -> by lia);
    try (assert ((delay l * 2 >? 30000) = false) as -> by lia);
    done.
Qed.

(** The closure variable [resourceVersion] after a pass. *)
Lemma iteration_cursor c l :
  resourceVersion (iteration c l).1.2 =
  match list_response c with
  | ListResolved _ lrv => last_version (delivered (session c)) lrv
  | ListRejected _ => resourceVersion l
  end.
Proof. iteration_cases c l; by rewrite ?cursor_after_last. Qed.

Lemma loop_two c1 c2 l :
  _stopping (this l) = false ->
  (iteration c1 l).1.1 = Return Continue ->
  _stopping (this (iteration c1 l).1.2) = false ->
  (loop [c1; c2] l).2 = (iteration c1 l).2 ++ (iteration c2 (iteration c1 l).1.2).2.
Proof.
  intros Hrun Hcont Hrun1. rewrite loop_running by done.
  destruct (iteration c1 l) as [[o l1] t1]. cbn [fst snd] in *. subst o.
  rewrite loop_running by done.
  destruct (iteration_returns c2 l1) as [s Hs].
  destruct (iteration c2 l1) as [[o l2] t2]. cbn [fst snd] in *. subst o.
  destruct s; cbn [snd]; try done.
  cbn [loop]. destruct (_stopping (this l2)); cbn [snd]; by rewrite app_nil_r.
Qed.

(** Every request of a run is built from the configuration the run started
    with. *)
Lemma every_request_shape
    (script : list cycle) (r : ResourceReflector) :
  let t := (watchAndUpdate script r).2 in
  Forall (λ o, lo_labelSelector o = _labelSelector r ∧
               lo_fieldSelector o = _fieldSelector r ∧
               lo_timeout o = requestTimeout r ∧
               lo_namespace o = opts_namespace r) (list_calls t) ∧
  Forall (λ pw, pw.1 = watch_path r ∧
                wo_labelSelector pw.2 = _labelSelector r ∧
                wo_fieldSelector pw.2 = _fieldSelector r ∧
                wo_timeoutSeconds pw.2 = timeoutSeconds r ∧
                wo_namespace pw.2 = opts_namespace r) (watch_calls t).
Proof.
  cbv zeta. unfold watchAndUpdate.
  set (l0 := {| this := r; resourceVersion := JStr "0"; delay := 100 |}).
  assert (Forall (λ e, match e with
                       | EListCall o => ∃ rv, o = list_opts r rv
                       | EWatchCall p o => ∃ rv, p = watch_path r ∧ o = watch_opts r rv
                       | _ => True
                       end) (loop script l0).2) as Hall.
  { apply (loop_invariant (λ l, same_config r (this l)));
      [|apply same_config_refl].
    intros c l Hl. split.
    - eapply Forall_impl; [apply iteration_events|].
      intros e He. destruct He as [|rv|e Hstore| | | | |]; try done.
      + eexists. by apply list_opts_config.
      + eexists. split; [by apply watch_path_config|by apply watch_opts_config].
      + by destruct e.
    - intros _. eapply same_config_trans; [done|apply iteration_config]. }
  split.
  - apply list_calls_Forall. eapply Forall_impl; [apply Hall|].
    intros [] He; try done. by destruct He as [rv ->].
  - apply watch_calls_Forall. eapply Forall_impl; [apply Hall|].
    intros [] He; try done. by destruct He as [rv [-> ->]].
Qed.

(** ** Stopping *)

Lemma owner_state_stopping a r :
  _stopping (owner_state a r) =
  match a with NoAction => _stopping r | CallStop _ => true end.
Proof. by destruct a. Qed.

(** A pass during which [stop()] was called does not end with a plain
    [Continue] and a clear flag. *)
Lemma iteration_stop_called c l :
  stop_called c ->
  (iteration c l).1.1 = Return Continue ->
  _stopping (this (iteration c l).1.2) = true.
Proof.
  unfold stop_called, cycle_error.
  iteration_cases c l; intros Hstop Hcont; try done;
    unfold after_watch, after_list in *;
    rewrite ?owner_state_stopping in *;
    cbn [_stopping with_resources with_firstLoadComplete] in *;
    rewrite ?owner_state_stopping in *.
  - destruct Hstop as [Hs|[[Hs _]|[_ Hs]]];
      destruct (during_list c), (during_watch c), (during_sleep c); done.
  - destruct Hstop as [Hs|[[Hs _]|[Hs _]]]; [| |by destruct Hs];
      destruct (during_list c), (during_watch c); try done;
      by destruct (_stopping (this l)).
  - destruct Hstop as [Hs|[(_ & items & lrv & Hs)|[_ Hs]]]; [|done|];
      destruct (during_list c), (during_sleep c); done.
Qed.

Lemma loop_stopping script l :
  _stopping (this l) = true -> loop script l = (LoopCondition, l, []).
Proof. intros Hl. destruct script; cbn [loop]; by rewrite Hl. Qed.

(** ** Passes without an error, and passes that fail *)

Lemma iteration_clean c l :
  cycle_error c = None ->
  sleeps (iteration c l).2 = [] ∧
  onFailure_calls (iteration c l).2 = [] ∧
  ((iteration c l).1.1 = Return Continue ∨
   (iteration c l).1.1 = Return BreakStopping).
Proof.
  unfold cycle_error. intros Hc.
  destruct (list_response c) as [items lrv|err] eqn:Hresp; [|done].
  rewrite (iteration_watch_closed c l items lrv Hresp Hc). cbn [fst snd].
  rewrite sleeps_app, onFailure_calls_app, onFailure_calls_list_trace,
    onFailure_calls_watch_trace.
  destruct (list_trace_readings (resourceVersion l) (during_list c) items
              (this l)) as (-> & _).
  match goal with
  | |- context [watch_trace ?rv ?s ?a ?r0 ?r] =>
      destruct (watch_trace_readings rv s a r0 r) as (-> & _)
  end.
  repeat split. destruct (_stopping _); auto.
Qed.

Lemma iteration_fails_quietly c l :
  fails_quietly c ->
  (iteration c l).1.1 =
    Return (if delay l * 2 >? 30000 then BreakFailed else Continue) ∧
  _stopping (this (iteration c l).1.2) = _stopping (this l) ∧
  delay (iteration c l).1.2 = delay l * 2 ∧
  sleeps (iteration c l).2 =
    (if delay l * 2 >? 30000 then [] else [delay l * 2]).
Proof.
  intros ([err Herr] & Hl & Hw & Hs).
  destruct (iteration_readings c l) as (Hsleeps & _).
  pose proof (iteration_delay c l) as Hdelay. rewrite Herr in Hsleeps, Hdelay.
  enough ((iteration c l).1.1 =
            Return (if delay l * 2 >? 30000 then BreakFailed else Continue) ∧
          _stopping (this (iteration c l).1.2) = _stopping (this l))
    as [Hsig Hstop] by done.
  clear Hsleeps Hdelay. revert Herr. unfold cycle_error.
  iteration_cases c l; intros Herr; try done;
    try (assert ((delay l * 2 >? 30000) = true) as -> by lia);
    try (assert ((delay l * 2 >? 30000) = false) as -> by lia);
    (split; [done|]); unfold after_watch, after_list;
    rewrite ?Hl, ?Hw, ?Hs; done.
Qed.

(** ** What every run of the loop has in common *)

(** X2. Whatever the remote side and the owner do, every timer the loop sets
    is one of 200, 400, 800, 1600, 3200, 6400, 12800 and 25600 ms: never
    the initial 100, never more than 30000. *)
Theorem every_timer_is_a_doubling (script : list cycle) (r : ResourceReflector) :
  Forall (λ ms, ms ∈ [200; 400; 800; 1600; 3200; 6400; 12800; 25600])
    (sleeps (watchAndUpdate script r).2).
Proof.
  apply sleeps_Forall. unfold watchAndUpdate.
  apply (loop_invariant
           (λ l, delay l ∈ [100; 200; 400; 800; 1600; 3200; 6400; 12800; 25600]));
    [|by apply (bool_decide_unpack _)].
  intros c l Hl. split.
  - eapply Forall_impl; [apply iteration_events|].
    intros e He. destruct He as [| | e Hstore| | | | |Hd]; try done.
    + by destruct e.
    + repeat (apply elem_of_cons in Hl as [Heq|Hl];
             [rewrite Heq in *;
              first [by exfalso; lia | by apply (bool_decide_unpack _)]|]).
      by apply elem_of_nil in Hl.
  - intros Hcont. apply iteration_continues in Hcont.
    rewrite iteration_delay.
    destruct (cycle_error c); [|by apply (bool_decide_unpack _)].
    repeat (apply elem_of_cons in Hl as [Heq|Hl];
             [rewrite Heq in *;
              first [by exfalso; lia | by apply (bool_decide_unpack _)]|]).
    by apply elem_of_nil in Hl.
Qed.

(** X3. A pass resets [delay] to 100 only when the listing resolved and the
    stream closed without an error. An error that closes the stream after a
    successful listing doubles [delay] exactly as a rejected listing does,
    and the timer is then set to the doubled delay unless that exceeds
    30000. *)
Theorem backoff_resets_only_on_clean_close (c : cycle) (l : locals) :
  delay (iteration c l).1.2 =
    match cycle_error c with None => 100 | Some _ => delay l * 2 end ∧
  sleeps (iteration c l).2 =
    match cycle_error c with
    | None => []
    | Some _ => if delay l * 2 >? 30000 then [] else [delay l * 2]
    end.
Proof.
  split; [apply iteration_delay|].
  by destruct (iteration_readings c l) as (-> & _).
Qed.

(** X4. Each pass makes exactly one list call, with the version the previous
    pass left: the version of the last notification delivered, or the
    version of the listing when none was delivered, or the previous version
    when the listing was rejected. This holds also when the stream closed
    with an error. *)
Theorem next_listing_resumes_from_cursor (c1 c2 : cycle) (l : locals) :
  _stopping (this l) = false ->
  (iteration c1 l).1.1 = Return Continue ->
  _stopping (this (iteration c1 l).1.2) = false ->
  list_calls (loop [c1; c2] l).2 =
  [list_opts (this l) (resourceVersion l);
   list_opts (this l)
     match list_response c1 with
     | ListResolved _ lrv => last_version (delivered (session c1)) lrv
     | ListRejected _ => resourceVersion l
     end].
Proof.
  intros Hrun Hcont Hrun1. rewrite loop_two by done. rewrite list_calls_app.
  destruct (iteration_readings c1 l) as (_ & -> & _).
  destruct (iteration_readings c2 (iteration c1 l).1.2) as (_ & -> & _).
  rewrite iteration_cursor.
  by rewrite (list_opts_config (this l) (this (iteration c1 l).1.2))
    by apply iteration_config.
Qed.

Lemma next_listing_resumes_from_cursor_witness :
  let r := with_watchTask true (with_firstLoadComplete true
             (new_reflector "Pod" (JStr "a") false true)) in
  let l := {| this := r; resourceVersion := JStr "0"; delay := 100 |} in
  let c1 := quiet_cycle (ListResolved [pod "a" "x" "1"] (JStr "5"))
              {| delivered := [("MODIFIED", pod "a" "x" "6");
                               ("ADDED", pod "a" "y" "7")];
                 closed_with := Some (Error "ECONNRESET") |} in
  let c2 := failing_cycle (Error "ETIMEDOUT") in
  lo_resourceVersion <$> list_calls (loop [c1; c2] l).2 =
  [Some (JStr "0"); Some (JStr "7")].
Proof.
  cbv zeta.
  rewrite (next_listing_resumes_from_cursor
    (quiet_cycle (ListResolved [pod "a" "x" "1"] (JStr "5"))
       {| delivered := [("MODIFIED", pod "a" "x" "6");
                        ("ADDED", pod "a" "y" "7")];
          closed_with := Some (Error "ECONNRESET") |})
    (failing_cycle (Error "ETIMEDOUT"))
    {| this := with_watchTask true (with_firstLoadComplete true
                 (new_reflector "Pod" (JStr "a") false true));
       resourceVersion := JStr "0"; delay := 100 |}
    eq_refl eq_refl eq_refl).
  reflexivity.
Defined.

(** X5. The loop never changes what it was configured with: every list call
    of a run carries the selectors, the timeout and the namespace option of
    the reflector it started on, and every watch is opened on the same path
    with the same selectors, idle timeout and namespace option. *)
Theorem every_request_carries_the_configuration
    (script : list cycle) (r : ResourceReflector) :
  let t := (watchAndUpdate script r).2 in
  Forall (λ o, lo_labelSelector o = _labelSelector r ∧
               lo_fieldSelector o = _fieldSelector r ∧
               lo_timeout o = requestTimeout r ∧
               lo_namespace o = opts_namespace r) (list_calls t) ∧
  Forall (λ pw, pw.1 = watch_path r ∧
                wo_labelSelector pw.2 = _labelSelector r ∧
                wo_fieldSelector pw.2 = _fieldSelector r ∧
                wo_timeoutSeconds pw.2 = timeoutSeconds r ∧
                wo_namespace pw.2 = opts_namespace r) (watch_calls t).
Proof. apply every_request_shape. Qed.

(** X6. A [MultiNamespaceResourceReflector] never scopes a request to a
    namespace, whatever [namespace] and [omitNamespace] its options hold:
    no list call of any run carries a namespace, and every watch is opened
    on [/api/v1/<kind in lower case>]. *)
Theorem MultiNamespace_never_scopes_to_a_namespace
    (o : options) (script : list cycle) :
  let t := (watchAndUpdate script (MultiNamespaceResourceReflector o)).2 in
  Forall (λ opts, lo_namespace opts = None) (list_calls t) ∧
  Forall (λ pw, pw.1 = "/api/v1/" +:+ toLowerCase (o_kind o) ∧
                wo_namespace pw.2 = None) (watch_calls t).
Proof.
  cbv zeta.
  destruct (every_request_shape script (MultiNamespaceResourceReflector o))
    as [Hlist Hwatch].
  split.
  - eapply Forall_impl; [apply Hlist|]. by intros opts (_ & _ & _ & ->).
  - eapply Forall_impl; [apply Hwatch|]. by intros pw (-> & _ & _ & _ & ->).
Qed.

(** X7. A [NamespacedResourceReflector] opens every watch under
    [/api/v1/namespaces/<namespace>/], whatever [omitNamespace] its options
    hold, and sends the namespace with every request when it is a non-empty
    string. Built without a namespace, or with [namespace: undefined], it
    has the default [null]: it sends no namespace and watches
    [/api/v1/namespaces/null/<kind>], never [/namespaces/undefined/]. *)
Theorem Namespaced_always_scopes_to_its_namespace
    (o : options) (script : list cycle) :
  let ns := match o_namespace o with
            | None | Some JUndefined => JNull
            | Some v => v
            end in
  let t := (watchAndUpdate script (NamespacedResourceReflector o)).2 in
  ns ≠ JUndefined ∧
  Forall (λ opts, lo_namespace opts = if truthy ns then Some ns else None)
    (list_calls t) ∧
  Forall (λ pw, pw.1 = "/api/v1/namespaces/" +:+ template ns +:+ "/" +:+
                       toLowerCase (o_kind o) ∧
                wo_namespace pw.2 = if truthy ns then Some ns else None)
    (watch_calls t).
Proof.
  cbv zeta.
  destruct (every_request_shape script (NamespacedResourceReflector o))
    as [Hlist Hwatch].
  change (match o_namespace o with
          | None | Some JUndefined => JNull
          | Some v => v
          end) with (namespace_or_null (o_namespace o)).
  split; [by destruct (o_namespace o) as [[]|]|]. split.
  - eapply Forall_impl; [apply Hlist|]. by intros opts (_ & _ & _ & ->).
  - eapply Forall_impl; [apply Hwatch|]. intros pw (-> & _ & _ & _ & ->).
    split; [|done]. unfold watch_path.
    cbn [omitNamespace NamespacedResourceReflector constructor
         spread_omitNamespace o_omitNamespace default kind namespace o_kind
         o_namespace].
    change (id false) with false. cbv iota.
    change ("/api/v1/namespaces/" +:+ ?x) with ("/api/v1/" +:+ "namespaces/" +:+ x).
    by rewrite !append_assoc.
Qed.

(** ** stop and start *)

(** X8. A call of [stop()] at any suspension point a cycle reaches (the list
    call, the watch, the timer) ends the loop with that cycle: the loop has
    returned when the cycle is over, and whatever the remote side would
    offer next is never asked for. *)
Theorem stop_ends_the_loop_with_the_cycle
    (c : cycle) (rest : list cycle) (l : locals) :
  _stopping (this l) = false ->
  stop_called c ->
  returned (loop (c :: rest) l).1.1 = true ∧
  loop (c :: rest) l = loop [c] l.
Proof.
  intros Hrun Hstop. rewrite !loop_running by done.
  pose proof (iteration_stop_called c l Hstop) as Hflag.
  destruct (iteration_returns c l) as [s Hs].
  destruct (iteration c l) as [[o l1] t1]. cbn [fst snd] in *. subst o.
  destruct s; try done.
  by rewrite !loop_stopping by auto.
Qed.

Lemma stop_ends_the_loop_with_the_cycle_witness :
  let r := with_watchTask true (with_firstLoadComplete true
             (new_reflector "Pod" (JStr "a") false true)) in
  let l := {| this := r; resourceVersion := JStr "0"; delay := 100 |} in
  let c := {| during_list := NoAction;
              list_response := ListResolved [pod "a" "x" "1"] (JStr "1");
              session := {| delivered := []; closed_with := None |};
              during_watch := CallStop None; during_sleep := NoAction |} in
  let next := quiet_cycle (ListResolved [] (JStr "2"))
                {| delivered := []; closed_with := None |} in
  (loop [c; next] l).1.1 = Broke BreakStopping ∧
  length (list_calls (loop [c; next] l).2) = 1%nat.
Proof.
  cbv zeta.
  pose proof (stop_ends_the_loop_with_the_cycle
    {| during_list := NoAction;
       list_response := ListResolved [pod "a" "x" "1"] (JStr "1");
       session := {| delivered := []; closed_with := None |};
       during_watch := CallStop None; during_sleep := NoAction |}
    [quiet_cycle (ListResolved [] (JStr "2"))
       {| delivered := []; closed_with := None |}]
    {| this := with_watchTask true (with_firstLoadComplete true
                 (new_reflector "Pod" (JStr "a") false true));
       resourceVersion := JStr "0"; delay := 100 |}
    eq_refl) as Hstop.
  destruct Hstop as [_ ->]; [|by split].
  right. left. split; [discriminate|]. by eexists _, _.
Defined.

(** X9. The flag [_stopping] is read only after the watch has ended. When
    [stop()] is called while the list call is pending and the listing then
    resolves, the store is still replaced, the watch is still opened, and
    the notifications it delivers are still applied; only then does the
    pass end with the flag set. *)
Theorem stop_during_listing_still_opens_the_watch
    (l : locals) (abort_error : option error) (items : list k8sObject)
    (lrv : jsval) (s : watchSession) (a2 a3 : ownerAction) :
  let c := {| during_list := CallStop abort_error;
              list_response := ListResolved items lrv; session := s;
              during_watch := a2; during_sleep := a3 |} in
  let it := iteration c l in
  watch_calls it.2 = [(watch_path (this l), watch_opts (this l) lrv)] ∧
  store_events it.2 =
    EResourcesClear :: map set_of_item items ++ map mutation_of (delivered s) ∧
  _stopping (this it.1.2) = true.
Proof.
  cbv zeta.
  set (c := {| during_list := CallStop abort_error;
               list_response := ListResolved items lrv; session := s;
               during_watch := a2; during_sleep := a3 |}).
  split; [by destruct (iteration_readings c l) as (_ & _ & ->)|].
  assert (list_response c = ListResolved items lrv) as Hc by done.
  destruct (closed_with s) as [err|] eqn:Hs.
  - erewrite iteration_failed
      by (by apply (try_body_watch_failed c l items lrv err)).
    cbn [fst snd]. rewrite !store_events_app, catch_body_quiet, app_nil_r,
      store_events_list_trace, store_events_watch_trace.
    split; [done|].
    match goal with
    | |- context [catch_body c err ?l1] =>
        destruct (catch_body_cases c err l1) as [[_ ->]|[_ ->]]
    end; cbn [fst snd this]; unfold after_watch, after_list;
      rewrite ?owner_state_stopping; by destruct a2, a3.
  - erewrite (iteration_watch_closed c l items lrv) by done.
    cbn [fst snd this]. rewrite !store_events_app, store_events_list_trace,
      store_events_watch_trace.
    split; [done|]. unfold after_watch, after_list.
    rewrite owner_state_stopping. by destruct a2.
Qed.

(** X10. A [start()] whose listing is rejected throws the error, reports it
    to the callback when one is configured and no listing has succeeded yet,
    and leaves [watchTask] unset and the store untouched, so that [start()]
    can be called again; a second call whose listing resolves then fills
    the store and sets [watchTask] and [firstLoadComplete]. *)
Theorem start_can_be_retried
    (a1 a2 : ownerAction) (err : error) (items : list k8sObject) (lrv : jsval)
    (r : ResourceReflector) :
  watchTask r = false ->
  let first := start a1 (ListRejected err) r in
  let second := start a2 (ListResolved items lrv) first.1.2 in
  first.1.1 = Throw err ∧
  onFailure_calls first.2 =
    (if negb (firstLoadComplete r) && onFailure r then [err] else []) ∧
  watchTask first.1.2 = false ∧
  resources first.1.2 = resources r ∧
  second.1.1 = Return tt ∧
  watchTask second.1.2 = true ∧
  firstLoadComplete second.1.2 = true ∧
  resources second.1.2 = listed items.
Proof.
  intros Htask. cbv zeta.
  assert (start a1 (ListRejected err) r =
          (Throw err, owner_state a1 r,
           (listAndUpdate JNull a1 (ListRejected err) r).2)) as ->.
  { unfold start. run. rewrite Htask. run.
    rewrite listAndUpdate_rejected. run. run_done. }
  cbn [fst snd].
  assert (watchTask (owner_state a1 r) = false) as Htask1 by by destruct a1.
  unfold start. run. rewrite Htask1. run. rewrite !listAndUpdate_resolved.
  rewrite listAndUpdate_rejected. run. cbn [fst snd onFailure_calls].
  rewrite onFailure_calls_app.
  destruct (owner_trace_quiet a1 r) as (_ & -> & _).
  rewrite owner_state_resources. unfold escalation.
  repeat apply conj; try done.
  by destruct (negb (firstLoadComplete r) && onFailure r).
Qed.

Lemma start_can_be_retried_witness :
  let r := new_reflector "Pod" (JStr "a") false true in
  let first := start NoAction (ListRejected (Error "ECONNREFUSED")) r in
  let second :=
    start NoAction (ListResolved [pod "a" "x" "1"] (JStr "1")) first.1.2 in
  first.1.1 = Throw (Error "ECONNREFUSED") ∧
  onFailure_calls first.2 = [Error "ECONNREFUSED"] ∧
  second.1.1 = Return tt ∧
  resources second.1.2 !! "a/x" = Some (pod "a" "x" "1").
Proof.
  cbv zeta.
  destruct (start_can_be_retried NoAction NoAction (Error "ECONNREFUSED")
              [pod "a" "x" "1"] (JStr "1")
              (new_reflector "Pod" (JStr "a") false true) eq_refl)
    as (Hthrow & Hcalls & _ & _ & Hret & _ & _ & Hres).
  repeat apply conj; [exact Hthrow | exact Hcalls | exact Hret |].
  rewrite Hres. reflexivity.
Defined.

(** X11. [start()] lists without a version, and throws away the version its
    listing returned: the loop it launches begins by listing again, with
    [resourceVersion: '0'] and [resourceVersionMatch: 'NotOlderThan'],
    whatever version the first listing came back with. *)
Theorem start_lists_twice
    (items : list k8sObject) (lrv : jsval) (c : cycle) (script : list cycle)
    (r : ResourceReflector) :
  watchTask r = false ->
  _stopping r = false ->
  let run := start_and_run NoAction (ListResolved items lrv) (c :: script) r in
  ∃ more,
    list_calls run.2 = list_opts r JNull :: list_opts r (JStr "0") :: more ∧
    lo_resourceVersion (list_opts r JNull) = None ∧
    lo_resourceVersionMatch (list_opts r JNull) = None ∧
    lo_resourceVersion (list_opts r (JStr "0")) = Some (JStr "0") ∧
    lo_resourceVersionMatch (list_opts r (JStr "0")) = Some "NotOlderThan".
Proof.
  intros Htask Hrun. cbv zeta. unfold start_and_run.
  assert (start NoAction (ListResolved items lrv) r =
          (Return tt,
           with_watchTask true (after_list items NoAction r),
           list_trace JNull NoAction items r)) as ->.
  { unfold start. run. rewrite Htask. run. rewrite listAndUpdate_resolved.
    run. unfold list_trace, after_list. run_done. }
  unfold watchAndUpdate.
  set (l0 := {| this := with_watchTask true (after_list items NoAction r);
                resourceVersion := JStr "0"; delay := 100 |}).
  assert (_stopping (this l0) = false) as Hrun0 by done.
  rewrite loop_running by done.
  destruct (iteration_readings c l0) as (_ & Hlist & _).
  destruct (iteration_returns c l0) as [s Hs].
  destruct (iteration c l0) as [[o l1] t1]. cbn [fst snd] in *. subst o.
  destruct (list_trace_readings JNull NoAction items r) as (_ & Hfirst & _).
  destruct s.
  - destruct (loop script l1) as [[x l2] t2]. cbn [snd].
    exists (list_calls t2).
    rewrite !list_calls_app, Hfirst, Hlist. by repeat split.
  - exists []. cbn [snd]. rewrite !list_calls_app, Hfirst, Hlist.
    by repeat split.
  - exists []. cbn [snd]. rewrite !list_calls_app, Hfirst, Hlist.
    by repeat split.
Qed.

Lemma start_lists_twice_witness :
  let r := new_reflector "Pod" (JStr "a") false true in
  let c := quiet_cycle (ListResolved [pod "a" "x" "1"] (JStr "42"))
             {| delivered := []; closed_with := None |} in
  let run := start_and_run NoAction
               (ListResolved [pod "a" "x" "1"] (JStr "41")) [c] r in
  ∃ more,
    list_calls run.2 = list_opts r JNull :: list_opts r (JStr "0") :: more ∧
    lo_resourceVersion (list_opts r JNull) = None ∧
    lo_resourceVersionMatch (list_opts r JNull) = None ∧
    lo_resourceVersion (list_opts r (JStr "0")) = Some (JStr "0") ∧
    lo_resourceVersionMatch (list_opts r (JStr "0")) = Some "NotOlderThan".
Proof.
  exact (start_lists_twice [pod "a" "x" "1"] (JStr "41")
           (quiet_cycle (ListResolved [pod "a" "x" "1"] (JStr "42"))
              {| delivered := []; closed_with := None |})
           [] (new_reflector "Pod" (JStr "a") false true) eq_refl eq_refl).
Defined.

(** X12. A reflector built without a callback never calls one: on any run of
    the loop, whatever fails, [onFailure] is not invoked. *)
Theorem no_callback_no_escalation (script : list cycle) (r : ResourceReflector) :
  onFailure r = false ->
  onFailure_calls (watchAndUpdate script r).2 = [].
Proof.
  intros Hoff. apply onFailure_calls_nil. unfold watchAndUpdate.
  apply (loop_invariant (λ l, onFailure (this l) = false)); [|done].
  intros c l Hl. split.
  - eapply Forall_impl; [apply iteration_events|].
    intros e He. destruct He as [| |e Hstore| | | |err Hon|]; try done.
    + by destruct e.
    + congruence.
  - intros _. destruct (iteration_config c l) as (_&_&_&_&_&_&_&Hon). congruence.
Qed.

Lemma no_callback_no_escalation_witness :
  let r := new_reflector "Pod" (JStr "a") false false in
  let script := repeat (failing_cycle (Error "ECONNREFUSED")) 9 in
  (watchAndUpdate script r).1.1 = Broke BreakFailed ∧
  onFailure_calls (watchAndUpdate script r).2 = [].
Proof.
  cbv zeta. split; [reflexivity|].
  exact (no_callback_no_escalation
           (repeat (failing_cycle (Error "ECONNREFUSED")) 9)
           (new_reflector "Pod" (JStr "a") false false) eq_refl).
Defined.

(** ** Runs without errors, runs of failures *)

(** X13. When every listing resolves and every stream closes without an
    error, the loop never sets a timer, never calls the callback and never
    gives up, however many cycles it runs. *)
Theorem error_free_run_never_backs_off (script : list cycle) (r : ResourceReflector) :
  Forall (λ c, cycle_error c = None) script ->
  let run := watchAndUpdate script r in
  sleeps run.2 = [] ∧ onFailure_calls run.2 = [] ∧ gave_up run.1.1 = false.
Proof.
  intros Hclean. cbv zeta. unfold watchAndUpdate.
  generalize {| this := r; resourceVersion := JStr "0"; delay := 100 |}.
  induction Hclean as [|c script Hc _ IH]; intros l;
    cbn [loop]; destruct (_stopping (this l)); try done.
  destruct (iteration_clean c l Hc) as (Hsleeps & Hcalls & Hsig).
  destruct (iteration c l) as [[o l1] t1]. cbn [fst snd] in *.
  destruct Hsig as [-> | ->]; [|done].
  specialize (IH l1). destruct (loop script l1) as [[x l2] t2].
  cbn [fst snd] in *. rewrite sleeps_app, onFailure_calls_app, Hsleeps, Hcalls.
  by destruct IH as (-> & -> & ->).
Qed.

Lemma error_free_run_never_backs_off_witness :
  let c := quiet_cycle (ListResolved [pod "a" "x" "1"] (JStr "1"))
             {| delivered := [("MODIFIED", pod "a" "x" "2")];
                closed_with := None |} in
  let run := watchAndUpdate (repeat c 20)
               (new_reflector "Pod" (JStr "a") false true) in
  Forall (λ c, cycle_error c = None) (repeat c 20) ∧
  sleeps run.2 = [] ∧ onFailure_calls run.2 = [] ∧ gave_up run.1.1 = false.
Proof.
  cbv zeta.
  assert (Forall (λ c, cycle_error c = None)
            (repeat (quiet_cycle (ListResolved [pod "a" "x" "1"] (JStr "1"))
                       {| delivered := [("MODIFIED", pod "a" "x" "2")];
                          closed_with := None |}) 20)) as Hclean
    by (apply Forall_forall; intros c Hc;
        by apply list_elem_of_In, repeat_spec in Hc as ->).
  split; [exact Hclean|].
  exact (error_free_run_never_backs_off _
           (new_reflector "Pod" (JStr "a") false true) Hclean).
Defined.

(** X14. The loop gives up at the ninth failed cycle in a row, whatever kind
    of failure it is: a rejected listing, or a listing that resolves
    followed by a stream that closes with an error. With nobody calling
    [stop()], a run of [n] such cycles from a fresh loop sets the timers
    200, 400, ..., and ends by the [break] of line 125 exactly when [n] is
    at least 9. *)
Theorem nine_failures_of_any_kind (script : list cycle) (r : ResourceReflector) :
  _stopping r = false ->
  Forall fails_quietly script ->
  let run := watchAndUpdate script r in
  run.1.1 = (if (9 <=? length script)%nat then Broke BreakFailed else Pending) ∧
  sleeps run.2 =
    take (length script) [200; 400; 800; 1600; 3200; 6400; 12800; 25600].
Proof.
  intros Hrun Hfail. cbv zeta. unfold watchAndUpdate.
  set (steps := [100; 200; 400; 800; 1600; 3200; 6400; 12800; 25600]).
  assert (∀ (k : nat) l,
            steps !! k = Some (delay l) -> _stopping (this l) = false ->
            (loop script l).1.1 =
              (if (9 <=? k + length script)%nat
               then Broke BreakFailed else Pending) ∧
            sleeps (loop script l).2 =
              take (length script) (drop (S k) steps ++ [])) as Hgen.
  { clear Hrun. induction Hfail as [|c script Hc _ IH]; intros k l Hk Hl.
    - rewrite loop_suspended by done. cbn [fst snd length].
      apply lookup_lt_Some in Hk. cbn [length steps] in Hk.
      rewrite Nat.add_0_r. by destruct (Nat.leb_spec 9 k); [lia|].
    - rewrite loop_running by done.
      destruct (iteration_fails_quietly c l Hc) as (Hsig & Hstop & Hdelay & Hsl).
      destruct (iteration c l) as [[o l1] t1]. cbn [fst snd] in *. subst o.
      destruct (Z.gtb_spec (delay l * 2) 30000) as [Hbig|Hsmall];
        destruct k as [|[|[|[|[|[|[|[|[|k]]]]]]]]]; try done;
        injection Hk as Hk; rewrite <- Hk in *; try lia; try done.
      all: match goal with
           | |- context [(9 <=? ?k + _)%nat] =>
               specialize (IH (S k) l1
                             ltac:(rewrite Hdelay; reflexivity)
                             ltac:(congruence))
           end;
        destruct (loop script l1) as [[x l2] t2]; cbn [fst snd] in *;
        rewrite sleeps_app, Hsl; destruct IH as (-> & ->);
        cbn [length]; rewrite Nat.add_succ_r; done. }
  destruct (Hgen 0%nat {| this := r; resourceVersion := JStr "0"; delay := 100 |}
              eq_refl Hrun) as (-> & ->).
  by rewrite app_nil_r.
Qed.

Lemma nine_failures_of_any_kind_witness :
  let c := quiet_cycle (ListResolved [pod "a" "x" "1"] (JStr "1"))
             {| delivered := [("MODIFIED", pod "a" "x" "2")];
                closed_with := Some (Error "ECONNRESET") |} in
  let run := watchAndUpdate (repeat c 9)
               (new_reflector "Pod" (JStr "a") false true) in
  Forall fails_quietly (repeat c 9) ∧
  run.1.1 = Broke BreakFailed ∧
  sleeps run.2 = [200; 400; 800; 1600; 3200; 6400; 12800; 25600].
Proof.
  cbv zeta.
  assert (Forall fails_quietly
            (repeat (quiet_cycle (ListResolved [pod "a" "x" "1"] (JStr "1"))
                       {| delivered := [("MODIFIED", pod "a" "x" "2")];
                          closed_with := Some (Error "ECONNRESET") |}) 9))
    as Hfail.
  { apply Forall_forall. intros c Hc.
    apply list_elem_of_In, repeat_spec in Hc as ->.
    repeat split. by eexists. }
  split; [exact Hfail|].
  exact (nine_failures_of_any_kind _
           (new_reflector "Pod" (JStr "a") false true) eq_refl Hfail).
Defined.

(** * The shared API clients *)

Lemma Client_step_cache k8s c s :
  Client.clientCache s ⊆ Client.clientCache (Client.step k8s c s).1 ∧
  Forall (λ x, Client.clientCache s !! Client.clientType x = None ∧
               Client.clientCache (Client.step k8s c s).1 !!
                 Client.clientType x = Some x)
    (Client.step k8s c s).2 ∧
  (length (Client.step k8s c s).2 <= 1)%nat.
Proof.
  assert (Client.clientCache s ⊆ Client.clientCache s ∧
          Forall (λ x, Client.clientCache s !! Client.clientType x = None ∧
                       Client.clientCache s !! Client.clientType x = Some x)
            [] ∧ (0 <= 1)%nat) as Hsame by (split; [done|split; [constructor|lia]]).
  destruct c as [host ca verify env|type]; cbn [Client.step fst snd].
  - unfold Client.loadConfig.
    by destruct (Client.loadFromCluster env);
      [destruct (Client.loadFromDefault env)|].
  - unfold Client.sharedClient.
    destruct (Client.kubeConfig s) as [cfg|]; [|done].
    destruct (Client.clientCache s !! type) as [x|] eqn:Hx; [done|].
    destruct (Client.known k8s type); [|done].
    destruct (Client.refuses k8s cfg type); [done|].
    cbn [fst snd Client.clientCache]. split; [by apply insert_subseteq|].
    split; [|done].
    constructor; [|constructor]. cbn [Client.clientType].
    split; [done|apply lookup_insert_eq].
Qed.

Lemma Client_step_loaded k8s c s :
  is_Some (Client.kubeConfig s) ->
  is_Some (Client.kubeConfig (Client.step k8s c s).1).
Proof.
  intros Hs. destruct c as [host ca verify env|type]; cbn [Client.step fst snd].
  - unfold Client.loadConfig.
    by destruct (Client.loadFromCluster env);
      [destruct (Client.loadFromDefault env)|].
  - unfold Client.sharedClient.
    destruct (Client.kubeConfig s) as [cfg|] eqn:Hcfg; [|done].
    destruct (Client.clientCache s !! type); [done|].
    destruct (Client.known k8s type); [|done].
    destruct (Client.refuses k8s cfg type); [done|].
    cbn [fst snd Client.kubeConfig]. by rewrite ?Hcfg.
Qed.

(** Over any sequence of calls the cache only grows, and every client made
    is made for a kind that was not cached, and stays cached. *)
Lemma Client_run_cache k8s calls s :
  Client.clientCache s ⊆ Client.clientCache (Client.run k8s calls s).1 ∧
  Forall (λ x, Client.clientCache s !! Client.clientType x = None ∧
               Client.clientCache (Client.run k8s calls s).1 !!
                 Client.clientType x = Some x)
    (Client.run k8s calls s).2 ∧
  NoDup (Client.clientType <$> (Client.run k8s calls s).2) ∧
  (is_Some (Client.kubeConfig s) ->
   is_Some (Client.kubeConfig (Client.run k8s calls s).1)).
Proof.
  revert s. induction calls as [|c calls IH]; intros s; cbn [Client.run fst snd].
  - split; [done|]. split; [constructor|]. split; [constructor|done].
  - destruct (Client_step_cache k8s c s) as (Hsub & Hmade & Hlen).
    pose proof (Client_step_loaded k8s c s) as Hloaded.
    destruct (IH (Client.step k8s c s).1) as (Hsub' & Hmade' & Hnd' & Hloaded').
    split; [by etrans|]. split; [|split; [|auto]].
    + apply Forall_app. split.
      * eapply Forall_impl; [apply Hmade|]. intros x [Hnone Hsome].
        split; [done|]. by eapply lookup_weaken.
      * eapply Forall_impl; [apply Hmade'|]. intros x [Hnone Hsome].
        split; [|done].
        destruct (Client.clientCache s !! Client.clientType x) eqn:Hx; [|done].
        eapply lookup_weaken in Hx; [|apply Hsub]. congruence.
    + rewrite fmap_app. apply NoDup_app. split; [|split; [|done]].
      * destruct (Client.step k8s c s).2 as [|x [|y more]]; cbn in *;
          [constructor|apply NoDup_singleton|lia].
      * intros type Hin Hin'.
        apply list_elem_of_fmap in Hin as (x & -> & Hx).
        apply list_elem_of_fmap in Hin' as (y & Heq & Hy).
        rewrite Forall_forall in Hmade, Hmade'.
        destruct (Hmade x Hx) as [_ Hsome]. destruct (Hmade' y Hy) as [Hnone _].
        congruence.
Qed.

(** X15. Only one instance per kind is instantiated: over any sequence of
    calls of [loadConfig] and [sharedClient], from any state of the module,
    no two clients are made for the same kind, and none is made for a kind
    that was already cached. *)
Theorem one_instance_per_kind
    (k8s : Client.library) (calls : list Client.call) (s : Client.state) :
  let made := (Client.run k8s calls s).2 in
  NoDup (Client.clientType <$> made) ∧
  Forall (λ x, Client.clientCache s !! Client.clientType x = None) made.
Proof.
  cbv zeta. destruct (Client_run_cache k8s calls s) as (_ & Hmade & Hnd & _).
  split; [done|]. eapply Forall_impl; [apply Hmade|]. by intros x [? _].
Qed.

(** X16. A client that [sharedClient] has returned for a kind is the one it
    returns for that kind ever after, whatever is called in between. In
    particular a later [loadConfig], with another host or another
    certificate, does not reach the clients already handed out: they keep
    the configuration they were made from. *)
Theorem shared_client_is_kept
    (k8s : Client.library) (type : string) (s : Client.state)
    (c : Client.client) (calls : list Client.call) :
  (Client.sharedClient k8s type s).1.1 = Return c ->
  let s1 := (Client.sharedClient k8s type s).1.2 in
  (Client.sharedClient k8s type (Client.run k8s calls s1).1).1.1 = Return c.
Proof.
  intros Hfirst. cbv zeta.
  assert (Client.clientCache (Client.sharedClient k8s type s).1.2 !! type = Some c ∧
          is_Some (Client.kubeConfig (Client.sharedClient k8s type s).1.2))
    as [Hcached Hloaded].
  { revert Hfirst. unfold Client.sharedClient.
    destruct (Client.kubeConfig s) as [cfg|] eqn:Hcfg; [|done].
    destruct (Client.clientCache s !! type) as [x|] eqn:Hx.
    - intros [= ->]. cbn [fst snd]. by rewrite ?Hcfg.
    - destruct (Client.known k8s type); [|done].
      destruct (Client.refuses k8s cfg type); [done|].
      intros [= <-]. cbn [fst snd Client.clientCache Client.kubeConfig].
      rewrite ?Hcfg. split; [apply lookup_insert_eq|done]. }
  destruct (Client_run_cache k8s calls (Client.sharedClient k8s type s).1.2)
    as (Hsub & _ & _ & Hloaded').
  destruct (Hloaded' Hloaded) as [cfg' Hcfg'].
  eapply lookup_weaken in Hcached; [|apply Hsub].
  unfold Client.sharedClient at 1. by rewrite Hcfg', Hcached.
Qed.

Lemma shared_client_is_kept_witness :
  let k8s := Client.sample_library in
  let env := Client.sample_loaders in
  let s := (Client.loadConfig JNull JNull true env Client.initial).2 in
  let first := Client.sharedClient k8s "CoreV1Api" s in
  let reload :=
    [Client.CallLoadConfig (JStr "https://prod:6443") JNull false env] in
  let again :=
    Client.sharedClient k8s "CoreV1Api" (Client.run k8s reload first.1.2).1 in
  Client.kubeConfig (Client.run k8s reload first.1.2).1 =
    Some {| Client.loaded := Client.FromDefault;
            Client.currentCluster :=
              Some {| Client.server := JStr "https://prod:6443";
                      Client.caFile := JUndefined;
                      Client.skipTLSVerify := true |} |} ∧
  again.1.1 =
    Return {| Client.clientType := "CoreV1Api";
              Client.made_from :=
                {| Client.loaded := Client.FromDefault;
                   Client.currentCluster := Some Client.dev |} |}.
Proof.
  cbv zeta. split; [reflexivity|].
  exact (shared_client_is_kept Client.sample_library "CoreV1Api"
           (Client.loadConfig JNull JNull true Client.sample_loaders
              Client.initial).2
           {| Client.clientType := "CoreV1Api";
              Client.made_from :=
                {| Client.loaded := Client.FromDefault;
                   Client.currentCluster := Some Client.dev |} |}
           [Client.CallLoadConfig (JStr "https://prod:6443") JNull false
              Client.sample_loaders]
           eq_refl).
Defined.

(** X17. [loadConfig] assigns the fresh [KubeConfig] before it loads it. When
    both loaders throw, [loadConfig] throws the error of the second, and the
    variable is left holding the object that was never loaded: the guard of
    [sharedClient] no longer fires, and a client is asked of that object. *)
Theorem failed_loadConfig_disarms_the_guard
    (k8s : Client.library) (host sslCaCert : jsval) (verifySsl : bool)
    (e1 e2 : error) (type : string) (s : Client.state) :
  let env := {| Client.loadFromCluster := inl e1;
                Client.loadFromDefault := inl e2 |} in
  let fresh := {| Client.loaded := Client.Unloaded;
                  Client.currentCluster := None |} in
  let failed := Client.loadConfig host sslCaCert verifySsl env s in
  failed.1 = Throw e2 ∧
  Client.kubeConfig failed.2 = Some fresh ∧
  Client.clientCache failed.2 = Client.clientCache s ∧
  (Client.sharedClient k8s type failed.2).1.1 =
    match Client.clientCache s !! type with
    | Some c => Return c
    | None =>
        if Client.known k8s type then
          match Client.refuses k8s fresh type with
          | Some err => Throw err
          | None => Return {| Client.clientType := type;
                              Client.made_from := fresh |}
          end
        else Throw (Error ("Invalid Kubernetes client type: " +:+ type))
    end.
Proof.
  cbv zeta. repeat split.
  unfold Client.sharedClient, Client.loadConfig.
  cbn [Client.loadFromCluster Client.loadFromDefault snd Client.kubeConfig
       Client.clientCache].
  destruct (Client.clientCache s !! type); [done|].
  destruct (Client.known k8s type); [|done].
  by destruct (Client.refuses k8s _ type).
Qed.

(** * Slugs *)

(** ** Units and alphabets *)

(** A fact about every unit below 256, by running through them. *)
Ltac every_unit c := destruct c as [[] [] [] [] [] [] [] []]; try reflexivity.

Lemma includes_alphaLower c :
  Slug.includes Slug._alphaLower [c] = Slug.is_lower c.
Proof. every_unit c. Qed.

Lemma includes_alphanumLower c :
  Slug.includes Slug._alphanumLower [c] = Slug.alphanum_lower c.
Proof. every_unit c. Qed.

Lemma includes_alphanum c :
  Slug.includes Slug._alphanum [c] =
  Slug.is_lower c || Slug.is_upper c || Slug.is_digit c.
Proof. every_unit c. Qed.

Lemma lower_is_object_unit c :
  Slug.is_lower c = true -> Slug.object_unit c = true.
Proof. by every_unit c. Qed.

Lemma hex_is_alphanum_lower c :
  Slug.is_hex c = true -> Slug.alphanum_lower c = true.
Proof. by every_unit c. Qed.

Lemma alphanum_lower_is_object_unit c :
  Slug.alphanum_lower c = true -> Slug.object_unit c = true.
Proof. by every_unit c. Qed.

Lemma object_unit_is_label_unit c :
  Slug.object_unit c = true -> Slug.label_unit c = true.
Proof. by every_unit c. Qed.

Lemma object_unit_cases c :
  Slug.object_unit c = true ->
  Slug.alphanum_lower c = true ∨ Slug.is_dash c = true.
Proof. every_unit c; auto. Qed.

(** ** What the two validity tests accept *)

Lemma isValidObjectName_spec s :
  Slug.isValidObjectName s = true ↔
  (length s <= 63)%nat ∧
  (∃ c, head s = Some c ∧ Slug.is_lower c = true) ∧
  (∃ c, last s = Some c ∧ Slug.alphanum_lower c = true) ∧
  forallb Slug.object_unit s = true.
Proof.
  unfold Slug.isValidObjectName, Slug.isValidGeneral.
  cbn [Slug.minLength Slug.maxLength Slug.startsWith Slug.endsWith
       Slug.pattern].
  change (Slug.given (Some Slug._alphaLower)) with (Some Slug._alphaLower).
  change (Slug.given (Some Slug._alphanumLower))
    with (Some Slug._alphanumLower).
  destruct s as [|c s];
    [split; [done|]; by intros (_ & (c & Hc & _) & _)|].
  assert ((Z.of_nat (length (c :: s)) <? 1) = false) as ->
    by (apply Z.ltb_ge; cbn [length]; lia).
  destruct (Z.ltb_spec 63 (Z.of_nat (length (c :: s)))) as [Hlong|Hlen].
  { split; [done|]. intros (? & _). lia. }
  cbn [head Slug.includes_unit]. rewrite includes_alphaLower.
  destruct (Slug.is_lower c) eqn:Hc; cbn [negb];
    [|split; [done|]; intros (_ & (c' & [= <-] & ?) & _); congruence].
  destruct (last (c :: s)) as [d|] eqn:Hlast;
    [|by apply last_None in Hlast].
  cbn [Slug.includes_unit]. rewrite includes_alphanumLower.
  destruct (Slug.alphanum_lower d) eqn:Hd; cbn [negb];
    [|split; [done|]; intros (_ & _ & (d' & [= <-] & ?) & _); congruence].
  unfold Slug._objectPattern. rewrite bool_decide_eq_false_2 by done.
  cbn [negb andb].
  destruct (forallb Slug.object_unit (c :: s)) eqn:Hall; cbn [negb].
  - split; [|done]. intros _. split; [cbn [length] in *; lia|].
    split; [by exists c|]. split; [by exists d|done].
  - split; [done|]. by intros (_ & _ & _ & ?).
Qed.

Lemma isValidLabel_intro s :
  (length s <= 63)%nat ->
  (∃ c, head s = Some c ∧
        Slug.is_lower c || Slug.is_upper c || Slug.is_digit c = true) ->
  (∃ c, last s = Some c ∧
        Slug.is_lower c || Slug.is_upper c || Slug.is_digit c = true) ->
  forallb Slug.label_unit s = true ->
  Slug.isValidLabel s = true.
Proof.
  intros Hlen (c & Hhead & Hc) (d & Hlast & Hd) Hall.
  unfold Slug.isValidLabel, Slug.isValidGeneral.
  destruct s as [|c' s]; [done|]. rewrite bool_decide_eq_false_2 by done.
  cbn [Slug.minLength Slug.maxLength Slug.startsWith Slug.endsWith
       Slug.pattern].
  change (Slug.given (Some Slug._alphanum)) with (Some Slug._alphanum).
  assert ((63 <? Z.of_nat (length (c' :: s))) = false) as ->
    by (apply Z.ltb_ge; lia).
  rewrite Hhead, Hlast. cbn [Slug.includes_unit].
  rewrite !includes_alphanum, Hc, Hd. cbn [negb].
  unfold Slug._labelPattern. rewrite bool_decide_eq_false_2 by done.
  by rewrite Hall.
Qed.

(** ** The steps of _extractSafeName *)

Lemma forallb_take {A} (P : A -> bool) k l :
  forallb P l = true -> forallb P (take k l) = true.
Proof.
  revert k. induction l as [|x l IH]; intros [|k] Hl; try done.
  cbn in *. apply andb_true_iff in Hl as [-> Hl]. by apply IH.
Qed.

Lemma forallb_drop {A} (P : A -> bool) k l :
  forallb P l = true -> forallb P (drop k l) = true.
Proof.
  revert k. induction l as [|x l IH]; intros [|k] Hl; try done.
  cbn in *. apply andb_true_iff in Hl as [_ Hl]. by apply IH.
Qed.

Lemma head_take {A} k (l : list A) x :
  head (take k l) = Some x -> head l = Some x.
Proof. by destruct k, l. Qed.

Lemma replace_runs_units b s :
  forallb Slug.object_unit (Slug.replace_runs b s) = true.
Proof.
  revert b. induction s as [|c s IH]; intros b; [done|].
  cbn [Slug.replace_runs].
  destruct (Slug.alphanum_lower c) eqn:Hc.
  - cbn [forallb]. by rewrite alphanum_lower_is_object_unit, IH.
  - destruct b; [apply IH|]. cbn [forallb]. by rewrite IH.
Qed.

Lemma strip_leading_drop s : ∃ k, Slug.strip_leading s = drop k s.
Proof.
  induction s as [|c s [k IH]]; [by exists 0%nat|].
  cbn [Slug.strip_leading]. destruct (Slug.is_dash c).
  - by exists (S k).
  - by exists 0%nat.
Qed.

Lemma strip_leading_head s c :
  head (Slug.strip_leading s) = Some c -> Slug.is_dash c = false.
Proof.
  induction s as [|c' s IH]; [done|]. cbn [Slug.strip_leading].
  destruct (Slug.is_dash c') eqn:Hc'; [done|]. by intros [= <-].
Qed.

Lemma slice0_take s e : ∃ k, Slug.slice0 s e = take k s.
Proof. unfold Slug.slice0. destruct (e <? 0); by eexists. Qed.

Lemma slice0_length s e :
  0 <= e -> Z.of_nat (length (Slug.slice0 s e)) <= e.
Proof.
  intros He. unfold Slug.slice0.
  assert ((e <? 0) = false) as -> by by apply Z.ltb_ge.
  rewrite length_take. lia.
Qed.

Lemma strip_trailing_take s : ∃ k, Slug.strip_trailing s = take k s.
Proof.
  induction s as [|c s [k IH]]; [by exists 0%nat|].
  cbn [Slug.strip_trailing]. destruct (Slug.strip_trailing s) as [|d t].
  - destruct (Slug.is_dash c); [by exists 0%nat|]. exists 1%nat.
    by destruct s.
  - exists (S k). cbn [take]. by rewrite IH.
Qed.

(** What [_extractSafeName] returns: a name that begins with a small letter,
    made of small letters, digits and dashes, and not longer than
    [maxLength] or 2. *)
Lemma extractSafeName_shape name m :
  let s := Slug._extractSafeName name m in
  (∃ c, head s = Some c ∧ Slug.is_lower c = true) ∧
  forallb Slug.object_unit s = true ∧
  (0 <= m -> Z.of_nat (length s) <= Z.max m 2).
Proof.
  cbv zeta. unfold Slug._extractSafeName.
  set (s1 := Slug.strip_leading (Slug.replace_runs false (Slug.toLowerCase name))).
  set (s3 := Slug.strip_trailing (Slug.slice0 s1 m)).
  assert (forallb Slug.object_unit s1 = true) as Hs1.
  { subst s1. destruct (strip_leading_drop
      (Slug.replace_runs false (Slug.toLowerCase name))) as [k ->].
    apply forallb_drop, replace_runs_units. }
  assert (forallb Slug.object_unit s3 = true) as Hs3.
  { subst s3. destruct (strip_trailing_take (Slug.slice0 s1 m)) as [k ->].
    destruct (slice0_take s1 m) as [k' ->]. by do 2 apply forallb_take. }
  assert (0 <= m -> Z.of_nat (length s3) <= m) as Hlen3.
  { intros Hm. subst s3.
    destruct (strip_trailing_take (Slug.slice0 s1 m)) as [k ->].
    rewrite length_take. pose proof (slice0_length s1 m Hm). lia. }
  assert (∀ c, head s3 = Some c -> Slug.alphanum_lower c = true) as Hhead3.
  { intros c Hc. subst s3.
    destruct (strip_trailing_take (Slug.slice0 s1 m)) as [k Hk].
    rewrite Hk in Hc. apply head_take in Hc.
    destruct (slice0_take s1 m) as [k' Hk']. rewrite Hk' in Hc.
    apply head_take in Hc.
    pose proof (strip_leading_head _ _ Hc) as Hdash.
    destruct s1 as [|c' s1']; [done|]. injection Hc as ->.
    cbn [forallb] in Hs1. apply andb_true_iff in Hs1 as [Hc _].
    destruct (object_unit_cases c Hc); congruence. }
  destruct s3 as [|c s3'] eqn:Hs3eq.
  - repeat split; [by exists "x"%char|]. intros Hm. cbn. lia.
  - cbn [Slug.includes_unit]. rewrite includes_alphaLower.
    destruct (Slug.is_lower c) eqn:Hc; cbn [negb].
    + repeat split; [by exists c|done|]. intros Hm. specialize (Hlen3 Hm). lia.
    + cbn [Slug.lit list_ascii_of_string app].
      repeat split; [by exists "x"%char| |].
      * destruct (slice0_take (c :: s3') (m - 2)) as [k ->].
        cbn [forallb]. by rewrite forallb_take.
      * intros Hm. cbn [length]. specialize (Hlen3 Hm).
        destruct (Z.le_gt_cases 2 m) as [H2|H2].
        -- pose proof (slice0_length (c :: s3') (m - 2) ltac:(lia)). lia.
        -- unfold Slug.slice0. assert ((m - 2 <? 0) = true) as -> by lia.
           rewrite length_take. cbn [length] in *. lia.
Qed.

(** ** Names that end in a hash *)

Lemma hash_slice digest fed :
  Slug.hex_digest digest ->
  let hash := Slug.slice0 (digest fed) Slug._hashLength in
  length hash = 8%nat ∧ forallb Slug.is_hex hash = true.
Proof.
  intros Hd. destruct (Hd fed) as [Hlen Hhex]. cbv zeta.
  unfold Slug.slice0, Slug._hashLength. cbn [Z.ltb Z.compare].
  split; [rewrite length_take; lia|by apply forallb_take].
Qed.

Lemma forallb_hex_object s :
  forallb Slug.is_hex s = true -> forallb Slug.object_unit s = true.
Proof.
  induction s as [|c s IH]; [done|]. cbn [forallb].
  intros [Hc Hs]%andb_true_iff.
  by rewrite (alphanum_lower_is_object_unit c (hex_is_alphanum_lower c Hc)), IH.
Qed.

Lemma last_hex s :
  length s = 8%nat -> forallb Slug.is_hex s = true ->
  ∃ c, last s = Some c ∧ Slug.alphanum_lower c = true.
Proof.
  intros Hlen Hhex. destruct (last s) as [c|] eqn:Hlast.
  - exists c. split; [done|]. apply hex_is_alphanum_lower.
    apply last_Some in Hlast as [s' ->].
    rewrite forallb_app in Hhex. apply andb_true_iff in Hhex as [_ Hc].
    cbn in Hc. by apply andb_true_iff in Hc as [Hc _].
  - apply last_None in Hlast. by subst s.
Qed.

Lemma hashed_valid safe hash :
  (∃ c, head safe = Some c ∧ Slug.is_lower c = true) ->
  forallb Slug.object_unit safe = true ->
  length hash = 8%nat -> forallb Slug.is_hex hash = true ->
  (length safe + 11 <= 63)%nat ->
  Slug.isValidObjectName (safe ++ Slug.lit "---" ++ hash) = true.
Proof.
  intros (c & Hhead & Hc) Hsafe Hlen Hhex Hbound.
  apply isValidObjectName_spec. repeat split.
  - rewrite !length_app, Hlen. cbn [Slug.lit list_ascii_of_string length]. lia.
  - exists c. split; [|done]. by destruct safe.
  - destruct (last_hex hash Hlen Hhex) as (d & Hlast & Hd).
    exists d. split; [|done]. by rewrite !last_app, Hlast.
  - rewrite !forallb_app, Hsafe, (forallb_hex_object hash Hhex). done.
Qed.

Lemma stripAndHash_returns digest name m :
  12 <= m ->
  Slug.stripAndHash digest name m =
  Return (Slug._extractSafeName name (m - 11) ++ Slug.lit "---" ++
          Slug.slice0 (digest [Slug.Utf8 name]) Slug._hashLength).
Proof.
  intros Hm. unfold Slug.stripAndHash.
  change (Slug._hashLength + 3) with 11.
  by assert ((m - 11 <? 1) = false) as -> by lia.
Qed.

Lemma stripAndHash_throws digest name m :
  m < 12 ->
  Slug.stripAndHash digest name m =
  Throw (Error "Cannot make safe names shorter than 12").
Proof.
  intros Hm. unfold Slug.stripAndHash.
  change (Slug._hashLength + 3) with 11.
  by assert ((m - 11 <? 1) = true) as -> by lia.
Qed.

Lemma stripAndHash_valid digest name m :
  Slug.hex_digest digest -> 12 <= m <= 63 ->
  ∃ s, Slug.stripAndHash digest name m = Return s ∧
       Slug.isValidObjectName s = true ∧
       (13 <= m -> Z.of_nat (length s) <= m).
Proof.
  intros Hd [Hlo Hhi]. eexists. split; [by apply stripAndHash_returns|].
  destruct (hash_slice digest [Slug.Utf8 name] Hd) as [Hlen Hhex].
  destruct (extractSafeName_shape name (m - 11)) as (Hhead & Hall & Hbound).
  specialize (Hbound ltac:(lia)). split.
  - apply hashed_valid; try done. lia.
  - intros H13. rewrite !length_app, Hlen.
    cbn [Slug.lit list_ascii_of_string length]. lia.
Qed.

Lemma includes_app_r a b needle :
  Slug.includes b needle = true -> Slug.includes (a ++ b) needle = true.
Proof.
  intros Hb. induction a as [|c a IH]; [done|].
  cbn [app Slug.includes]. rewrite IH. apply orb_true_r.
Qed.

Lemma includes_hashed safe hash :
  Slug.includes (safe ++ Slug.lit "---" ++ hash) (Slug.lit "--") = true.
Proof. by apply includes_app_r. Qed.


(** ** [join] of safe names *)

Lemma join_units_cons sep x l :
  Slug.join_units sep (x :: l) =
  match l with [] => x | _ :: _ => x ++ sep ++ Slug.join_units sep l end.
Proof. done. Qed.

Lemma join_units_head sep x l c :
  head x = Some c -> head (Slug.join_units sep (x :: l)) = Some c.
Proof. rewrite join_units_cons. by destruct l, x. Qed.

Lemma join_units_forallb P sep l :
  forallb P sep = true -> Forall (λ x, forallb P x = true) l ->
  forallb P (Slug.join_units sep l) = true.
Proof.
  intros Hsep. induction 1 as [|x l Hx Hl IH]; [done|].
  rewrite join_units_cons. destruct l; [done|].
  by rewrite !forallb_app, Hx, Hsep, IH.
Qed.

Lemma join_units_length k l :
  0 <= k -> Forall (λ x, Z.of_nat (length x) <= k) l ->
  Z.of_nat (length (Slug.join_units (Slug.lit "--") l)) + 2 <=
  Z.max 2 (Z.of_nat (length l) * (k + 2)).
Proof.
  intros Hk. induction 1 as [|x l Hx Hl IH]; [done|].
  rewrite join_units_cons. destruct l as [|y l].
  - cbn [length]. lia.
  - rewrite !length_app.
    change (length (Slug.lit "--")) with 2%nat.
    cbn [length] in *. nia.
Qed.

Lemma multiSlug_returns digest first others m :
  4 * Z.of_nat (S (length others)) + 11 <= m ->
  Slug.multiSlug digest first others m =
  Return (Slug.join_units (Slug.lit "--")
            (map (λ name, Slug._extractSafeName name
                            ((m - 11) / Z.of_nat (S (length others)) - 2))
               (first :: others)) ++
          Slug.lit "---" ++
          Slug.slice0 (digest (Slug.Utf8 first ::
                        flat_map (λ n, [Slug.Raw [255%N]; Slug.Utf8 n]) others))
            Slug._hashLength).
Proof.
  intros Hm. unfold Slug.multiSlug.
  change (Slug._hashLength + 3) with 11. cbn [length].
  assert (4 <= (m - 11) / Z.of_nat (S (length others))) as Hq
    by (apply Z.div_le_lower_bound; lia).
  revert Hq. generalize ((m - 11) / Z.of_nat (S (length others))).
  intros q Hq. by assert ((q - 2 <? 2) = false) as -> by lia.
Qed.

(** X18. stripAndHash: for every name and every maxLength from 12 to 63 the
    result is a valid Kubernetes object name, whatever units the name holds;
    from maxLength 13 on it is no longer than maxLength. The digest is only
    known to be 64 hexadecimal digits in lower case. *)
Theorem stripAndHash_is_a_valid_object_name digest name maxLength :
  Slug.hex_digest digest -> 12 <= maxLength <= 63 ->
  ∃ s, Slug.stripAndHash digest name maxLength = Return s ∧
       Slug.isValidObjectName s = true ∧
       (13 <= maxLength -> Z.of_nat (length s) <= maxLength).
Proof. apply stripAndHash_valid. Qed.

Lemma zero_digest_hex : Slug.hex_digest Slug.zero_digest.
Proof. by intros fed. Qed.

Lemma stripAndHash_is_a_valid_object_name_witness :
  ∃ s, Slug.stripAndHash Slug.zero_digest (Slug.lit "My Server!") 32 = Return s ∧
       Slug.isValidObjectName s = true ∧
       (13 <= 32 -> Z.of_nat (length s) <= 32).
Proof.
  apply (stripAndHash_is_a_valid_object_name Slug.zero_digest
           (Slug.lit "My Server!") 32 zero_digest_hex).
  lia.
Defined.

(** X19. stripAndHash at its smallest accepted maxLength, 12: a name that
    begins with a digit gives "x-", three dashes and the hash, 13 units, one
    more than maxLength. *)
Theorem stripAndHash_overruns_at_12 digest c rest :
  Slug.hex_digest digest -> Slug.is_digit c = true ->
  ∃ s, Slug.stripAndHash digest (c :: rest) 12 = Return s ∧
       s = Slug.lit "x----" ++ take 8 (digest [Slug.Utf8 (c :: rest)]) ∧
       length s = 13%nat.
Proof.
  intros Hd Hc. eexists. split; [by apply stripAndHash_returns|].
  destruct (hash_slice digest [Slug.Utf8 (c :: rest)] Hd) as [Hlen _].
  assert (Slug._extractSafeName (c :: rest) (12 - 11) = Slug.lit "x-") as Hx.
  { unfold Slug._extractSafeName, Slug.toLowerCase. cbn [map].
    assert (Slug.lower_unit c = c) as -> by (revert Hc; every_unit c; done).
    cbn [Slug.replace_runs].
    assert (Slug.alphanum_lower c = true) as ->
      by (unfold Slug.alphanum_lower; rewrite Hc; apply orb_true_r).
    cbn [Slug.strip_leading].
    assert (Slug.is_dash c = false) as Hdash by (revert Hc; every_unit c; done).
    rewrite Hdash.
    change (Slug.slice0 (c :: ?t) (12 - 11)) with [c].
    cbn [Slug.strip_trailing]. rewrite Hdash.
    cbn [Slug.includes_unit]. rewrite includes_alphaLower.
    assert (Slug.is_lower c = false) as -> by (revert Hc; every_unit c; done).
    done. }
  rewrite Hx. split; [done|].
  rewrite !length_app, Hlen. done.
Qed.

Lemma stripAndHash_overruns_at_12_witness :
  ∃ s, Slug.stripAndHash Slug.zero_digest (Slug.lit "1") 12 = Return s ∧
       s = Slug.lit "x----" ++ take 8 (Slug.zero_digest [Slug.Utf8 (Slug.lit "1")]) ∧
       length s = 13%nat.
Proof.
  apply (stripAndHash_overruns_at_12 Slug.zero_digest "1"%char []
           zero_digest_hex).
  reflexivity.
Defined.

(** X20. safeSlug with the default validator: whenever [maxLength || 32] lies
    between 12 and 63 (so for no maxLength at all, for 0, and for 12 to 63)
    it returns, and what it returns is a valid object name, for every
    input. *)
Theorem safeSlug_is_always_valid digest name maxLength :
  Slug.hex_digest digest -> 12 <= Slug.or_32 maxLength <= 63 ->
  ∃ s, Slug.safeSlug digest name Slug.isValidDefault maxLength = Return s ∧
       Slug.isValidObjectName s = true.
Proof.
  intros Hd Hm. unfold Slug.safeSlug.
  destruct (stripAndHash_valid digest name _ Hd Hm) as (s & Hs & Hvalid & _).
  destruct (Slug.includes name (Slug.lit "--")); [by exists s|].
  destruct (Slug.isValidDefault name) eqn:Hname; cbn [andb]; [|by exists s].
  destruct (match maxLength with
            | Some m => Z.of_nat (length name) <=? m
            | None => true
            end); [by exists name|by exists s].
Qed.

Lemma safeSlug_is_always_valid_witness :
  ∃ s, Slug.safeSlug Slug.zero_digest (Slug.lit "a--B") Slug.isValidDefault None
       = Return s ∧
       Slug.isValidObjectName s = true.
Proof.
  apply (safeSlug_is_always_valid Slug.zero_digest (Slug.lit "a--B") None
           zero_digest_hex).
  cbn. lia.
Defined.

(** X21. safeSlug is not idempotent on hashed names: whatever stripAndHash
    returns holds "--", so safeSlug hashes it again, with any validator and
    any maxLength, rather than returning it as it is. *)
Theorem safeSlug_hashes_a_hashed_name_again digest name m s isValid maxLength :
  Slug.stripAndHash digest name m = Return s ->
  Slug.safeSlug digest s isValid maxLength =
  Slug.stripAndHash digest s (Slug.or_32 maxLength).
Proof.
  intros Hs. destruct (Z.lt_ge_cases m 12) as [Hm|Hm].
  - by rewrite stripAndHash_throws in Hs.
  - rewrite stripAndHash_returns in Hs by done.
    assert (s = Slug._extractSafeName name (m - 11) ++ Slug.lit "---" ++
                Slug.slice0 (digest [Slug.Utf8 name]) Slug._hashLength) as ->
      by congruence.
    unfold Slug.safeSlug. by rewrite includes_hashed.
Qed.

Lemma safeSlug_hashes_a_hashed_name_again_witness :
  Slug.safeSlug Slug.zero_digest (Slug.lit "my-server---00000000")
    Slug.isValidDefault None =
  Slug.stripAndHash Slug.zero_digest (Slug.lit "my-server---00000000") 32.
Proof.
  apply (safeSlug_hashes_a_hashed_name_again Slug.zero_digest
           (Slug.lit "My Server") 32 _ Slug.isValidDefault None).
  reflexivity.
Defined.

(** X22. Every valid object name is a valid label. *)
Theorem object_names_are_labels s :
  Slug.isValidObjectName s = true -> Slug.isValidLabel s = true.
Proof.
  intros (Hlen & (c & Hhead & Hc) & (d & Hlast & Hd) & Hall)%isValidObjectName_spec.
  apply isValidLabel_intro; [done| | |].
  - exists c. split; [done|]. by rewrite Hc.
  - exists d. split; [done|].
    unfold Slug.alphanum_lower in Hd.
    destruct (Slug.is_lower d), (Slug.is_digit d); try done;
      by rewrite ?orb_true_r.
  - clear -Hall. induction s as [|x s IH]; [done|]. cbn [forallb] in *.
    apply andb_true_iff in Hall as [Hx Hs].
    by rewrite (object_unit_is_label_unit x Hx), IH.
Qed.

Lemma object_names_are_labels_witness :
  Slug.isValidLabel (Slug.lit "my-server-1") = true.
Proof.
  apply (object_names_are_labels (Slug.lit "my-server-1")). reflexivity.
Defined.

(** X23. multiSlug: with room for four units a name besides the 11 of the
    hash (4 * names.length + 11 <= maxLength) it returns a slug that is no
    longer than maxLength and, for maxLength up to 63, a valid object name,
    whatever the names hold. *)
Theorem multiSlug_fits_and_is_valid digest first others maxLength :
  Slug.hex_digest digest ->
  4 * Z.of_nat (S (length others)) + 11 <= maxLength ->
  ∃ s, Slug.multiSlug digest first others maxLength = Return s ∧
       Z.of_nat (length s) <= maxLength ∧
       (maxLength <= 63 -> Slug.isValidObjectName s = true).
Proof.
  intros Hd Hm. eexists. split; [by apply multiSlug_returns|].
  set (n := Z.of_nat (S (length others))) in *.
  set (k := (maxLength - 11) / n - 2).
  assert (0 < n) as Hn by (subst n; lia).
  assert (4 <= (maxLength - 11) / n) as H4
    by (apply Z.div_le_lower_bound; lia).
  assert (n * ((maxLength - 11) / n) <= maxLength - 11) as Hdiv
    by (apply Z.mul_div_le; lia).
  match goal with
  | |- context [Slug.slice0 (digest ?fed) _] =>
      destruct (hash_slice digest fed Hd) as [Hlen Hhex]
  end.
  set (slugs := map (λ name, Slug._extractSafeName name k) (first :: others)).
  assert (Forall (λ x, forallb Slug.object_unit x = true) slugs) as Hunits.
  { apply Forall_map, Forall_forall. intros name _.
    apply (extractSafeName_shape name k). }
  assert (Forall (λ x, Z.of_nat (length x) <= k) slugs) as Hlens.
  { apply Forall_map, Forall_forall. intros name _.
    destruct (extractSafeName_shape name k) as (_ & _ & Hb).
    cbn beta. specialize (Hb ltac:(lia)). lia. }
  pose proof (join_units_length k slugs ltac:(lia) Hlens) as Hjoin.
  assert (length slugs = S (length others)) as Hslugs
    by (subst slugs; by rewrite length_map).
  rewrite Hslugs in Hjoin. fold n in Hjoin.
  assert (Z.of_nat (length (Slug.join_units (Slug.lit "--") slugs)) + 11
          <= maxLength) as Hfit by nia.
  split.
  - rewrite !length_app, Hlen.
    change (length (Slug.lit "---")) with 3%nat. lia.
  - intros H63. apply hashed_valid; try done.
    + destruct (extractSafeName_shape first k) as ((c & Hhead & Hc) & _).
      exists c. split; [|done]. subst slugs. cbn [map].
      by apply join_units_head.
    + by apply join_units_forallb.
    + lia.
Qed.

Lemma multiSlug_fits_and_is_valid_witness :
  ∃ s, Slug.multiSlug Slug.zero_digest (Slug.lit "Alice")
         [Slug.lit "My Server"] 48 = Return s ∧
       Z.of_nat (length s) <= 48 ∧
       (48 <= 63 -> Slug.isValidObjectName s = true).
Proof.
  apply (multiSlug_fits_and_is_valid Slug.zero_digest (Slug.lit "Alice")
           [Slug.lit "My Server"] 48 zero_digest_hex).
  cbn. lia.
Defined.

(** X24. multiSlug refuses, with its error, exactly below that room: when
    maxLength < 4 * names.length + 11. With the default maxLength of 48 that
    is from ten names on. *)
Theorem multiSlug_needs_four_units_a_name digest first others maxLength :
  maxLength < 4 * Z.of_nat (S (length others)) + 11 ->
  Slug.multiSlug digest first others maxLength =
  Throw (Error ("Not enough characters for " +:+
                template_num (Z.of_nat (S (length others))) +:+
                " names: " +:+ template_num maxLength)).
Proof.
  intros Hm. unfold Slug.multiSlug.
  change (Slug._hashLength + 3) with 11. cbn [length].
  assert ((maxLength - 11) / Z.of_nat (S (length others)) < 4) as Hq
    by (apply Z.div_lt_upper_bound; lia).
  revert Hq. generalize ((maxLength - 11) / Z.of_nat (S (length others))).
  intros q Hq. by assert ((q - 2 <? 2) = true) as -> by lia.
Qed.

Lemma multiSlug_needs_four_units_a_name_witness :
  Slug.multiSlug Slug.zero_digest (Slug.lit "a")
    (repeat (Slug.lit "b") 9) 48 =
  Throw (Error "Not enough characters for 10 names: 48").
Proof.
  apply (multiSlug_needs_four_units_a_name Slug.zero_digest (Slug.lit "a")
           (repeat (Slug.lit "b") 9) 48).
  cbn. lia.
Defined.

(** X25. multiSlug of a single name is stripAndHash of that name with two
    units less: for maxLength from 15 on,
    multiSlug([name], maxLength) = stripAndHash(name, maxLength - 2). *)
Theorem multiSlug_of_one_name digest name maxLength :
  15 <= maxLength ->
  Slug.multiSlug digest name [] maxLength =
  Slug.stripAndHash digest name (maxLength - 2).
Proof.
  intros Hm. rewrite multiSlug_returns by (cbn [length]; lia).
  rewrite stripAndHash_returns by lia.
  cbn [length map flat_map Slug.join_units].
  change (Z.of_nat 1) with 1. rewrite Z.div_1_r.
  by replace (maxLength - 2 - 11) with (maxLength - 11 - 2) by lia.
Qed.

Lemma multiSlug_of_one_name_witness :
  Slug.multiSlug Slug.zero_digest (Slug.lit "My Server") [] 48 =
  Slug.stripAndHash Slug.zero_digest (Slug.lit "My Server") 46.
Proof.
  apply (multiSlug_of_one_name Slug.zero_digest (Slug.lit "My Server") 48).
  lia.
Defined.


(** ** Utilities *)

Lemma toLowerCase_length s : length (Slug.toLowerCase s) = length s.
Proof. apply length_map. Qed.

Lemma is_dot_eq c : Util.is_dot c = true -> c = "."%char.
Proof. apply Ascii.eqb_eq. Qed.

Lemma split_dot_free s : dot_free s -> Util.split_dot s = [s].
Proof.
  unfold dot_free. induction s as [|c s IH]; [done|].
  cbn [forallb Util.split_dot]. intros [Hc Hs]%andb_true_iff.
  apply negb_true_iff in Hc. by rewrite Hc, IH.
Qed.

Lemma split_dot_label label rest :
  dot_free label ->
  Util.split_dot (label ++ Slug.lit "." ++ rest) = label :: Util.split_dot rest.
Proof.
  unfold dot_free. induction label as [|c label IH]; [done|].
  cbn [forallb app Util.split_dot]. intros [Hc Hs]%andb_true_iff.
  apply negb_true_iff in Hc. by rewrite Hc, IH.
Qed.

Lemma split_dot_cases s :
  dot_free s ∨
  ∃ label rest, dot_free label ∧ s = label ++ Slug.lit "." ++ rest.
Proof.
  induction s as [|c s IH]; [by left|].
  destruct (Util.is_dot c) eqn:Hc.
  - right. exists [], s. split; [done|]. by rewrite (is_dot_eq c Hc).
  - destruct IH as [Hs|(label & rest & Hlabel & ->)].
    + left. unfold dot_free in *. cbn [forallb]. by rewrite Hc, Hs.
    + right. exists (c :: label), rest. split; [|done].
      unfold dot_free in *. cbn [forallb]. by rewrite Hc, Hlabel.
Qed.

Lemma split_dot_nonempty s : Util.split_dot s ≠ [].
Proof.
  destruct s as [|c s]; [done|]. cbn [Util.split_dot].
  destruct (Util.is_dot c); [done|]. by destruct (Util.split_dot s).
Qed.

Lemma join_split_dot s :
  Slug.join_units (Slug.lit ".") (Util.split_dot s) = s.
Proof.
  induction s as [|c s IH]; [done|]. cbn [Util.split_dot].
  pose proof (split_dot_nonempty s) as Hne.
  destruct (Util.split_dot s) as [|part parts]; [done|].
  destruct (Util.is_dot c) eqn:Hc.
  - rewrite (join_units_cons _ [] (part :: parts)), IH.
    by rewrite (is_dot_eq c Hc).
  - rewrite join_units_cons in IH. rewrite join_units_cons.
    destruct parts; by subst s.
Qed.

Lemma after_first_free s :
  dot_free s -> Util.after_first (Util.split_dot s) = [].
Proof. intros Hs. by rewrite split_dot_free. Qed.

Lemma after_first_label label rest :
  dot_free label ->
  Util.after_first (Util.split_dot (label ++ Slug.lit "." ++ rest)) = rest.
Proof.
  intros Hl. rewrite split_dot_label by done.
  unfold Util.after_first. cbn [drop]. apply join_split_dot.
Qed.

(** X27. hostMatching with a wildcard "*.domain": a host matches exactly
    when it is one label without a dot, a dot, and the domain; two labels
    before the domain do not match, the bare domain does not match, and an
    empty label does. The wildcard "*." alone also matches every host
    without a dot. *)
Theorem hostMatching_wildcard_is_one_label host domain :
  Util.hostMatching host (Slug.lit "*." ++ domain) = true <->
  (∃ label, dot_free label ∧ host = label ++ Slug.lit "." ++ domain) ∨
  (domain = [] ∧ dot_free host).
Proof.
  unfold Util.hostMatching.
  change (Slug.starts_with (Slug.lit "*.") (Slug.lit "*." ++ domain)) with true.
  cbn [negb].
  change (Slug.lit "*." ++ domain) with (Slug.lit "*" ++ Slug.lit "." ++ domain).
  rewrite (after_first_label (Slug.lit "*") domain) by done.
  rewrite bool_decide_eq_true.
  destruct (split_dot_cases host) as [Hfree|(label & rest & Hlabel & ->)].
  - rewrite after_first_free by done. split.
    + intros <-. by right.
    + intros [(label & Hlabel & ->)|[-> _]]; [|done].
      exfalso. unfold dot_free in Hfree.
      rewrite !forallb_app in Hfree.
      by apply andb_true_iff in Hfree as [_ Hfree].
  - rewrite after_first_label by done. split.
    + intros ->. left. by exists label.
    + intros [(label' & Hlabel' & Heq)|[-> Hfree]].
      * assert (Util.after_first (Util.split_dot (label ++ Slug.lit "." ++ rest))
                = Util.after_first
                    (Util.split_dot (label' ++ Slug.lit "." ++ domain)))
          as Hafter by by rewrite Heq.
        by rewrite !after_first_label in Hafter.
      * exfalso. unfold dot_free in Hfree.
        rewrite !forallb_app in Hfree.
        by apply andb_true_iff in Hfree as [_ Hfree].
Qed.

(** ** The name of a route's ingress *)

Lemma replaced_unit_is_object_unit c :
  Slug.object_unit
    (Slug.lower_unit (if KubeIngressProxy.alphanum_i c then c else "-"%char))
  = true.
Proof. every_unit c. Qed.

Lemma replace_each_units s :
  forallb Slug.object_unit (Slug.toLowerCase (KubeIngressProxy.replace_each s))
  = true.
Proof.
  induction s as [|c s IH]; [done|].
  cbn [KubeIngressProxy.replace_each Slug.toLowerCase map forallb].
  rewrite replaced_unit_is_object_unit. apply IH.
Qed.

(** X28. _safeNameForRoutespec: the name is 17 units longer than the
    routespec ("jupyter-", a dash and 8 digits of the hash), and it is a
    valid object name exactly when the routespec has at most 46 units:
    longer routespecs give names over the 63 units allowed. *)
Theorem safeNameForRoutespec_valid_up_to_46 digest routespec :
  Slug.hex_digest digest ->
  length (KubeIngressProxy._safeNameForRoutespec digest routespec)
    = (length routespec + 17)%nat ∧
  (Slug.isValidObjectName
     (KubeIngressProxy._safeNameForRoutespec digest routespec) = true
   <-> (length routespec <= 46)%nat).
Proof.
  intros Hd.
  destruct (hash_slice digest [Slug.Utf8 routespec] Hd) as [Hlen Hhex].
  change (Slug.slice0 (digest [Slug.Utf8 routespec]) Slug._hashLength)
    with (take 8 (digest [Slug.Utf8 routespec])) in Hlen, Hhex.
  assert (length (KubeIngressProxy._safeNameForRoutespec digest routespec)
          = (length routespec + 17)%nat) as Hlength.
  { unfold KubeIngressProxy._safeNameForRoutespec.
    rewrite !length_app, toLowerCase_length, Hlen.
    unfold KubeIngressProxy.replace_each. rewrite length_map.
    change (length (Slug.lit "jupyter-")) with 8%nat.
    change (length (Slug.lit "-")) with 1%nat. lia. }
  split; [done|]. rewrite isValidObjectName_spec, Hlength. split.
  - intros [? _]. lia.
  - intros Hr. split; [lia|]. unfold KubeIngressProxy._safeNameForRoutespec.
    split; [by exists "j"%char|]. split.
    + destruct (last_hex _ Hlen Hhex) as (d & Hlast & Hd').
      exists d. split; [|done]. by rewrite !last_app, Hlast.
    + rewrite !forallb_app, replace_each_units, (forallb_hex_object _ Hhex).
      done.
Qed.

Lemma safeNameForRoutespec_valid_up_to_46_witness :
  length (KubeIngressProxy._safeNameForRoutespec Slug.zero_digest
            (Slug.lit "/user/Alice/"))
    = (length (Slug.lit "/user/Alice/") + 17)%nat ∧
  (Slug.isValidObjectName
     (KubeIngressProxy._safeNameForRoutespec Slug.zero_digest
        (Slug.lit "/user/Alice/")) = true
   <-> (length (Slug.lit "/user/Alice/") <= 46)%nat).
Proof.
  apply (safeNameForRoutespec_valid_up_to_46 Slug.zero_digest
           (Slug.lit "/user/Alice/") zero_digest_hex).
Defined.


(** ** The variables an environment variable refers to *)

Lemma is_close_eq c : Objects.is_close c = true -> c = ")"%char.
Proof. apply Ascii.eqb_eq. Qed.

Lemma run_spec s taken rest :
  Objects.run s = (taken, rest) -> s = taken ++ rest ∧ close_free taken.
Proof.
  revert taken rest. induction s as [|c s IH]; intros taken rest.
  - by intros [= <- <-].
  - cbn [Objects.run]. destruct (Objects.is_close c) eqn:Hc.
    + by intros [= <- <-].
    + destruct (Objects.run s) as [taken' rest'].
      intros [= <- <-]. destruct (IH _ _ eq_refl) as [-> Hfree].
      split; [done|]. unfold close_free in *. cbn [forallb].
      by rewrite Hc, Hfree.
Qed.

Lemma match_at_spec s group rest :
  Objects.match_at s = Some (group, rest) ->
  s = Slug.lit "$(" ++ group ++ Slug.lit ")" ++ rest ∧
  group ≠ [] ∧ close_free group.
Proof.
  unfold Objects.match_at. destruct s as [|a [|b s]]; try done.
  destruct (Ascii.eqb a "$") eqn:Ha; [|done].
  destruct (Ascii.eqb b "(") eqn:Hb; [|done]. cbn [andb].
  apply Ascii.eqb_eq in Ha as ->. apply Ascii.eqb_eq in Hb as ->.
  destruct (Objects.run s) as [[|c taken] [|d rest']] eqn:Hrun; try done.
  destruct (Objects.is_close d) eqn:Hd; [|done]. intros [= <- <-].
  apply run_spec in Hrun as [-> Hfree]. by rewrite (is_close_eq d Hd).
Qed.

Lemma starts_with_app needle rest :
  Slug.starts_with needle (needle ++ rest) = true.
Proof.
  induction needle as [|c needle IH]; [done|].
  cbn [app Slug.starts_with]. by rewrite Ascii.eqb_refl, IH.
Qed.

Lemma includes_starts needle s :
  Slug.starts_with needle s = true -> Slug.includes s needle = true.
Proof. intros H. destruct s; cbn [Slug.includes]; by rewrite H. Qed.

Lemma includes_cons c s needle :
  Slug.includes s needle = true -> Slug.includes (c :: s) needle = true.
Proof. apply (includes_app_r [c]). Qed.

Lemma reference_assoc group rest :
  Slug.lit "$(" ++ group ++ Slug.lit ")" ++ rest =
  (Slug.lit "$(" ++ group ++ Slug.lit ")") ++ rest.
Proof. by rewrite <-!app_assoc. Qed.

Lemma matchAll_from_spec steps s group :
  group ∈ Objects.matchAll_from steps s ->
  group ≠ [] ∧ close_free group ∧
  Slug.includes s (Slug.lit "$(" ++ group ++ Slug.lit ")") = true.
Proof.
  revert s. induction steps as [|n IH]; intros s; [by intros ?%elem_of_nil|].
  cbn [Objects.matchAll_from].
  destruct (Objects.match_at s) as [[g rest]|] eqn:Hat.
  - apply match_at_spec in Hat as (-> & Hne & Hfree).
    intros [->|Hin]%elem_of_cons.
    + repeat split; try done. apply includes_starts.
      rewrite reference_assoc. apply starts_with_app.
    + destruct (IH _ Hin) as (? & ? & Hinc). repeat split; try done.
      rewrite reference_assoc. by apply includes_app_r.
  - destruct s as [|c s]; [by intros ?%elem_of_nil|].
    intros Hin. destruct (IH _ Hin) as (? & ? & Hinc).
    repeat split; try done. by apply includes_cons.
Qed.

Lemma match_at_shorter s group rest :
  Objects.match_at s = Some (group, rest) -> (length rest < length s)%nat.
Proof.
  intros (-> & _ & _)%match_at_spec. rewrite !length_app.
  change (length (Slug.lit "$(")) with 2%nat. lia.
Qed.

(** More steps than the value has units find nothing more. *)
Lemma matchAll_from_enough n m s :
  (length s <= n)%nat -> (length s <= m)%nat ->
  Objects.matchAll_from n s = Objects.matchAll_from m s.
Proof.
  revert m s. induction n as [|n IH]; intros m s Hn Hm.
  - destruct s; [|cbn in Hn; lia]. by destruct m.
  - destruct m as [|m].
    + destruct s; [done|cbn in Hm; lia].
    + cbn [Objects.matchAll_from].
      destruct (Objects.match_at s) as [[g rest]|] eqn:Hat.
      * apply match_at_shorter in Hat. f_equal. apply IH; lia.
      * destruct s as [|c s]; [done|]. cbn [length] in *. apply IH; lia.
Qed.

Lemma Set_of_elem l x : x ∈ Objects.Set_of l -> x ∈ l.
Proof.
  unfold Objects.Set_of.
  assert (∀ seen, x ∈ foldl (λ seen x,
            if bool_decide (x ∈ seen) then seen else seen ++ [x]) seen l ->
          x ∈ seen ∨ x ∈ l) as Hgen.
  { induction l as [|y l IH]; intros seen; [by left|]. cbn [foldl].
    intros [Hin|Hin]%IH; [|right; by apply elem_of_cons; right].
    destruct (bool_decide (y ∈ seen)); [by left|].
    apply elem_of_app in Hin as [Hin|Hin%list_elem_of_singleton]; [by left|].
    right. apply elem_of_cons. by left. }
  intros [Hin|Hin]%Hgen; [by apply elem_of_nil in Hin|done].
Qed.

(** X29. _getEnvVarDeps: every dependency it reports is the name between
    "$(" and ")" somewhere in the value; it is not empty, holds no closing
    parenthesis, and is never the variable's own name. *)
Theorem env_deps_are_references_to_others v dep :
  dep ∈ Objects._getEnvVarDeps v ->
  Some dep ≠ Objects.name v ∧ dep ≠ [] ∧ close_free dep ∧
  ∃ s, Objects.value v = Some s ∧
       Slug.includes s (Slug.lit "$(" ++ dep ++ Slug.lit ")") = true.
Proof.
  unfold Objects._getEnvVarDeps.
  destruct (Objects.value v) as [[|c s]|]; try by intros ?%elem_of_nil.
  intros [Hname Hin]%Set_of_elem%list_elem_of_filter.
  destruct (matchAll_from_spec _ _ _ Hin) as (Hne & Hfree & Hinc).
  repeat split; try done. by exists (c :: s).
Qed.

Lemma env_deps_are_references_to_others_witness :
  Some (Slug.lit "HOME") ≠ Some (Slug.lit "PATH") ∧ Slug.lit "HOME" ≠ [] ∧
  close_free (Slug.lit "HOME") ∧
  ∃ s, Some (Slug.lit "$(PATH):$(HOME)/bin") = Some s ∧
       Slug.includes s (Slug.lit "$(" ++ Slug.lit "HOME" ++ Slug.lit ")") = true.
Proof.
  apply (env_deps_are_references_to_others
           {| Objects.name := Some (Slug.lit "PATH");
              Objects.value := Some (Slug.lit "$(PATH):$(HOME)/bin") |}
           (Slug.lit "HOME")).
  apply (bool_decide_unpack _). reflexivity.
Defined.

Lemma run_close_free group rest :
  close_free group ->
  Objects.run (group ++ Slug.lit ")" ++ rest) = (group, Slug.lit ")" ++ rest).
Proof.
  unfold close_free. induction group as [|c group IH]; [done|].
  cbn [forallb app Objects.run]. intros [Hc Hg]%andb_true_iff.
  apply negb_true_iff in Hc. by rewrite Hc, IH.
Qed.

Lemma match_at_reference group rest :
  group ≠ [] -> close_free group ->
  Objects.match_at (Slug.lit "$(" ++ group ++ Slug.lit ")" ++ rest)
  = Some (group, rest).
Proof.
  intros Hne Hfree. cbn [Slug.lit list_ascii_of_string app Objects.match_at].
  change (Ascii.eqb "$" "$" && Ascii.eqb "(" "(") with true. cbv iota.
  change (")"%char :: rest) with (Slug.lit ")" ++ rest).
  rewrite run_close_free by done. by destruct group.
Qed.

Lemma Set_of_intro l x : x ∈ l -> x ∈ Objects.Set_of l.
Proof.
  unfold Objects.Set_of.
  assert (∀ seen, x ∈ seen ∨ x ∈ l ->
          x ∈ foldl (λ seen x,
            if bool_decide (x ∈ seen) then seen else seen ++ [x]) seen l)
    as Hgen.
  { induction l as [|y l IH]; intros seen.
    - intros [?|?%elem_of_nil]; done.
    - cbn [foldl]. intros [Hin|[->|Hin]%elem_of_cons]; apply IH.
      + left. destruct (bool_decide (y ∈ seen)); [done|].
        apply elem_of_app. by left.
      + left. destruct (bool_decide (y ∈ seen)) eqn:Hy.
        * by apply bool_decide_eq_true in Hy.
        * apply elem_of_app. right. by apply list_elem_of_singleton.
      + by right. }
  intros Hin. apply Hgen. by right.
Qed.

(** X30. _getEnvVarDeps finds the first reference of a value: when no "$"
    comes before "$(dep)", dep is not empty and holds no ")", and dep is not
    the variable's own name, then dep is among the dependencies. *)
Theorem env_deps_hold_the_first_reference name before dep rest :
  dollar_free before -> dep ≠ [] -> close_free dep -> Some dep ≠ name ->
  dep ∈ Objects._getEnvVarDeps
          {| Objects.name := name;
             Objects.value :=
               Some (before ++ Slug.lit "$(" ++ dep ++ Slug.lit ")" ++ rest) |}.
Proof.
  intros Hbefore Hne Hfree Hname. unfold Objects._getEnvVarDeps.
  cbn [Objects.value Objects.name].
  assert (dep ∈ Objects.matchAll
            (before ++ Slug.lit "$(" ++ dep ++ Slug.lit ")" ++ rest)) as Hin.
  { unfold Objects.matchAll. unfold dollar_free in Hbefore.
    induction before as [|c before IH].
    - cbn [app length Slug.lit list_ascii_of_string Objects.matchAll_from].
      change ("$"%char :: "("%char :: dep ++ ")"%char :: rest)
        with (Slug.lit "$(" ++ dep ++ Slug.lit ")" ++ rest).
      rewrite match_at_reference by done. apply elem_of_cons. by left.
    - cbn [forallb] in Hbefore. apply andb_true_iff in Hbefore as [Hc Hb].
      apply negb_true_iff in Hc.
      change ((c :: before) ++ ?t) with (c :: (before ++ t)).
      cbn [length Objects.matchAll_from].
      assert (Objects.match_at
                (c :: before ++
                   Slug.lit "$(" ++ dep ++ Slug.lit ")" ++ rest) = None) as ->.
      { unfold Objects.match_at.
        destruct (before ++ Slug.lit "$(" ++ dep ++ Slug.lit ")" ++ rest);
          [done|]. by rewrite Hc. }
      by apply IH. }
  destruct (before ++ Slug.lit "$(" ++ dep ++ Slug.lit ")" ++ rest)
    as [|c s] eqn:Hs.
  { by destruct before. }
  apply Set_of_intro, list_elem_of_filter. by split.
Qed.

Lemma env_deps_hold_the_first_reference_witness :
  Slug.lit "HOME" ∈ Objects._getEnvVarDeps
    {| Objects.name := Some (Slug.lit "PATH");
       Objects.value :=
         Some (Slug.lit "/opt/bin:" ++ Slug.lit "$(" ++ Slug.lit "HOME" ++
               Slug.lit ")" ++ Slug.lit "/bin") |}.
Proof.
  apply (env_deps_hold_the_first_reference (Some (Slug.lit "PATH"))
           (Slug.lit "/opt/bin:") (Slug.lit "HOME") (Slug.lit "/bin"));
    done.
Defined.
